(** * stan-bench: a shallow embedding of [main/main.go]

    The program is the NATS Streaming benchmark driver: [main] validates its
    flags, starts [numSubs] subscriber goroutines ([runSubscriber]), then
    [numPubs] publisher goroutines ([runPublisher]), and reports the samples
    they hand to the [bench] package.

    The embedding follows the source function by function.  Go integers are
    [Z] with the wrap-around of their width written out; goroutines that
    share memory are interleaved by a labelled step function in which every
    blocking or atomic operation of the source is one step. *)

From Stdlib Require Import ZArith Lia List Bool String Ascii.
From Stdlib Require Import DecimalString DecimalNat.
From stdpp Require Import base tactics option list.
Import ListNotations.

Local Open Scope Z_scope.

(* ===================================================================== *)
(** * Part I: the program                                                  *)
(* ===================================================================== *)

(** ** Go integers *)

Module Go.

(** Two's-complement reading of [z] on [w] bits: the value a Go signed
    integer of that width holds after an arithmetic operation or after a
    conversion such as [int32(numMsgs)]. *)
Definition wrap (w : Z) (z : Z) : Z :=
  (z + 2 ^ (w - 1)) mod 2 ^ w - 2 ^ (w - 1).

Definition int32 (z : Z) : Z := wrap 32 z.
Definition int (z : Z) : Z := wrap 64 z.

Definition max_int32 : Z := 2 ^ 31 - 1.
Definition max_int : Z := 2 ^ 63 - 1.

(** [strings.Contains s substr]. *)
Fixpoint Contains (s substr : string) : bool :=
  String.prefix substr s ||
  match s with
  | EmptyString => false
  | String _ s' => Contains s' substr
  end.

(** [len(s) > 0] on a string. *)
Definition nonempty (s : string) : bool :=
  match s with EmptyString => false | String _ _ => true end.

End Go.

(** ** The [bench] package *)

Module Bench.

(** Modelled from the spec: [bench.MsgsPerClient] belongs to the imported
    package [github.com/nats-io/nats.go/bench]; only its call in [main]
    (line 130) is part of this repository.  The definition follows the
    specification of MessageShares: every publisher gets the quotient, and
    the first [total mod publisherCount] publishers one message more
    ([share] is the count of publisher [i]).  Division and remainder are
    Go's (truncating) ones. *)
Definition share (mc extra : Z) (i : nat) : Z :=
  if Z.of_nat i <? extra then mc + 1 else mc.

Definition MsgsPerClient (numMsgs numClients : Z) : list Z :=
  let mc := Z.quot numMsgs numClients in
  let extra := Z.rem numMsgs numClients in
  map (share mc extra) (seq 0 (Z.to_nat numClients)).

(** [bench.Sample], as far as [bench.NewSample] fills it from the driver:
    message count, message size and the two timestamps. *)
Record Sample := NewSample {
  JobMsgCnt : Z;
  MsgSize : Z;
  Start : Z;
  End : Z
}.

End Bench.

(** Sum, largest and smallest entry of a sequence of shares. *)
Definition sumZ (l : list Z) : Z := fold_right Z.add 0 l.
Definition maxZ (l : list Z) : Z := fold_right Z.max (hd 0 l) l.
Definition minZ (l : list Z) : Z := fold_right Z.min (hd 0 l) l.

(** ** [main]: flags and connect options (lines 56-108) *)

Module Args.

(** The flags [main] reads before it starts any worker. *)
Record flags := {
  urls : string;        (* -s *)
  userCreds : string;   (* -creds *)
  certDir : string;     (* -cd *)
  certFile : string;    (* -cf *)
  certKey : string;     (* -ck *)
  user : string;        (* -u *)
  pswd : string;        (* -pw *)
  args : list string    (* flag.Args() *)
}.

(** [nats.Option] values appended to [opts]. *)
Inductive option_ :=
| Name (n : string)
| UserCredentials (file : string)
| UserInfo (u p : string)
| RootCAs (files : list string)
| ClientCert (cert key : string).

(** [usage] ends the process through [log.Fatalf]; otherwise [main] goes
    on to start the benchmark with the options it collected. *)
Inductive outcome :=
| Usage
| Proceed (opts : list option_).

(** Lines 82-108.  [glob] stands for
    [filepath.Glob(filepath.Join(dir, "*.pem"))]. *)
Definition setup (glob : string -> list string) (f : flags) : outcome :=
  if negb (length (args f) =? 1)%nat then Usage
  else
    let opts := [Name "NATS Streaming Benchmark"%string] in
    let opts :=
      if negb (String.eqb (userCreds f) EmptyString)
      then opts ++ [UserCredentials (userCreds f)] else opts in
    let opts :=
      if Go.nonempty (user f) && Go.nonempty (pswd f)
      then opts ++ [UserInfo (user f) (pswd f)] else opts in
    if Go.Contains (urls f) "tls://"%string then
      if Go.nonempty (certDir f) then
        Proceed (opts ++ [RootCAs (glob (certDir f))])
      else if Go.nonempty (certFile f) && Go.nonempty (certKey f) then
        Proceed (opts ++ [ClientCert (certFile f) (certKey f)])
      else Usage
    else Proceed opts.

(** The validation rule as the specification words it: usage is printed
    when the positional-argument count is not one, or when the URL is a
    TLS URL and none of credentials file, certificate directory,
    certificate file with key was given. *)
Definition spec_rejects (f : flags) : Prop :=
  length (args f) <> 1%nat \/
  (Go.Contains (urls f) "tls://"%string = true /\
   userCreds f = EmptyString /\
   certDir f = EmptyString /\
   ~ (certFile f <> EmptyString /\ certKey f <> EmptyString)).

End Args.

(** ** The payload of [runPublisher] (lines 169-173) *)

Module Payload.

(** The byte slice literal of line 172, one [Z] below 256 per byte. *)
Definition literal : list Z :=
  [
  10; 213; 14; 123; 34; 114; 101; 113; 117; 101; 115; 116; 95; 105; 100; 34; 58; 34; 56; 97; 54;
  54; 57; 53; 55; 34; 44; 34; 114; 101; 113; 117; 101; 115; 116; 95; 109; 101; 116; 104; 111; 100;
  34; 58; 34; 80; 79; 83; 84; 34; 44; 34; 114; 101; 113; 117; 101; 115; 116; 95; 117; 114; 108;
  34; 58; 34; 104; 116; 116; 112; 115; 58; 47; 47; 97; 112; 105; 46; 105; 116; 101; 114; 97; 98;
  108; 101; 46; 99; 111; 109; 47; 97; 112; 105; 47; 101; 118; 101; 110; 116; 115; 47; 116; 114;
  97; 99; 107; 34; 44; 34; 111; 112; 101; 114; 97; 116; 105; 111; 110; 95; 116; 121; 112; 101; 34;
  58; 34; 84; 114; 97; 99; 107; 69; 118; 101; 110; 116; 34; 44; 34; 117; 115; 101; 114; 95; 103;
  108; 111; 98; 97; 108; 95; 105; 100; 34; 58; 34; 48; 100; 56; 57; 101; 53; 102; 99; 57; 99; 52;
  56; 54; 97; 51; 97; 99; 52; 100; 53; 54; 101; 56; 55; 51; 52; 98; 56; 51; 57; 53; 99; 102; 101;
  34; 44; 34; 116; 105; 109; 101; 95; 117; 110; 105; 120; 34; 58; 49; 54; 48; 52; 52; 56; 54; 52;
  56; 57; 44; 34; 112; 114; 111; 112; 101; 114; 116; 105; 101; 115; 34; 58; 34; 123; 92; 34; 101;
  118; 101; 110; 116; 78; 97; 109; 101; 92; 34; 58; 92; 34; 97; 99; 116; 105; 118; 105; 116; 121;
  112; 97; 103; 101; 92; 34; 44; 92; 34; 99; 114; 101; 97; 116; 101; 100; 65; 116; 92; 34; 58; 49;
  54; 48; 52; 52; 56; 54; 52; 56; 55; 57; 55; 50; 44; 92; 34; 100; 97; 116; 97; 70; 105; 101; 108;
  100; 115; 92; 34; 58; 123; 92; 34; 97; 99; 116; 105; 118; 105; 116; 121; 73; 68; 92; 34; 58; 52;
  53; 54; 48; 56; 44; 92; 34; 97; 99; 116; 105; 118; 105; 116; 121; 73; 109; 97; 103; 101; 92; 34;
  58; 92; 34; 47; 97; 99; 116; 105; 118; 105; 116; 105; 101; 115; 47; 110; 117; 103; 121; 104;
  115; 101; 101; 110; 119; 52; 112; 122; 121; 107; 122; 118; 102; 100; 117; 46; 106; 112; 103; 92;
  34; 44; 92; 34; 97; 99; 116; 105; 118; 105; 116; 121; 78; 97; 109; 101; 92; 34; 58; 92; 34; 231;
  141; 168; 229; 174; 182; 229; 132; 170; 230; 131; 160; 239; 188; 154; 233; 166; 153; 230; 184;
  175; 229; 155; 155; 229; 173; 163; 233; 133; 146; 229; 186; 151; 228; 189; 143; 229; 174; 191;
  229; 165; 151; 233; 164; 144; 92; 34; 44; 92; 34; 97; 99; 116; 105; 118; 105; 116; 121; 80; 114;
  105; 99; 101; 92; 34; 58; 92; 34; 72; 75; 36; 50; 44; 53; 51; 48; 92; 34; 44; 92; 34; 98; 111;
  111; 107; 105; 110; 103; 78; 117; 109; 98; 101; 114; 92; 34; 58; 49; 51; 54; 54; 44; 92; 34; 99;
  97; 116; 101; 103; 111; 114; 121; 73; 68; 92; 34; 58; 51; 44; 92; 34; 99; 105; 116; 121; 73; 68;
  92; 34; 58; 50; 44; 92; 34; 99; 105; 116; 121; 78; 97; 109; 101; 92; 34; 58; 92; 34; 233; 166;
  153; 230; 184; 175; 92; 34; 44; 92; 34; 99; 105; 116; 121; 85; 82; 76; 92; 34; 58; 92; 34; 104;
  116; 116; 112; 115; 58; 47; 47; 119; 119; 119; 46; 107; 108; 111; 111; 107; 46; 99; 111; 109;
  47; 122; 104; 45; 72; 75; 47; 99; 105; 116; 121; 47; 50; 92; 34; 44; 92; 34; 99; 111; 117; 110;
  116; 114; 121; 73; 68; 92; 34; 58; 50; 44; 92; 34; 112; 97; 103; 101; 85; 82; 76; 92; 34; 58;
  92; 34; 104; 116; 116; 112; 115; 58; 47; 47; 119; 119; 119; 46; 107; 108; 111; 111; 107; 46; 99;
  111; 109; 47; 122; 104; 45; 72; 75; 47; 97; 99; 116; 105; 118; 105; 116; 121; 47; 52; 53; 54;
  48; 56; 92; 34; 44; 92; 34; 112; 108; 97; 116; 102; 111; 114; 109; 92; 34; 58; 92; 34; 65; 110;
  100; 114; 111; 105; 100; 92; 34; 44; 92; 34; 114; 101; 99; 111; 109; 109; 101; 110; 100; 101;
  100; 65; 99; 116; 105; 118; 105; 116; 121; 49; 92; 34; 58; 123; 92; 34; 73; 109; 97; 103; 101;
  85; 82; 76; 92; 34; 58; 92; 34; 104; 116; 116; 112; 115; 58; 47; 47; 114; 101; 115; 46; 107;
  108; 111; 111; 107; 46; 99; 111; 109; 47; 105; 109; 97; 103; 101; 47; 117; 112; 108; 111; 97;
  100; 47; 97; 99; 116; 105; 118; 105; 116; 105; 101; 115; 47; 102; 57; 53; 98; 53; 101; 101; 102;
  45; 65; 113; 117; 97; 76; 117; 110; 97; 45; 78; 105; 103; 104; 116; 45; 67; 114; 117; 105; 115;
  101; 46; 106; 112; 103; 92; 34; 44; 92; 34; 78; 97; 109; 101; 92; 34; 58; 92; 34; 229; 188; 181;
  228; 191; 157; 228; 187; 148; 232; 153; 159; 233; 171; 148; 233; 169; 151; 228; 185; 139; 230;
  151; 133; 32; 40; 230; 140; 135; 229; 174; 154; 230; 153; 130; 229; 128; 153; 232; 178; 183; 51;
  233; 128; 129; 49; 41; 92; 34; 44; 92; 34; 80; 114; 105; 99; 101; 92; 34; 58; 92; 34; 72; 75;
  36; 50; 48; 49; 46; 48; 92; 34; 44; 92; 34; 98; 111; 111; 107; 105; 110; 103; 78; 117; 109; 98;
  101; 114; 92; 34; 58; 49; 49; 56; 53; 49; 54; 44; 92; 34; 112; 97; 103; 101; 85; 82; 76; 92; 34;
  58; 92; 34; 104; 116; 116; 112; 115; 58; 47; 47; 119; 119; 119; 46; 107; 108; 111; 111; 107; 46;
  99; 111; 109; 47; 122; 104; 45; 72; 75; 47; 97; 99; 116; 105; 118; 105; 116; 121; 47; 54; 53;
  57; 92; 34; 44; 92; 34; 114; 101; 118; 105; 101; 119; 78; 117; 109; 98; 101; 114; 92; 34; 58;
  53; 57; 50; 57; 44; 92; 34; 114; 101; 118; 105; 101; 119; 82; 97; 116; 105; 110; 103; 92; 34;
  58; 52; 46; 55; 125; 44; 92; 34; 114; 101; 99; 111; 109; 109; 101; 110; 100; 101; 100; 65; 99;
  116; 105; 118; 105; 116; 121; 50; 92; 34; 58; 123; 92; 34; 73; 109; 97; 103; 101; 85; 82; 76;
  92; 34; 58; 92; 34; 104; 116; 116; 112; 115; 58; 47; 47; 114; 101; 115; 46; 107; 108; 111; 111;
  107; 46; 99; 111; 109; 47; 105; 109; 97; 103; 101; 47; 117; 112; 108; 111; 97; 100; 47; 97; 99;
  116; 105; 118; 105; 116; 105; 101; 115; 47; 111; 56; 120; 106; 107; 49; 113; 97; 121; 103; 114;
  109; 117; 115; 119; 108; 103; 118; 103; 107; 46; 106; 112; 103; 92; 34; 44; 92; 34; 78; 97; 109;
  101; 92; 34; 58; 92; 34; 227; 128; 144; 229; 141; 179; 232; 178; 183; 229; 141; 179; 231; 148;
  168; 227; 128; 145; 233; 166; 153; 230; 184; 175; 230; 169; 159; 229; 160; 180; 229; 191; 171;
  231; 183; 154; 232; 187; 138; 231; 165; 168; 239; 188; 136; 230; 142; 131; 81; 82; 32; 67; 111;
  100; 101; 231; 155; 180; 230; 142; 165; 229; 133; 165; 233; 150; 152; 239; 188; 137; 92; 34; 44;
  92; 34; 80; 114; 105; 99; 101; 92; 34; 58; 92; 34; 72; 75; 36; 52; 57; 46; 48; 92; 34; 44; 92;
  34; 98; 111; 111; 107; 105; 110; 103; 78; 117; 109; 98; 101; 114; 92; 34; 58; 52; 48; 50; 57;
  48; 54; 56; 44; 92; 34; 112; 97; 103; 101; 85; 82; 76; 92; 34; 58; 92; 34; 104; 116; 116; 112;
  115; 58; 47; 47; 119; 119; 119; 46; 107; 108; 111; 111; 107; 46; 99; 111; 109; 47; 122; 104; 45;
  72; 75; 47; 97; 99; 116; 105; 118; 105; 116; 121; 47; 55; 49; 92; 34; 44; 92; 34; 114; 101; 118;
  105; 101; 119; 78; 117; 109; 98; 101; 114; 92; 34; 58; 50; 57; 51; 56; 50; 52; 44; 92; 34; 114;
  101; 118; 105; 101; 119; 82; 97; 116; 105; 110; 103; 92; 34; 58; 52; 46; 57; 125; 44; 92; 34;
  114; 101; 99; 111; 109; 109; 101; 110; 100; 101; 100; 65; 99; 116; 105; 118; 105; 116; 121; 51;
  92; 34; 58; 123; 92; 34; 73; 109; 97; 103; 101; 85; 82; 76; 92; 34; 58; 92; 34; 104; 116; 116;
  112; 115; 58; 47; 47; 114; 101; 115; 46; 107; 108; 111; 111; 107; 46; 99; 111; 109; 47; 105;
  109; 97; 103; 101; 47; 117; 112; 108; 111; 97; 100; 47; 97; 99; 116; 105; 118; 105; 116; 105;
  101; 115; 47; 119; 103; 119; 55; 102; 56; 110; 48; 110; 108; 122; 106; 48; 54; 51; 113; 122;
  121; 107; 52; 46; 106; 112; 103; 92; 34; 44; 92; 34; 78; 97; 109; 101; 92; 34; 58; 92; 34; 227;
  128; 144; 231; 141; 168; 229; 174; 182; 229; 132; 170; 230; 131; 160; 227; 128; 145; 233; 166;
  153; 230; 184; 175; 232; 191; 170; 229; 163; 171; 229; 176; 188; 230; 168; 130; 229; 156; 146;
  233; 150; 128; 231; 165; 168; 32; 43; 32; 229; 146; 150; 229; 149; 161; 229; 132; 170; 230; 131;
  160; 92; 34; 44; 92; 34; 80; 114; 105; 99; 101; 92; 34; 58; 92; 34; 72; 75; 36; 53; 55; 51; 46;
  48; 92; 34; 44; 92; 34; 98; 111; 111; 107; 105; 110; 103; 78; 117; 109; 98; 101; 114; 92; 34;
  58; 50; 55; 53; 53; 52; 57; 56; 44; 92; 34; 112; 97; 103; 101; 85; 82; 76; 92; 34; 58; 92; 34;
  104; 116; 116; 112; 115; 58; 47; 47; 119; 119; 119; 46; 107; 108; 111; 111; 107; 46; 99; 111;
  109; 47; 122; 104; 45; 72; 75; 47; 97; 99; 116; 105; 118; 105; 116; 121; 47; 51; 57; 92; 34; 44;
  92; 34; 114; 101; 118; 105; 101; 119; 78; 117; 109; 98; 101; 114; 92; 34; 58; 49; 50; 56; 52;
  54; 57; 44; 92; 34; 114; 101; 118; 105; 101; 119; 82; 97; 116; 105; 110; 103; 92; 34; 58; 52;
  46; 56; 125; 44; 92; 34; 114; 101; 118; 105; 101; 119; 78; 117; 109; 98; 101; 114; 92; 34; 58;
  49; 57; 50; 44; 92; 34; 114; 101; 118; 105; 101; 119; 82; 97; 116; 105; 110; 103; 92; 34; 58;
  52; 46; 55; 44; 92; 34; 118; 101; 114; 116; 105; 99; 97; 108; 84; 121; 112; 101; 92; 34; 58; 92;
  34; 65; 99; 116; 105; 118; 105; 116; 105; 101; 115; 32; 92; 92; 117; 48; 48; 50; 54; 32; 69;
  120; 112; 101; 114; 105; 101; 110; 99; 101; 115; 92; 34; 125; 44; 92; 34; 117; 115; 101; 114;
  73; 100; 92; 34; 58; 92; 34; 48; 100; 56; 57; 101; 53; 102; 99; 57; 99; 52; 56; 54; 97; 51; 97;
  99; 52; 100; 53; 54; 101; 56; 55; 51; 52; 98; 56; 51; 57; 53; 99; 102; 101; 92; 34; 125; 34;
  125; 18; 30; 10; 8; 75; 77; 81; 45; 84; 101; 115; 116; 18; 8; 75; 77; 81; 45; 84; 101; 115; 116;
  40; 136; 189; 254; 221; 252; 139; 146; 162; 22
  ].

(** [msg] after lines 169-173: the literal when [msgSize > 0], the nil
    slice otherwise. *)
Definition msg (msgSize : Z) : list Z :=
  if msgSize >? 0 then literal else [].

End Payload.

(** ** [runPublisher] (lines 151-210) *)

Module Pub.

(** The arguments of [runPublisher] that decide its control flow. *)
Record params := {
  numMsgs : Z;
  msgSize : Z;
  sync : bool;
  maxPubAcksInflight : Z
}.

(** Where the publisher goroutine stands. *)
Inductive pc :=
| PNatsConnect          (* line 152 *)
| PStanConnect          (* line 156 *)
| PStartDone            (* line 164 *)
| PPrepare              (* lines 166-176 *)
| PLoop (i : Z)         (* head of the loop of line 189 or 197 *)
| PWait                 (* line 195: <-ch *)
| PSample               (* line 206 *)
| PClose                (* lines 207-208 *)
| PDone                 (* line 209 *)
| PFinished
| PFatal.               (* log.Fatal: the process has exited *)

(** What the publisher does that others can see. *)
Inductive event :=
| EvPrintln (n : Z)                 (* fmt.Println(len(msg)) *)
| EvPublish (payload : list Z)      (* snc.Publish / snc.PublishAsync *)
| EvNotify                          (* the value of ch changes hands *)
| EvSample (s : Bench.Sample)       (* benchmark.AddPubSample *)
| EvFatal
| EvDone.                           (* donewg.Done() *)

(** The goroutine's locals, the acknowledgments the collaborator still
    owes ([unacked]), whether the callback [acb] is blocked in
    [ch <- true], a step counter standing for [time.Now()], and the
    events so far, latest first. *)
Record state := {
  at_ : pc;
  msg : list Z;
  published : Z;
  start : Z;
  unacked : Z;
  acb_sending : bool;
  now : Z;
  events : list event
}.

(** A step of the goroutine, or of the collaborator on its behalf; [ok]
    is [false] when the collaborator reports an error. *)
Inductive label :=
| NatsConnect (ok : bool)
| StanConnect (ok : bool)
| StartDone
| Prepare
| Call (ok : bool)      (* one iteration of the publish loop *)
| LoopExit
| Ack (ok : bool)       (* the collaborator invokes acb *)
| Notify                (* <-ch meets ch <- true *)
| AddSample
| Close
| Done.

Definition init : state :=
  {| at_ := PNatsConnect; msg := []; published := 0; start := 0;
     unacked := 0; acb_sending := false; now := 0; events := [] |}.

(** Move the goroutine to [p], recording [evs]; the clock ticks. *)
Definition goto (p : pc) (evs : list event) (s : state) : state :=
  {| at_ := p; msg := msg s; published := published s; start := start s;
     unacked := unacked s; acb_sending := acb_sending s;
     now := now s + 1; events := evs ++ events s |}.

Definition fatal (s : state) : state := goto PFatal [EvFatal] s.

Definition set_msg (m : list Z) (s : state) : state :=
  {| at_ := at_ s; msg := m; published := 0; start := now s;
     unacked := unacked s; acb_sending := acb_sending s;
     now := now s; events := events s |}.

Definition set_counters (pub una : Z) (snd : bool) (s : state) : state :=
  {| at_ := at_ s; msg := msg s; published := pub; start := start s;
     unacked := una; acb_sending := snd;
     now := now s; events := events s |}.

Definition running (s : state) : bool :=
  match at_ s with PFatal => false | _ => true end.

Definition step (p : params) (l : label) (s : state) : option state :=
  match l, at_ s with
  | NatsConnect ok, PNatsConnect =>
      Some (if ok then goto PStanConnect [] s else fatal s)
  | StanConnect ok, PStanConnect =>
      Some (if ok then goto PStartDone [] s else fatal s)
  | StartDone, PStartDone => Some (goto PPrepare [] s)
  | Prepare, PPrepare =>
      let m := Payload.msg (msgSize p) in
      Some (goto (PLoop 0) [EvPrintln (Z.of_nat (length m))] (set_msg m s))
  | Call ok, PLoop i =>
      if i <? numMsgs p then
        if sync p then
          (* lines 198-202 *)
          if ok then
            Some (goto (PLoop (Go.int (i + 1))) [EvPublish (msg s)]
                    (set_counters (Go.int (published s + 1)) (unacked s)
                                  (acb_sending s) s))
          else Some (fatal s)
        else
          (* lines 190-193; the collaborator holds the call back while
             maxPubAcksInflight acknowledgments are outstanding *)
          if unacked s <? maxPubAcksInflight p then
            if ok then
              Some (goto (PLoop (Go.int (i + 1))) [EvPublish (msg s)]
                      (set_counters (published s) (unacked s + 1)
                                    (acb_sending s) s))
            else Some (fatal s)
          else None
      else None
  | LoopExit, PLoop i =>
      if i <? numMsgs p then None
      else Some (goto (if sync p then PSample else PWait) [] s)
  | Ack ok, _ =>
      (* lines 180-188, run by the collaborator once per PublishAsync *)
      if running s && (0 <? unacked s) && negb (acb_sending s) then
        if ok then
          let pub := Go.int (published s + 1) in
          Some (set_counters pub (unacked s - 1) (numMsgs p <=? pub) s)
        else Some (fatal s)
      else None
  | Notify, PWait =>
      if acb_sending s then
        Some (goto PSample [EvNotify]
                (set_counters (published s) (unacked s) false s))
      else None
  | AddSample, PSample =>
      Some (goto PClose
              [EvSample (Bench.NewSample (numMsgs p) (msgSize p)
                           (start s) (now s))] s)
  | Close, PClose => Some (goto PDone [] s)
  | Done, PDone => Some (goto PFinished [EvDone] s)
  | _, _ => None
  end.

(** Run a schedule, first label first. *)
Fixpoint exec (p : params) (ls : list label) (s : state) : option state :=
  match ls with
  | [] => Some s
  | l :: ls' =>
      match step p l s with
      | Some s' => exec p ls' s'
      | None => None
      end
  end.

Inductive reachable (p : params) : state -> Prop :=
| reach_init : reachable p init
| reach_step l s s' :
    reachable p s -> step p l s = Some s' -> reachable p s'.

(** The goroutine has handed in its sample and called [donewg.Done]. *)
Definition completed (s : state) : Prop := at_ s = PFinished.

(** No step is possible: the goroutine is blocked for good. *)
Definition stuck (p : params) (s : state) : Prop :=
  forall l, step p l s = None.

(** The payloads of the publish calls so far. *)
Fixpoint payloads (evs : list event) : list (list Z) :=
  match evs with
  | [] => []
  | EvPublish m :: evs' => m :: payloads evs'
  | _ :: evs' => payloads evs'
  end.

Fixpoint samples (evs : list event) : list Bench.Sample :=
  match evs with
  | [] => []
  | EvSample x :: evs' => x :: samples evs'
  | _ :: evs' => samples evs'
  end.

End Pub.

(** ** [runSubscriber] and the package counters (lines 49-53, 212-274) *)

Module Sub.

(** The flags the subscribers depend on. *)
Record config := {
  numMsgs : Z;      (* -n *)
  numSubs : Z;      (* -ns *)
  queue : string;   (* -qgroup *)
  msgSize : Z       (* -ms *)
}.

(** Line 229. *)
Definition isQueue (c : config) : bool := negb (String.eqb (queue c) EmptyString).

(** What travels on the subject: a publisher's payload, or the
    [[]byte("done")] of line 268. *)
Inductive message := Payload | Sentinel.

(** Where the message callback [mcb] of a worker stands. *)
Inductive cb_pc :=
| CbIdle      (* not running *)
| CbFirst     (* line 234: ch <- time.Now() for the first message *)
| CbCheck     (* line 236: the completion test *)
| CbLast.     (* line 238 or 242: ch <- time.Now() on completion *)

(** Where the goroutine of [runSubscriber] stands, from line 258 on. *)
Inductive pc :=
| WStart      (* line 258: start := <-ch *)
| WEnd        (* line 259: end := <-ch *)
| WSample     (* line 260 *)
| WLeave      (* lines 263-264 *)
| WSubClose   (* line 267 *)
| WPublish    (* line 268 *)
| WClose      (* lines 271-272 *)
| WDone       (* line 273 *)
| WFinished.

(** One subscriber: the variables [mcb] and the goroutine share
    ([received], [ch]), their two program points, the state of the
    subscription, the messages the server holds for it when it is not a
    queue member, and the goroutine's locals.  A timestamp is represented
    by what determines it: the value of [received] when [time.Now()] was
    called, that is the number of the delivery whose callback took it. *)
Record worker := {
  received : Z;
  ch : list Z;
  cb : cb_pc;
  at_ : pc;
  subscribed : bool;
  inbox : list message;
  start : option Z;
  end_ : option Z;
  sr : option Z
}.

Inductive event :=
| EvDeliver (i : nat) (m : message)   (* mcb invoked with m *)
| EvCount (i : nat) (v : Z)           (* AddInt32(&qTotalRecv, 1) = v *)
| EvSample (i : nat) (s : Bench.Sample)
| EvLeave (i : nat) (v : Z)           (* AddInt32(&qSubsLeft, -1) = v *)
| EvSubClose (i : nat)
| EvSentinel (i : nat) (ok : bool)    (* snc.Publish(subj, "done") *)
| EvDone (i : nat).                   (* donewg.Done() *)

(** The two package counters, the messages of the run that the publishers
    have not published yet, the messages the server holds for the queue
    group, the subscribers, and the events so far, latest first. *)
Record state := {
  qTotalRecv : Z;
  qSubsLeft : Z;
  unpublished : nat;
  backlog : list message;
  workers : list worker;
  trace : list event
}.

Inductive label :=
| Publish                         (* a publisher's message arrives *)
| Deliver (i : nat)               (* the server invokes mcb of worker i *)
| FirstSend (i : nat)
| Compare (i : nat)
| LastSend (i : nat)
| RecvStart (i : nat)
| RecvEnd (i : nat)
| AddSample (i : nat)
| Leave (i : nat)
| SubClose (i : nat)
| PublishDone (i : nat) (ok : bool)
| ConnClose (i : nat)
| Done (i : nat).

(** A label on which the collaborator reports no error. *)
Definition faultless (l : label) : bool :=
  match l with PublishDone _ false => false | _ => true end.

(** *** Field updates *)

Definition set_cb (k : cb_pc) (w : worker) : worker :=
  {| received := received w; ch := ch w; cb := k; at_ := at_ w;
     subscribed := subscribed w; inbox := inbox w;
     start := start w; end_ := end_ w; sr := sr w |}.

Definition set_at (p : pc) (w : worker) : worker :=
  {| received := received w; ch := ch w; cb := cb w; at_ := p;
     subscribed := subscribed w; inbox := inbox w;
     start := start w; end_ := end_ w; sr := sr w |}.

Definition set_ch (l : list Z) (w : worker) : worker :=
  {| received := received w; ch := l; cb := cb w; at_ := at_ w;
     subscribed := subscribed w; inbox := inbox w;
     start := start w; end_ := end_ w; sr := sr w |}.

Definition set_received (n : Z) (w : worker) : worker :=
  {| received := n; ch := ch w; cb := cb w; at_ := at_ w;
     subscribed := subscribed w; inbox := inbox w;
     start := start w; end_ := end_ w; sr := sr w |}.

Definition set_inbox (l : list message) (w : worker) : worker :=
  {| received := received w; ch := ch w; cb := cb w; at_ := at_ w;
     subscribed := subscribed w; inbox := l;
     start := start w; end_ := end_ w; sr := sr w |}.

Definition unsubscribe (w : worker) : worker :=
  {| received := received w; ch := ch w; cb := cb w; at_ := at_ w;
     subscribed := false; inbox := inbox w;
     start := start w; end_ := end_ w; sr := sr w |}.

Definition set_start (v : Z) (w : worker) : worker :=
  {| received := received w; ch := ch w; cb := cb w; at_ := at_ w;
     subscribed := subscribed w; inbox := inbox w;
     start := Some v; end_ := end_ w; sr := sr w |}.

Definition set_end (v : Z) (w : worker) : worker :=
  {| received := received w; ch := ch w; cb := cb w; at_ := at_ w;
     subscribed := subscribed w; inbox := inbox w;
     start := start w; end_ := Some v; sr := sr w |}.

Definition set_sr (v : Z) (w : worker) : worker :=
  {| received := received w; ch := ch w; cb := cb w; at_ := at_ w;
     subscribed := subscribed w; inbox := inbox w;
     start := start w; end_ := end_ w; sr := Some v |}.

Definition put (i : nat) (w : worker) (s : state) : state :=
  {| qTotalRecv := qTotalRecv s; qSubsLeft := qSubsLeft s;
     unpublished := unpublished s; backlog := backlog s;
     workers := <[i:=w]> (workers s); trace := trace s |}.

Definition emit (e : event) (s : state) : state :=
  {| qTotalRecv := qTotalRecv s; qSubsLeft := qSubsLeft s;
     unpublished := unpublished s; backlog := backlog s;
     workers := workers s; trace := e :: trace s |}.

Definition set_qTotalRecv (v : Z) (s : state) : state :=
  {| qTotalRecv := v; qSubsLeft := qSubsLeft s;
     unpublished := unpublished s; backlog := backlog s;
     workers := workers s; trace := trace s |}.

Definition set_qSubsLeft (v : Z) (s : state) : state :=
  {| qTotalRecv := qTotalRecv s; qSubsLeft := v;
     unpublished := unpublished s; backlog := backlog s;
     workers := workers s; trace := trace s |}.

Definition set_unpublished (n : nat) (s : state) : state :=
  {| qTotalRecv := qTotalRecv s; qSubsLeft := qSubsLeft s;
     unpublished := n; backlog := backlog s;
     workers := workers s; trace := trace s |}.

Definition set_backlog (l : list message) (s : state) : state :=
  {| qTotalRecv := qTotalRecv s; qSubsLeft := qSubsLeft s;
     unpublished := unpublished s; backlog := l;
     workers := workers s; trace := trace s |}.

Definition set_workers (ws : list worker) (s : state) : state :=
  {| qTotalRecv := qTotalRecv s; qSubsLeft := qSubsLeft s;
     unpublished := unpublished s; backlog := backlog s;
     workers := ws; trace := trace s |}.

(** *** The server *)

(** A message published on the subject: the queue group gets one copy,
    to be handed to one of its members; without a queue group every
    subscription still open gets its own copy. *)
Definition enqueue (m : message) (w : worker) : worker :=
  if subscribed w then set_inbox (inbox w ++ [m]) w else w.

Definition route (c : config) (m : message) (s : state) : state :=
  if isQueue c then set_backlog (backlog s ++ [m]) s
  else set_workers (map (enqueue m) (workers s)) s.

(** *** The callback [mcb] (lines 231-245) *)

(** Lines 232-233: count the message, then decide on the first send. *)
Definition invoke (w : worker) : worker :=
  let n := Go.int (received w + 1) in
  set_cb (if n =? 1 then CbFirst else CbCheck) (set_received n w).

(** [ch <- time.Now()] on the channel of line 227, which buffers two
    values: possible only while there is room. *)
Definition send (w : worker) : option worker :=
  if (length (ch w) <? 2)%nat
  then Some (set_ch (ch w ++ [received w]) w) else None.

(** *** One step of the run *)

Definition step (c : config) (l : label) (s : state) : option state :=
  match l with
  | Publish =>
      match unpublished s with
      | O => None
      | S n => Some (route c Payload (set_unpublished n s))
      end
  | Deliver i =>
      match workers s !! i with
      | Some w =>
          match subscribed w, cb w with
          | true, CbIdle =>
              if isQueue c then
                match backlog s with
                | m :: rest =>
                    Some (emit (EvDeliver i m)
                            (put i (invoke w) (set_backlog rest s)))
                | [] => None
                end
              else
                match inbox w with
                | m :: rest =>
                    Some (emit (EvDeliver i m)
                            (put i (invoke (set_inbox rest w)) s))
                | [] => None
                end
          | _, _ => None
          end
      | None => None
      end
  | FirstSend i =>
      match workers s !! i with
      | Some w =>
          match cb w, send w with
          | CbFirst, Some w' => Some (put i (set_cb CbCheck w') s)
          | _, _ => None
          end
      | None => None
      end
  | Compare i =>
      match workers s !! i with
      | Some w =>
          match cb w with
          | CbCheck =>
              if isQueue c then
                (* line 237 *)
                let v := Go.int32 (qTotalRecv s + 1) in
                let k := if Go.int32 (numMsgs c) <=? v
                         then CbLast else CbIdle in
                Some (emit (EvCount i v)
                        (put i (set_cb k w) (set_qTotalRecv v s)))
              else
                (* line 241 *)
                let k := if numMsgs c <=? received w
                         then CbLast else CbIdle in
                Some (put i (set_cb k w) s)
          | _ => None
          end
      | None => None
      end
  | LastSend i =>
      match workers s !! i with
      | Some w =>
          match cb w, send w with
          | CbLast, Some w' => Some (put i (set_cb CbIdle w') s)
          | _, _ => None
          end
      | None => None
      end
  | RecvStart i =>
      match workers s !! i with
      | Some w =>
          match at_ w, ch w with
          | WStart, v :: rest =>
              Some (put i (set_at WEnd (set_start v (set_ch rest w))) s)
          | _, _ => None
          end
      | None => None
      end
  | RecvEnd i =>
      match workers s !! i with
      | Some w =>
          match at_ w, ch w with
          | WEnd, v :: rest =>
              Some (put i (set_at WSample (set_end v (set_ch rest w))) s)
          | _, _ => None
          end
      | None => None
      end
  | AddSample i =>
      match workers s !! i with
      | Some w =>
          match at_ w with
          | WSample =>
              let x := Bench.NewSample (received w) (msgSize c)
                         (default 0 (start w)) (default 0 (end_ w)) in
              Some (emit (EvSample i x) (put i (set_at WLeave w) s))
          | _ => None
          end
      | None => None
      end
  | Leave i =>
      match workers s !! i with
      | Some w =>
          match at_ w with
          | WLeave =>
              if isQueue c then
                (* line 264 *)
                let v := Go.int32 (qSubsLeft s - 1) in
                let p := if 0 <? v then WSubClose else WClose in
                Some (emit (EvLeave i v)
                        (put i (set_at p (set_sr v w)) (set_qSubsLeft v s)))
              else Some (put i (set_at WClose w) s)
          | _ => None
          end
      | None => None
      end
  | SubClose i =>
      match workers s !! i with
      | Some w =>
          match at_ w with
          | WSubClose =>
              Some (emit (EvSubClose i)
                      (put i (set_at WPublish (unsubscribe w)) s))
          | _ => None
          end
      | None => None
      end
  | PublishDone i ok =>
      (* line 268: the error Publish returns is dropped *)
      match workers s !! i with
      | Some w =>
          match at_ w with
          | WPublish =>
              let s' := put i (set_at WClose w) s in
              Some (emit (EvSentinel i ok)
                      (if ok then route c Sentinel s' else s'))
          | _ => None
          end
      | None => None
      end
  | ConnClose i =>
      match workers s !! i with
      | Some w =>
          match at_ w with
          | WClose => Some (put i (set_at WDone (unsubscribe w)) s)
          | _ => None
          end
      | None => None
      end
  | Done i =>
      match workers s !! i with
      | Some w =>
          match at_ w with
          | WDone => Some (emit (EvDone i) (put i (set_at WFinished w) s))
          | _ => None
          end
      | None => None
      end
  end.

(** *** Runs *)

Definition worker0 : worker :=
  {| received := 0; ch := []; cb := CbIdle; at_ := WStart;
     subscribed := true; inbox := [];
     start := None; end_ := None; sr := None |}.

(** The run once every subscriber has subscribed (line 126): the
    counters as lines 51-52 and 117-119 leave them, the subject holding
    nothing yet, and the [numMsgs] messages of the run still to come. *)
Definition init (c : config) : state :=
  {| qTotalRecv := 0;
     qSubsLeft := if isQueue c then Go.int32 (numSubs c) else 0;
     unpublished := Z.to_nat (numMsgs c);
     backlog := [];
     workers := replicate (Z.to_nat (numSubs c)) worker0;
     trace := [] |}.

Fixpoint exec (c : config) (ls : list label) (s : state) : option state :=
  match ls with
  | [] => Some s
  | l :: ls' =>
      match step c l s with
      | Some s' => exec c ls' s'
      | None => None
      end
  end.

(** States of runs in which any publish of a sentinel may fail. *)
Inductive reachable (c : config) : state -> Prop :=
| reach_init : reachable c (init c)
| reach_step l s s' :
    reachable c s -> step c l s = Some s' -> reachable c s'.

(** States of runs in which the collaborator reports no error. *)
Inductive reachable_ok (c : config) : state -> Prop :=
| ok_init : reachable_ok c (init c)
| ok_step l s s' :
    reachable_ok c s -> faultless l = true -> step c l s = Some s' ->
    reachable_ok c s'.

(** No step is possible any more. *)
Definition stuck (c : config) (s : state) : Prop :=
  forall l, step c l s = None.

Definition finished (w : worker) : Prop := at_ w = WFinished.

(** *** Reading the trace *)

(** The values the atomic increment of [qTotalRecv] returned, latest
    first. *)
Fixpoint counts (tr : list event) : list Z :=
  match tr with
  | [] => []
  | EvCount _ v :: tr' => v :: counts tr'
  | _ :: tr' => counts tr'
  end.

(** The steps of the termination handshake worker [i] has taken, latest
    first. *)
Fixpoint handshake (i : nat) (tr : list event) : list event :=
  match tr with
  | [] => []
  | e :: tr' =>
      let keep :=
        match e with
        | EvLeave j _ | EvSubClose j | EvSentinel j _ => Nat.eqb i j
        | _ => false
        end in
      if keep then e :: handshake i tr' else handshake i tr'
  end.

(** The number of sentinels published so far, by anyone. *)
Fixpoint sentinels (tr : list event) : Z :=
  match tr with
  | [] => 0
  | EvSentinel _ _ :: tr' => 1 + sentinels tr'
  | _ :: tr' => sentinels tr'
  end.


End Sub.

(* ===================================================================== *)
(** * Part II: invariants and measures                                     *)
(* ===================================================================== *)

(** ** The publisher *)

Module PubInv.

Import Pub.

(** Every payload so far is the slice prepared at lines 169-173, and so
    is [msg] once the loop has been entered. *)
Definition payload_inv (p : params) (s : state) : Prop :=
  Forall (fun m => m = Payload.msg (msgSize p)) (payloads (events s)) /\
  (forall i, at_ s = PLoop i -> msg s = Payload.msg (msgSize p)).

(** With nothing to publish and asynchronous mode, the goroutine never
    gets past [<-ch]: no acknowledgment is owed, so [acb] never runs. *)
Definition idle_inv (s : state) : Prop :=
  unacked s = 0 /\ acb_sending s = false /\ samples (events s) = [] /\
  match at_ s with
  | PNatsConnect | PStanConnect | PStartDone | PPrepare
  | PWait | PFatal => True
  | PLoop i => i = 0
  | _ => False
  end.

(** The notifications the goroutine has taken from [ch]. *)
Fixpoint notified (evs : list event) : nat :=
  match evs with
  | [] => 0
  | EvNotify :: evs' => S (notified evs')
  | _ :: evs' => notified evs'
  end.

(** The wait at [<-ch] is behind the goroutine. *)
Definition past_wait (s : state) : bool :=
  match at_ s with
  | PSample | PClose | PDone | PFinished => true
  | _ => false
  end.

(** An asynchronous publisher with a share of at least one message:
    every call issued so far is acknowledged or outstanding; [acb] stands
    at [ch <- true] from the acknowledgment that takes [published] to the
    share until the goroutine takes the notification; and the goroutine
    is past [<-ch] exactly when it has taken it, once. *)
Definition async_inv (p : params) (s : state) : Prop :=
  0 <= published s /\ 0 <= unacked s /\
  match at_ s with
  | PFatal => True
  | PNatsConnect | PStanConnect | PStartDone | PPrepare =>
      published s = 0 /\ unacked s = 0 /\ acb_sending s = false /\
      notified (events s) = 0%nat /\ samples (events s) = []
  | PLoop i =>
      0 <= i <= numMsgs p /\ published s + unacked s = i /\
      acb_sending s = (numMsgs p <=? published s) /\
      notified (events s) = 0%nat /\ samples (events s) = []
  | PWait =>
      published s + unacked s = numMsgs p /\
      acb_sending s = (numMsgs p <=? published s) /\
      notified (events s) = 0%nat /\ samples (events s) = []
  | PSample =>
      published s = numMsgs p /\ unacked s = 0 /\ acb_sending s = false /\
      notified (events s) = 1%nat /\ samples (events s) = []
  | PClose | PDone | PFinished =>
      published s = numMsgs p /\ unacked s = 0 /\ acb_sending s = false /\
      notified (events s) = 1%nat /\
      exists t, samples (events s)
                = [Bench.NewSample (numMsgs p) (msgSize p) (start s) t]
  end.

(** The steps left to a publisher whose acknowledgments have all come. *)
Definition wind_up (s : state) : list label :=
  match at_ s with
  | PLoop _ => [LoopExit; Notify; AddSample; Close; Done]
  | PWait => [Notify; AddSample; Close; Done]
  | PSample => [AddSample; Close; Done]
  | PClose => [Close; Done]
  | PDone => [Done]
  | _ => []
  end.

(** The claim as the specification words it: every payload has the
    configured size. *)
Definition payload_as_configured (p : params) : Prop :=
  forall s m, reachable p s -> In m (payloads (events s)) ->
              Z.of_nat (length m) = msgSize p.

End PubInv.

(** ** The subscribers *)

Module SubInv.

Import Sub.

(** The sum of [f] over the workers. *)
Definition total (f : worker -> Z) (ws : list worker) : Z :=
  fold_right (fun w a => f w + a) 0 ws.

(** How many values the goroutine has taken from [ch]. *)
Definition consumed (p : pc) : Z :=
  match p with WStart => 0 | WEnd => 1 | _ => 2 end.

(** How many values [mcb] has put on [ch]. *)
Definition sends (w : worker) : Z :=
  Z.of_nat (length (ch w)) + consumed (at_ w).

(** The goroutine is still at one of its two receives. *)
Definition waiting (w : worker) : bool :=
  match at_ w with WStart | WEnd => true | _ => false end.

(** 1 while the worker has not decremented [qSubsLeft]. *)
Definition staying (w : worker) : Z :=
  match at_ w with WStart | WEnd | WSample | WLeave => 1 | _ => 0 end.

(** 1 while [mcb] has counted a message locally but not yet in
    [qTotalRecv]. *)
Definition counting (w : worker) : Z :=
  match cb w with CbFirst | CbCheck => 1 | _ => 0 end.

(** 1 while the worker holds the completion signal: from the test that
    succeeded until its sentinel is out, or until it leaves as the last
    member. *)
Definition holding (w : worker) : Z :=
  match cb w with
  | CbLast => 1
  | _ =>
      if sends w =? 2 then
        match at_ w with WClose | WDone | WFinished => 0 | _ => 1 end
      else 0
  end.

(** 1 once the worker has published its sentinel. *)
Definition sent_sentinel (w : worker) : Z :=
  match at_ w, sr w with
  | (WClose | WDone | WFinished), Some v => if 0 <? v then 1 else 0
  | _, _ => 0
  end.

(** 1 once the worker has left as the last member. *)
Definition left_last (w : worker) : Z :=
  match sr w with Some v => if 0 <? v then 0 else 1 | None => 0 end.

(** Messages on their way to [qTotalRecv]: not yet published, held by the
    server, or inside a callback that has not counted them. *)
Definition inflight (s : state) : Z :=
  Z.of_nat (unpublished s) + Z.of_nat (length (backlog s)) +
  total counting (workers s).

(** Sentinels whose publish failed. *)
Fixpoint lost (tr : list event) : Z :=
  match tr with
  | [] => 0
  | EvSentinel _ false :: tr' => 1 + lost tr'
  | _ :: tr' => lost tr'
  end.

(** [n; n-1; ...; 1]. *)
Fixpoint countdown (n : nat) : list Z :=
  match n with O => [] | S m => Z.of_nat n :: countdown m end.

(** Deliveries to worker [i] of messages of kind [m]. *)
Fixpoint delivered (m : message) (i : nat) (tr : list event) : Z :=
  match tr with
  | [] => 0
  | EvDeliver j m' :: tr' =>
      (match m, m' with
       | Payload, Payload | Sentinel, Sentinel =>
           if Nat.eqb i j then 1 else 0
       | _, _ => 0
       end) + delivered m i tr'
  | _ :: tr' => delivered m i tr'
  end.

(** The samples worker [i] has handed in. *)
Fixpoint samples (i : nat) (tr : list event) : list Bench.Sample :=
  match tr with
  | [] => []
  | EvSample j x :: tr' =>
      if Nat.eqb i j then x :: samples i tr' else samples i tr'
  | _ :: tr' => samples i tr'
  end.

(** *** The handshake of one worker *)

(** What the trace must show of worker [i]'s handshake (latest first),
    given where the worker stands. *)
Definition handshake_at (i : nat) (w : worker) (h : list event) : Prop :=
  match at_ w with
  | WStart | WEnd | WSample | WLeave => sr w = None /\ h = []
  | WSubClose => exists v, sr w = Some v /\ 0 < v /\ h = [EvLeave i v]
  | WPublish =>
      exists v, sr w = Some v /\ 0 < v /\ h = [EvSubClose i; EvLeave i v]
  | WClose | WDone | WFinished =>
      exists v, sr w = Some v /\
        ((v <= 0 /\ h = [EvLeave i v]) \/
         (0 < v /\ exists ok,
            h = [EvSentinel i ok; EvSubClose i; EvLeave i v]))
  end.

Definition handshake_inv (s : state) : Prop :=
  forall i w, workers s !! i = Some w ->
              handshake_at i w (handshake i (trace s)).

(** *** Queue-group runs *)

(** What holds of every member of a queue group, by where its callback
    and its goroutine stand.  [q] is the current value of [qSubsLeft]. *)
Definition member_ok (q : Z) (w : worker) : Prop :=
  0 <= received w /\ sends w <= 2 /\ inbox w = [] /\
  match cb w with
  | CbIdle =>
      (received w = 0 -> sends w = 0) /\ (1 <= received w -> 1 <= sends w)
  | CbFirst => received w = 1 /\ sends w = 0 /\ waiting w = true
  | CbCheck => 1 <= received w /\ 1 <= sends w /\ waiting w = true
  | CbLast => 1 <= received w /\ sends w = 1 /\ waiting w = true
  end /\
  match at_ w with
  | WStart | WEnd | WSample | WLeave => subscribed w = true /\ sr w = None
  | WSubClose =>
      subscribed w = true /\ exists v, sr w = Some v /\ 0 < v /\ q <= v
  | WPublish =>
      subscribed w = false /\ exists v, sr w = Some v /\ 0 < v /\ q <= v
  | WClose =>
      exists v, sr w = Some v /\ q <= v /\ (subscribed w = true -> v <= 0)
  | WDone | WFinished =>
      subscribed w = false /\ exists v, sr w = Some v /\ q <= v
  end.

Record queue_inv (c : config) (s : state) : Prop := {
  q_length : length (workers s) = Z.to_nat (numSubs c);
  q_left : qSubsLeft s = total staying (workers s);
  q_received : total received (workers s)
               = qTotalRecv s + total counting (workers s);
  q_nonneg : 0 <= qTotalRecv s;
  q_bound : qTotalRecv s + inflight s
            <= numMsgs c + total sent_sentinel (workers s);
  q_last : qSubsLeft s <= 0 -> 1 <= numSubs c ->
           1 <= total left_last (workers s);
  q_before : qTotalRecv s < numMsgs c ->
             Forall (fun w => waiting w = true) (workers s) /\
             total holding (workers s) = 0 /\
             lost (trace s) = 0 /\
             qTotalRecv s + inflight s = numMsgs c;
  q_token : numMsgs c <= qTotalRecv s ->
            inflight s + total holding (workers s) + lost (trace s)
            = (if 0 <? qSubsLeft s then 1 else 0);
  q_members : Forall (member_ok (qSubsLeft s)) (workers s);
  q_counts : counts (trace s) = countdown (Z.to_nat (qTotalRecv s));
  q_sentinels : sentinels (trace s) = total sent_sentinel (workers s)
}.

(** The assumptions on the flags of a queue-group run: a queue name, at
    least one message, and counters that fit their 32 bits. *)
Record queue_run (c : config) : Prop := {
  r_queue : isQueue c = true;
  r_msgs : 1 <= numMsgs c;
  r_subs : 0 <= numSubs c;
  r_fit : numMsgs c + numSubs c <= Go.max_int32
}.

(** *** Runs without a queue group *)

Definition olist (o : option Z) : list Z :=
  match o with Some v => [v] | None => [] end.

(** Every value [mcb] has put on [ch], in order. *)
Definition sent (w : worker) : list Z :=
  olist (start w) ++ olist (end_ w) ++ ch w.

(** The values [mcb] must have sent by now, for target [n]: the first
    delivery sends the start, the [n]-th the completion. *)
Definition expected_sent (n : Z) (w : worker) : list Z :=
  (if (1 <=? received w) && negb (match cb w with CbFirst => true | _ => false end)
   then [1] else []) ++
  (if (received w =? n) && (match cb w with CbIdle => true | _ => false end)
   then [n] else []).

(** What holds of every subscriber of a run without a queue group, for
    target [n] and [u] messages still to be published. *)
Definition plain_ok (n : Z) (u : nat) (w : worker) : Prop :=
  0 <= received w /\
  received w + Z.of_nat (length (inbox w)) + Z.of_nat u <= n /\
  (subscribed w = true ->
   received w + Z.of_nat (length (inbox w)) + Z.of_nat u = n) /\
  sr w = None /\
  sent w = expected_sent n w /\
  match cb w with
  | CbIdle => True
  | CbFirst => received w = 1 /\ waiting w = true
  | CbCheck => 1 <= received w /\ waiting w = true
  | CbLast => received w = n /\ waiting w = true
  end /\
  match at_ w with
  | WStart => start w = None /\ end_ w = None /\ subscribed w = true
  | WEnd =>
      (exists a, start w = Some a) /\ end_ w = None /\ subscribed w = true
  | WSample | WLeave | WClose =>
      (exists a, start w = Some a) /\ (exists b, end_ w = Some b) /\
      subscribed w = true
  | WDone | WFinished =>
      (exists a, start w = Some a) /\ (exists b, end_ w = Some b) /\
      subscribed w = false
  | WSubClose | WPublish => False
  end.

Record plain_inv (c : config) (s : state) : Prop := {
  n_length : length (workers s) = Z.to_nat (numSubs c);
  n_workers : Forall (plain_ok (numMsgs c) (unpublished s)) (workers s);
  n_backlog : backlog s = [];
  n_trace : counts (trace s) = [] /\ sentinels (trace s) = 0
}.

Record plain_run (c : config) : Prop := {
  l_plain : isQueue c = false;
  l_msgs : 1 <= numMsgs c;
  l_fit : numMsgs c <= Go.max_int
}.

(** *** Termination measure *)

Definition cb_weight (k : cb_pc) : nat :=
  match k with CbIdle => 0 | CbLast => 1 | CbCheck => 2 | CbFirst => 3 end.

(** [n] is the number of workers: a sentinel may reach [n] inboxes. *)
Definition pc_weight (n : nat) (p : pc) : nat :=
  match p with
  | WFinished => 0 | WDone => 1 | WClose => 2
  | WPublish => 4 * n + 7 | WSubClose => 4 * n + 8
  | WLeave => 4 * n + 9 | WSample => 4 * n + 10
  | WEnd => 4 * n + 11 | WStart => 4 * n + 12
  end%nat.

Definition worker_weight (n : nat) (w : worker) : nat :=
  (4 * length (inbox w) + cb_weight (cb w) + pc_weight n (at_ w))%nat.

Definition weights (n : nat) (ws : list worker) : nat :=
  fold_right (fun w a => worker_weight n w + a)%nat 0%nat ws.

(** An upper bound on the number of steps still possible. *)
Definition measure (s : state) : nat :=
  let n := length (workers s) in
  (unpublished s * (4 * n + 5) + 4 * length (backlog s)
   + weights n (workers s))%nat.

(** *** Progress *)

(** Some step without a collaborator error is possible. *)
Definition can_step (c : config) (s : state) : Prop :=
  exists l s', faultless l = true /\ step c l s = Some s'.

(** The server holds a message it may hand to [w]. *)
Definition available (c : config) (s : state) (w : worker) : Prop :=
  if isQueue c then backlog s <> [] else inbox w <> [].

(** What both kinds of run guarantee about the channel of a worker: it
    never holds more than the start and the completion signal, and no
    message reaches a worker that has been signalled. *)
Definition quiet (c : config) (s : state) (w : worker) : Prop :=
  sends w <= 2 /\
  (cb w = CbFirst -> sends w = 0) /\
  (cb w = CbLast -> sends w = 1 /\ waiting w = true) /\
  (subscribed w = true -> cb w = CbIdle -> available c s w ->
   waiting w = true /\ sends w <= 1 /\
   0 <= received w < Go.max_int).

(** *** Samples *)

(** The completion signal carries the count of the delivery that sent
    it, and that is still the worker's count when the goroutine has
    taken it. *)
Definition stamp_ok (w : worker) : Prop :=
  match at_ w with
  | WStart => sends w = 2 -> exists a, ch w = [a; received w]
  | WEnd => sends w = 2 -> ch w = [received w]
  | _ => end_ w = Some (received w)
  end.

(** The sample of worker [i], if it has handed one in, records the
    worker's own count of deliveries, of either kind. *)
Definition sample_ok (c : config) (i : nat) (tr : list event)
           (w : worker) : Prop :=
  received w = delivered Payload i tr + delivered Sentinel i tr /\
  stamp_ok w /\
  match at_ w with
  | WStart | WEnd | WSample => samples i tr = []
  | _ =>
      samples i tr
      = [Bench.NewSample (received w) (msgSize c)
           (default 0 (start w)) (received w)]
  end.

Definition sample_inv (c : config) (s : state) : Prop :=
  forall i w, workers s !! i = Some w -> sample_ok c i (trace s) w.

(** The flags fit the integers that hold them. *)
Definition fits (c : config) : Prop :=
  if isQueue c
  then 0 <= numSubs c /\ numMsgs c + numSubs c <= Go.max_int32
  else numMsgs c <= Go.max_int.

(** *** The claims as the specification words them *)

(** Every complete run of a queue group ends with all members done. *)
Definition all_members_complete (c : config) : Prop :=
  forall s, reachable_ok c s -> stuck c s ->
            Forall finished (workers s).

(** In every complete run each subscriber has received a completion
    signal, sent by delivery number [numMsgs]. *)
Definition signalled_at_target (c : config) : Prop :=
  forall s, reachable_ok c s -> stuck c s ->
            Forall (fun w => end_ w = Some (numMsgs c)) (workers s).

(** [qTotalRecv] never exceeds the number of messages of the run. *)
Definition delivered_within_total (c : config) : Prop :=
  forall s, reachable_ok c s -> qTotalRecv s <= numMsgs c.


End SubInv.

(** ** Example runs *)

Module Examples.

Import Sub.

(** A queue group of two members and a run of one message. *)
Definition two_members : config :=
  {| numMsgs := 1; numSubs := 2; queue := "bench"; msgSize := 128 |}.

(** One member of a queue group, or one plain subscriber, and a run of
    no message at all. *)
Definition idle_group : config :=
  {| numMsgs := 0; numSubs := 1; queue := "bench"; msgSize := 128 |}.

Definition idle_plain : config :=
  {| numMsgs := 0; numSubs := 1; queue := EmptyString; msgSize := 128 |}.

(** A plain subscriber and a run of two messages. *)
Definition one_plain : config :=
  {| numMsgs := 2; numSubs := 1; queue := EmptyString; msgSize := 128 |}.

(** Member 0 gets the message and completes ... *)
Definition first_member : list label :=
  [Publish; Deliver 0; FirstSend 0; Compare 0; LastSend 0;
   RecvStart 0; RecvEnd 0; AddSample 0; Leave 0; SubClose 0].

(** ... its sentinel reaches member 1, which completes as the last. *)
Definition cascade : list label :=
  first_member ++
  [PublishDone 0 true; ConnClose 0; Done 0;
   Deliver 1; FirstSend 1; Compare 1; LastSend 1;
   RecvStart 1; RecvEnd 1; AddSample 1; Leave 1; ConnClose 1; Done 1].

(** ... or the publish of its sentinel fails. *)
Definition lost_sentinel : list label :=
  first_member ++ [PublishDone 0 false; ConnClose 0; Done 0].

(** The plain subscriber gets both messages. *)
Definition both_messages : list label :=
  [Publish; Publish; Deliver 0; FirstSend 0; Compare 0;
   Deliver 0; Compare 0; LastSend 0; RecvStart 0; RecvEnd 0;
   AddSample 0; Leave 0; ConnClose 0; Done 0].

(** A queue group of two members and a run of two messages, both of
    which the server hands to member 0; member 1 gets the sentinel. *)
Definition two_messages : config :=
  {| numMsgs := 2; numSubs := 2; queue := "bench"; msgSize := 128 |}.

Definition one_sided : list label :=
  [Publish; Publish; Deliver 0; FirstSend 0; Compare 0;
   Deliver 0; Compare 0; LastSend 0; RecvStart 0; RecvEnd 0;
   AddSample 0; Leave 0; SubClose 0; PublishDone 0 true;
   ConnClose 0; Done 0;
   Deliver 1; FirstSend 1; Compare 1; LastSend 1;
   RecvStart 1; RecvEnd 1; AddSample 1; Leave 1; ConnClose 1; Done 1].

Definition run (c : config) (ls : list label) : state :=
  default (init c) (exec c ls (init c)).

Definition cascade_end : state :=
  Eval vm_compute in run two_members cascade.

Definition lost_sentinel_end : state :=
  Eval vm_compute in run two_members lost_sentinel.

Definition both_messages_end : state :=
  Eval vm_compute in run one_plain both_messages.

Definition one_sided_end : state :=
  Eval vm_compute in run two_messages one_sided.

(** The default flags of a publisher with a share of one message. *)
Definition one_message (sync : bool) : Pub.params :=
  {| Pub.numMsgs := 1; Pub.msgSize := 128; Pub.sync := sync;
     Pub.maxPubAcksInflight := 512 |}.

Definition no_message (sync : bool) : Pub.params :=
  {| Pub.numMsgs := 0; Pub.msgSize := 128; Pub.sync := sync;
     Pub.maxPubAcksInflight := 512 |}.

(** A TLS URL with a credentials file and no certificate. *)
Definition tls_with_creds : Args.flags :=
  {| Args.urls := "tls://localhost:4222";
     Args.userCreds := "user.creds";
     Args.certDir := EmptyString; Args.certFile := EmptyString; Args.certKey := EmptyString;
     Args.user := EmptyString; Args.pswd := EmptyString;
     Args.args := ["subject"%string] |}.

End Examples.

(** ** [main]: the workers it starts (lines 110-134) *)

Module Main.

(** [%d] of [fmt.Sprintf] on a loop index, which is never negative. *)
Definition decimal (i : nat) : string :=
  NilEmpty.string_of_uint (Nat.to_uint i).

(** Lines 123 and 132. *)
Definition subID (clientID : string) (i : nat) : string :=
  (clientID ++ "-sub-" ++ decimal i)%string.

Definition pubID (clientID : string) (i : nat) : string :=
  (clientID ++ "-pub-" ++ decimal i)%string.

(** The client IDs of the goroutines [main] starts, in the order of the
    two loops of lines 122-125 and 131-134. *)
Definition workerIDs (clientID : string) (numSubs numPubs : Z)
  : list string :=
  map (subID clientID) (seq 0 (Z.to_nat numSubs)) ++
  map (pubID clientID) (seq 0 (Z.to_nat numPubs)).

End Main.

(** ** More on [runPublisher] *)

Module PubProps.

Import Pub PubInv.

(** A label on which the collaborator reports an error. *)
Definition failing (l : label) : bool :=
  match l with
  | NatsConnect false | StanConnect false | Call false | Ack false => true
  | _ => false
  end.

(** Some step without an error is possible. *)
Definition can_step (p : params) (s : state) : Prop :=
  exists l s', failing l = false /\ step p l s = Some s'.

(** A synchronous publisher: [published] counts the calls of
    [snc.Publish] that returned, the loop index runs with it, and the
    sample comes after the last of them. *)
Definition sync_inv (p : params) (s : state) : Prop :=
  unacked s = 0 /\ acb_sending s = false /\
  Z.of_nat (length (payloads (events s))) = published s /\
  match at_ s with
  | PFatal => 0 <= published s <= numMsgs p /\ samples (events s) = []
  | PNatsConnect | PStanConnect | PStartDone | PPrepare =>
      published s = 0 /\ samples (events s) = []
  | PLoop i =>
      published s = i /\ 0 <= i <= numMsgs p /\ samples (events s) = []
  | PWait => False
  | PSample => published s = numMsgs p /\ samples (events s) = []
  | PClose | PDone | PFinished =>
      published s = numMsgs p /\ samples (events s) <> []
  end.

(** The one sample of a publisher: it is added at line 206 and records
    the arguments [numMsgs] and [msgSize] of [runPublisher]. *)
Definition sample_shape (p : params) (s : state) : Prop :=
  start s <= now s /\
  match samples (events s) with
  | [] => match at_ s with
          | PClose | PDone | PFinished => False
          | _ => True
          end
  | [x] =>
      Bench.JobMsgCnt x = numMsgs p /\ Bench.MsgSize x = msgSize p /\
      Bench.Start x = start s /\ Bench.Start x <= Bench.End x /\
      match at_ s with
      | PClose | PDone | PFinished | PFatal => True
      | _ => False
      end
  | _ => False
  end.

End PubProps.

(** ** More on [runSubscriber] *)

Module SubProps.

Import Sub SubInv.

(** The values the atomic decrement of [qSubsLeft] returned, latest
    first. *)
Fixpoint leaves (tr : list event) : list Z :=
  match tr with
  | [] => []
  | EvLeave _ v :: tr' => v :: leaves tr'
  | _ :: tr' => leaves tr'
  end.

Definition same_kind (m m' : message) : bool :=
  match m, m' with
  | Payload, Payload | Sentinel, Sentinel => true
  | _, _ => false
  end.

(** The callbacks invoked with a message of kind [m], on any worker. *)
Fixpoint handed (m : message) (tr : list event) : Z :=
  match tr with
  | [] => 0
  | EvDeliver _ m' :: tr' =>
      (if same_kind m m' then 1 else 0) + handed m tr'
  | _ :: tr' => handed m tr'
  end.

(** The messages of kind [m] the server holds. *)
Fixpoint pending (m : message) (l : list message) : Z :=
  match l with
  | [] => 0
  | m' :: l' => (if same_kind m m' then 1 else 0) + pending m l'
  end.

(** No message of the run is unaccounted for: each is still to be
    published, held by the server, or was handed to a callback; and so
    is each sentinel whose publish succeeded. *)
Definition accounted (c : config) (s : state) : Prop :=
  handed Payload (trace s) + pending Payload (backlog s)
  + Z.of_nat (unpublished s) = Z.of_nat (Z.to_nat (numMsgs c)) /\
  handed Sentinel (trace s) + pending Sentinel (backlog s)
  + lost (trace s) = sentinels (trace s).

(** At most one member reads a value that makes it the last, and only
    the decrement to zero does. *)
Definition one_last (c : config) (s : state) : Prop :=
  total left_last (workers s)
  = (if (qSubsLeft s <=? 0) && (1 <=? numSubs c) then 1 else 0).

(** Every invocation of [mcb] in a queue group is counted in
    [qTotalRecv] as soon as it is past line 237. *)
Definition counted (s : state) : Prop :=
  qTotalRecv s + total counting (workers s)
  = handed Payload (trace s) + handed Sentinel (trace s).

(** The first value [mcb] puts on the channel is the stamp of the
    worker's first delivery, and that is what the goroutine takes as
    [start]. *)
Definition first_stamp (w : worker) : Prop :=
  match at_ w with
  | WStart => forall v, head (ch w) = Some v -> v = 1
  | _ => start w = Some 1
  end.

End SubProps.

(** ** More example inputs *)

Module Cases.

(** A user name without a password. *)
Definition user_only : Args.flags :=
  {| Args.urls := "nats://localhost:4222";
     Args.userCreds := EmptyString; Args.certDir := EmptyString; Args.certFile := EmptyString;
     Args.certKey := EmptyString; Args.user := "alice"; Args.pswd := EmptyString;
     Args.args := ["subject"%string] |}.

(** A list of URLs whose second one is TLS, with a directory of
    certificates and a client certificate as well. *)
Definition tls_second : Args.flags :=
  {| Args.urls := "nats://a:4222,tls://b:4222";
     Args.userCreds := EmptyString; Args.certDir := "certs";
     Args.certFile := "client.pem"; Args.certKey := "client.key";
     Args.user := EmptyString; Args.pswd := EmptyString;
     Args.args := ["subject"%string] |}.

(** The same list of URLs with no certificate at all. *)
Definition tls_second_bare : Args.flags :=
  {| Args.urls := "nats://a:4222,tls://b:4222";
     Args.userCreds := EmptyString; Args.certDir := EmptyString; Args.certFile := EmptyString;
     Args.certKey := EmptyString; Args.user := EmptyString; Args.pswd := EmptyString;
     Args.args := ["subject"%string] |}.

Definition pem_files (dir : string) : list string :=
  [(dir ++ "/ca.pem")%string].

(** A publisher of one message with [-ms 0]. *)
Definition empty_message (sync : bool) : Pub.params :=
  {| Pub.numMsgs := 1; Pub.msgSize := 0; Pub.sync := sync;
     Pub.maxPubAcksInflight := 512 |}.

(** The steps of a synchronous and of an asynchronous publisher of one
    message, up to its sample and up to the last acknowledgment. *)
Definition sync_steps : list Pub.label :=
  [Pub.NatsConnect true; Pub.StanConnect true; Pub.StartDone;
   Pub.Prepare; Pub.Call true; Pub.LoopExit; Pub.AddSample].

Definition async_steps : list Pub.label :=
  [Pub.NatsConnect true; Pub.StanConnect true; Pub.StartDone;
   Pub.Prepare; Pub.Call true; Pub.LoopExit; Pub.Ack true].

(** The first member of two has received the one message of the run and
    its callback is about to send the start stamp. *)
Definition first_delivery : list Sub.label := [Sub.Publish; Sub.Deliver 0].

Definition first_delivery_end : Sub.state :=
  Eval vm_compute in Examples.run Examples.two_members first_delivery.

End Cases.

(** ** The subject as a run finds it *)

Module Env.

Import Sub.

(** The first state of a run on a subject that [arriving] messages
    reach in all: those it has retained from before the run, which the
    subscription of line 251 has replayed unless [-io] is given, and
    those published while the run lasts, by the publishers of this
    process or by others.  [Sub.init] is the case of a subject that
    holds nothing before the run, with exactly [numMsgs] messages
    published. *)
Definition initial (c : config) (arriving : nat) : state :=
  {| qTotalRecv := 0;
     qSubsLeft := if isQueue c then Go.int32 (numSubs c) else 0;
     unpublished := arriving;
     backlog := [];
     workers := replicate (Z.to_nat (numSubs c)) worker0;
     trace := [] |}.

(** The states of such runs. *)
Inductive arrives (c : config) (m : nat) : state -> Prop :=
| arr_initial : arrives c m (initial c m)
| arr_step l s s' :
    arrives c m s -> step c l s = Some s' -> arrives c m s'.

(** The counters can hold the deliveries of the run: [qTotalRecv] has
    32 bits and counts every message and every sentinel; [received] has
    64. *)
Definition fits (c : config) (m : nat) : Prop :=
  if isQueue c
  then 0 <= numSubs c /\ Z.of_nat m + numSubs c <= Go.max_int32
  else Z.of_nat m <= Go.max_int.

End Env.

(** ** Invariants of runs on any subject *)

Module General.

Import Sub SubInv SubProps Env.

(** Where the goroutine of a queue member stands, what it read from
    [qSubsLeft], and whether its subscription is open. *)
Definition member_pc (w : worker) : Prop :=
  inbox w = [] /\
  match at_ w with
  | WStart | WEnd | WSample | WLeave => subscribed w = true /\ sr w = None
  | WSubClose => subscribed w = true /\ exists v, sr w = Some v /\ 0 < v
  | WPublish => subscribed w = false /\ exists v, sr w = Some v /\ 0 < v
  | WClose => exists v, sr w = Some v /\ (subscribed w = true -> v <= 0)
  | WDone | WFinished => subscribed w = false /\ exists v, sr w = Some v
  end.

(** The counters of a queue group on a subject that [m] messages
    reach. *)
Record group_inv (c : config) (m : nat) (s : state) : Prop := {
  g_length : length (workers s) = Z.to_nat (numSubs c);
  g_left : qSubsLeft s = total staying (workers s);
  g_last : one_last c s;
  g_nonneg : 0 <= qTotalRecv s;
  g_counted : counted s;
  g_payloads : handed Payload (trace s) + pending Payload (backlog s)
               + Z.of_nat (unpublished s) = Z.of_nat m;
  g_sentinels : handed Sentinel (trace s) + pending Sentinel (backlog s)
                + lost (trace s) = sentinels (trace s);
  g_sent : sentinels (trace s) = total sent_sentinel (workers s);
  g_members : Forall member_pc (workers s)
}.

(** [1; n; n + 1; ...], [k] values: what [mcb] sends without a queue
    group, for target [n]. *)
Definition stamps (n : Z) (k : nat) : list Z :=
  match k with
  | O => []
  | S j => 1 :: map (fun t => n + Z.of_nat t) (seq 0 j)
  end.

(** How many values [mcb] has sent, for target [n]: the start from the
    first delivery, and a completion from every delivery from the
    [n]-th on. *)
Definition nsent (n : Z) (w : worker) : nat :=
  match cb w with
  | CbFirst => 0
  | CbCheck | CbLast => 1 + Z.to_nat (received w - n)
  | CbIdle =>
      if received w =? 0 then 0 else 1 + Z.to_nat (received w - n + 1)
  end.

(** What holds of a subscriber without a queue group, for target [n],
    [m] messages in all and [u] of them still to come. *)
Definition plain_gen (n : Z) (m u : nat) (w : worker) : Prop :=
  0 <= received w /\
  received w + Z.of_nat (length (inbox w)) + Z.of_nat u <= Z.of_nat m /\
  (subscribed w = true ->
   received w + Z.of_nat (length (inbox w)) + Z.of_nat u = Z.of_nat m) /\
  sent w = stamps n (nsent n w) /\
  match cb w with
  | CbIdle => True
  | CbFirst => received w = 1
  | CbCheck => 1 <= received w
  | CbLast => n <= received w
  end /\
  match at_ w with
  | WStart => start w = None /\ end_ w = None /\ subscribed w = true
  | WEnd =>
      (exists a, start w = Some a) /\ end_ w = None /\ subscribed w = true
  | WSample | WLeave | WClose =>
      (exists a, start w = Some a) /\ (exists b, end_ w = Some b) /\
      subscribed w = true
  | WDone | WFinished =>
      (exists a, start w = Some a) /\ (exists b, end_ w = Some b) /\
      subscribed w = false
  | WSubClose | WPublish => False
  end.







End General.

(** ** Example runs on a subject that more messages reach than the run
    counts on *)

Module Surplus.

Import Sub.

Definition run (c : config) (m : nat) (ls : list label) : state :=
  default (Env.initial c m) (exec c ls (Env.initial c m)).

(** The plain subscriber of a run of two messages, on a subject that
    three messages reach: the third is delivered after the goroutine has
    taken its completion signal (line 259) and before it builds its
    sample (line 260). *)
Definition late_delivery : list label :=
  [Publish; Publish; Publish; Deliver 0; FirstSend 0; Compare 0;
   Deliver 0; Compare 0; LastSend 0; RecvStart 0; RecvEnd 0;
   Deliver 0; Compare 0; LastSend 0;
   AddSample 0; Leave 0; ConnClose 0; Done 0].

Definition late_delivery_end : state :=
  Eval vm_compute in run Examples.one_plain 3 late_delivery.

(** The queue group of two members of a run of one message, on a
    subject that three messages reach: each member is handed one. *)
Definition crowded : list label :=
  [Publish; Publish; Publish; Deliver 0; FirstSend 0; Compare 0;
   LastSend 0; Deliver 1; FirstSend 1; Compare 1; LastSend 1].

Definition crowded_end : state :=
  Eval vm_compute in run Examples.two_members 3 crowded.

End Surplus.

(* ===================================================================== *)
(** * Part III: properties                                                 *)
(* ===================================================================== *)

(** ** Go integers *)

Lemma int32_small (z : Z) :
  - 2 ^ 31 <= z <= Go.max_int32 -> Go.int32 z = z.
Proof.
  unfold Go.int32, Go.wrap, Go.max_int32. intros H.
  rewrite Z.mod_small; lia.
Qed.

Lemma int_small (z : Z) : - 2 ^ 63 <= z <= Go.max_int -> Go.int z = z.
Proof.
  unfold Go.int, Go.wrap, Go.max_int. intros H.
  rewrite Z.mod_small; lia.
Qed.

Lemma nonempty_spec (s : string) : Go.nonempty s = false <-> s = EmptyString.
Proof. destruct s; simpl; split; congruence. Qed.

(** ** Message shares *)

Section Shares.

Variables mc extra : Z.

Lemma sum_shares (n : nat) :
  0 <= extra ->
  sumZ (map (Bench.share mc extra) (seq 0 n))
  = Z.of_nat n * mc + Z.min (Z.of_nat n) extra.
Proof.
  intros Hex. induction n as [|n IH].
  - simpl. lia.
  - rewrite seq_S, map_app. unfold sumZ in *.
    rewrite fold_right_app. simpl.
    assert (Hshift : forall l a,
               fold_right Z.add a l = fold_right Z.add 0 l + a).
    { clear. induction l as [|x l IHl]; intros a; simpl; [lia|].
      rewrite IHl. lia. }
    rewrite Hshift, IH. unfold Bench.share.
    destruct (Z.ltb_spec (Z.of_nat n) extra); lia.
Qed.

Lemma shares_bounds (l : list Z) (d : Z) :
  Forall (fun x => mc <= x <= mc + 1) l -> mc <= d <= mc + 1 ->
  mc <= fold_right Z.min d l /\ fold_right Z.max d l <= mc + 1.
Proof.
  intros Hl Hd. induction Hl as [|x l Hx Hl IH]; simpl; lia.
Qed.

Lemma shares_range (n : nat) :
  Forall (fun x => mc <= x <= mc + 1)
         (map (Bench.share mc extra) (seq 0 n)).
Proof.
  apply List.Forall_forall. intros x Hx. apply in_map_iff in Hx.
  destruct Hx as (i & <- & _). unfold Bench.share.
  destruct (Z.of_nat i <? extra); lia.
Qed.

Lemma shares_lookup (n i : nat) (x : Z) :
  map (Bench.share mc extra) (seq 0 n) !! i = Some x ->
  x = Bench.share mc extra i.
Proof.
  rewrite list_lookup_fmap. intros H.
  destruct (seq 0 n !! i) as [j|] eqn:Hj; simpl in H; [|discriminate].
  apply lookup_seq in Hj. destruct Hj as [-> _]. simpl in H. congruence.
Qed.

End Shares.

(** C1. For a non-negative total and a positive publisher count, the
    shares are as many as the publishers, add up to the total, differ by at
    most one between the largest and the smallest, and are the quotient plus
    one for exactly the first [total mod pc] publishers; the shares of 1000
    messages among 3 publishers are 334, 333, 333.  The shares are a
    function of the two numbers, so equal inputs give equal shares. *)
Theorem MsgsPerClient_even_split (total pc : Z) :
  0 <= total -> 0 < pc ->
  let shares := Bench.MsgsPerClient total pc in
  Z.of_nat (length shares) = pc /\
  sumZ shares = total /\
  maxZ shares - minZ shares <= 1 /\
  (forall (i : nat) (x : Z), shares !! i = Some x ->
     x = total / pc + (if Z.of_nat i <? total mod pc then 1 else 0)) /\
  Bench.MsgsPerClient 1000 3 = [334; 333; 333].
Proof.
  intros Htot Hpc shares. subst shares. unfold Bench.MsgsPerClient.
  rewrite Z.quot_div_nonneg, Z.rem_mod_nonneg by lia.
  pose proof (Z.mod_pos_bound total pc Hpc) as Hmod.
  pose proof (Z.div_mod total pc ltac:(lia)) as Hdiv.
  repeat split.
  - rewrite length_map, length_seq. lia.
  - rewrite sum_shares by lia. rewrite Z2Nat.id by lia. lia.
  - pose proof (shares_range (total / pc) (total mod pc) (Z.to_nat pc)) as Hr.
    unfold maxZ, minZ.
    destruct (shares_bounds (total / pc) _
                (hd 0 (map (Bench.share (total / pc) (total mod pc))
                         (seq 0 (Z.to_nat pc)))) Hr) as [Hlo Hhi]; [|lia].
    destruct (Z.to_nat pc) as [|n] eqn:En; [lia|]. cbn [seq map hd].
    unfold Bench.share. destruct (_ <? _); lia.
  - intros i x Hx. apply shares_lookup in Hx. subst x.
    unfold Bench.share. destruct (Z.of_nat i <? total mod pc); lia.
Qed.

(** ** Flag validation *)

Section Validation.

Import Args.

Variable glob : string -> list string.

Lemma tls_branch (f : flags) (opts : list option_) :
  (if Go.nonempty (certDir f)
   then Proceed (opts ++ [RootCAs (glob (certDir f))])
   else if Go.nonempty (certFile f) && Go.nonempty (certKey f)
        then Proceed (opts ++ [ClientCert (certFile f) (certKey f)])
        else Usage) = Usage <->
  certDir f = EmptyString /\ (certFile f = EmptyString \/ certKey f = EmptyString).
Proof.
  rewrite <- !nonempty_spec.
  destruct (Go.nonempty (certDir f)), (Go.nonempty (certFile f)),
    (Go.nonempty (certKey f)); simpl; intuition congruence.
Qed.

(** C9, amended. [main] prints the usage and exits exactly when the
    number of positional arguments is not one, or the URLs contain a TLS
    URL and neither a certificate directory nor a certificate file
    together with its key was given.  A credentials file plays no part
    in the test. *)
Theorem usage_iff (f : flags) :
  setup glob f = Usage <->
  length (args f) <> 1%nat \/
  (Go.Contains (urls f) "tls://" = true /\
   certDir f = EmptyString /\
   (certFile f = EmptyString \/ certKey f = EmptyString)).
Proof.
  unfold setup.
  destruct (Nat.eqb_spec (length (args f)) 1) as [Hlen|Hlen]; simpl.
  - destruct (Go.Contains (urls f) "tls://") eqn:Htls.
    + rewrite tls_branch. intuition congruence.
    + split; [discriminate|]. intros [?|[? _]]; congruence.
  - intuition.
Qed.

End Validation.

(** ** The publisher *)

Section Publisher.

Import Pub PubInv.

Variable p : params.

(** Case analysis on one step. *)
Ltac pub_step H :=
  unfold step in H;
  repeat (case_match; try discriminate);
  simplify_eq; simpl in *.

Lemma payload_length (S : Z) :
  0 < S -> Payload.msg S = Payload.literal /\
           length (Payload.msg S) = 1912%nat.
Proof.
  intros HS. unfold Payload.msg.
  destruct (Z.gtb_spec S 0); [|lia]. split; reflexivity.
Qed.

Lemma payload_inv_reachable (s : state) :
  reachable p s -> payload_inv p s.
Proof.
  induction 1 as [|l s s' Hr [IHp IHm] Hstep].
  - split; [constructor|]. discriminate.
  - unfold payload_inv.
    pub_step Hstep; (split; [|try discriminate; try (intros; eauto)]);
      try assumption; try (constructor; eauto).
Qed.

(** C8, amended. When the configured size is positive, every message a
    publisher publishes, in either mode, is the 1912-byte slice written
    out in the source, whatever the configured size. *)
Theorem published_payload_fixed (s : state) (m : list Z) :
  0 < msgSize p -> reachable p s -> In m (payloads (events s)) ->
  m = Payload.literal /\ length m = 1912%nat.
Proof.
  intros HS Hr Hin. destruct (payload_inv_reachable s Hr) as [Hall _].
  rewrite List.Forall_forall in Hall. rewrite (Hall m Hin).
  apply payload_length, HS.
Qed.

Lemma idle_inv_reachable (s : state) :
  sync p = false -> numMsgs p <= 0 -> reachable p s -> idle_inv s.
Proof.
  intros Hasync Hzero. induction 1 as [|l s s' Hr IH Hstep].
  - repeat split.
  - destruct IH as (Hu & Ha & Hs & Hpc). unfold idle_inv.
    pub_step Hstep; rewrite ?Hu, ?Ha in *; simpl in *;
      try discriminate; try contradiction; try lia; auto.
    simplify_eq. auto.
Qed.

Lemma exec_reachable (ls : list label) (s s' : state) :
  reachable p s -> exec p ls s = Some s' -> reachable p s'.
Proof.
  revert s. induction ls as [|l ls IH]; simpl; intros s Hr He.
  - congruence.
  - destruct (step p l s) as [s1|] eqn:Hs; [|discriminate].
    eapply IH; [|eassumption]. eapply reach_step; eassumption.
Qed.

Lemma fatal_stuck (s : state) : at_ s = PFatal -> stuck p s.
Proof.
  intros Hf l. unfold step, running. rewrite Hf. destruct l; reflexivity.
Qed.

(** An error from [Publish], from [PublishAsync] or handed to [acb]
    ends the process at once: no step follows and no sample is added. *)
Lemma publish_error_fatal (s s' : state) :
  step p (Call false) s = Some s' \/ step p (Ack false) s = Some s' ->
  at_ s' = PFatal /\ stuck p s' /\
  samples (events s') = samples (events s).
Proof.
  intros [H|H]; pub_step H; auto using fatal_stuck.
Qed.

(** C6, at a share of zero. An asynchronous publisher with nothing to
    publish never hands in its sample and never completes: all its
    acknowledgments (none) have arrived, yet once it waits at [<-ch]
    no step is possible any more. *)
Theorem async_empty_share_never_completes (s : state) :
  sync p = false -> numMsgs p <= 0 -> reachable p s ->
  ~ completed s /\ samples (events s) = [] /\
  (at_ s = PWait -> stuck p s).
Proof.
  intros Hasync Hzero Hr.
  destruct (idle_inv_reachable s Hasync Hzero Hr) as (Hu & Ha & Hs & Hpc).
  repeat split; [|assumption|].
  - unfold completed. intros Hc. rewrite Hc in Hpc. exact Hpc.
  - intros Hw l. unfold step, running. rewrite Hw, Hu, Ha.
    destruct l; reflexivity.
Qed.

End Publisher.

(** ** The asynchronous publisher with a share of at least one message *)

Section AsyncPublisher.

Import Pub PubInv.

Variable p : params.
Hypothesis Hasync : sync p = false.
Hypothesis Hshare : 1 <= numMsgs p.
Hypothesis Hfit : numMsgs p <= Go.max_int.

(** Boolean tests among the hypotheses, as propositions. *)
Ltac tests :=
  repeat match goal with
    | H : _ && _ = true |- _ => apply andb_true_iff in H as [? ?]
    | H : negb _ = true |- _ => apply negb_true_iff in H
    | H : (_ <? _) = true |- _ => apply Z.ltb_lt in H
    | H : (_ <? _) = false |- _ => apply Z.ltb_ge in H
    | H : (_ <=? _) = true |- _ => apply Z.leb_le in H
    | H : (_ <=? _) = false |- _ => apply Z.leb_gt in H
    | H : true = (_ <=? _) |- _ => symmetry in H
    | H : false = (_ <=? _) |- _ => symmetry in H
    end.

Lemma async_inv_reachable (s : state) : reachable p s -> async_inv p s.
Proof.
  induction 1 as [|l s s' Hr IH Hstep].
  - unfold async_inv. simpl. repeat split; lia.
  - unfold async_inv in *. destruct IH as (Hp & Hu & IH).
    unfold step, running in Hstep. rewrite ?Hasync in Hstep.
    destruct l; destruct (at_ s) eqn:Eat; try discriminate;
      repeat (case_match; try discriminate); simplify_eq.
    all: cbn [at_ published unacked acb_sending events start msg now
              goto fatal set_msg set_counters notified samples app] in *;
      simplify_eq; destruct_and?.
    all: try match goal with
           | E : acb_sending _ = (_ <=? _) |- _ => rewrite E in *; clear E
           end.
    all: tests; try lia.
    all: rewrite ?int_small by (unfold Go.max_int in *; lia).
    all: try (exfalso; lia).
    all: repeat match goal with
           | |- context [?a <=? ?b] => destruct (Z.leb_spec a b)
           end.
    all: try (exfalso; lia).
    all: try match goal with
           | H1 : at_ ?s0 = _, H2 : at_ ?s0 = _ |- _ =>
               rewrite H1 in H2; simplify_eq
           end.
    all: try match goal with
           | H : samples _ = [] |- _ => rewrite H
           end.
    all: repeat split; solve [lia|assumption|reflexivity|eauto].
Qed.

(** X18. For an asynchronous publisher with a share of at least one
    message: the goroutine is past [<-ch] exactly when it has taken the one
    notification, and [acb] offers it exactly when the acknowledgment
    counter has reached the share. *)
Lemma async_notified_at_share (s : state) :
  reachable p s -> running s = true ->
  (acb_sending s = true -> published s = numMsgs p /\ at_ s <> PFinished) /\
  (notified (events s) <= 1)%nat /\
  (past_wait s = true <-> notified (events s) = 1%nat) /\
  (past_wait s = true -> published s = numMsgs p) /\
  (samples (events s) <> [] -> past_wait s = true).
Proof.
  intros Hr Hrun. pose proof (async_inv_reachable s Hr) as (Hp & Hu & Hinv).
  unfold running, past_wait in *.
  destruct (at_ s); try discriminate; destruct_and?;
    repeat match goal with H : acb_sending _ = _ |- _ => rewrite H end;
    repeat match goal with H : notified _ = _ |- _ => rewrite H end;
    repeat match goal with H : samples _ = [] |- _ => rewrite H end.
  all: repeat split; try discriminate; try congruence; try lia; auto.
  all: intros Hs; apply Z.leb_le in Hs; lia.
Qed.

(** X19. For an asynchronous publisher with a share of at least one
    message: once the last acknowledgment has come, the steps of [wind_up]
    take the goroutine to its end, with one sample for the whole share. *)
Lemma async_completes_after_acks (s : state) :
  reachable p s -> running s = true -> published s = numMsgs p ->
  exists s', exec p (wind_up s) s = Some s' /\ completed s' /\
             exists t, samples (events s')
                       = [Bench.NewSample (numMsgs p) (msgSize p)
                            (start s) t].
Proof.
  intros Hr Hrun Hpub.
  pose proof (async_inv_reachable s Hr) as (Hp & Hu & Hinv).
  unfold running, wind_up, completed in *.
  destruct (at_ s) eqn:Eat; try discriminate; destruct_and?; try lia.
  all: try match goal with
         | H : acb_sending _ = (_ <=? _) |- _ =>
             rewrite Hpub, Z.leb_refl in H
         end.
  all: try match goal with
         | H : published _ + unacked _ = ?i |- _ =>
             assert (i = numMsgs p) by lia; subst
         end.
  all: simpl; unfold step; simpl; rewrite ?Eat, ?Hasync, ?Z.ltb_irrefl; simpl.
  all: repeat match goal with
         | H : acb_sending _ = _ |- _ => rewrite H
         | H : samples (events _) = _ |- _ => rewrite H
         end; simpl.
  all: try match goal with
         | |- context [?a <? ?b] => destruct (Z.ltb_spec a b); [lia|]
         end.
  all: simpl;
    repeat match goal with
      | H : acb_sending _ = _ |- _ => rewrite H
      end; simpl.
  all: try (eexists; split; [reflexivity|]; split; [reflexivity|]; simpl;
            repeat match goal with
              | H : samples (events _) = _ |- _ => rewrite H
              end; eauto).
  eexists. split; [reflexivity|]. split; assumption.
Qed.

End AsyncPublisher.

(** ** The subscribers: sums over the workers *)

Section Totals.

Import Sub SubInv.

Variable f : worker -> Z.

Lemma total_insert (ws : list worker) (i : nat) (w w' : worker) :
  ws !! i = Some w -> total f (<[i:=w']> ws) = total f ws - f w + f w'.
Proof.
  revert i. induction ws as [|x ws IH]; intros [|i] H; simpl in *;
    try discriminate.
  - injection H as ->. lia.
  - rewrite (IH i H). lia.
Qed.

Lemma total_replicate (n : nat) (w : worker) :
  total f (replicate n w) = Z.of_nat n * f w.
Proof. induction n as [|n IH]; simpl; [lia|]. rewrite IH. lia. Qed.

Lemma total_nonneg (ws : list worker) :
  Forall (fun w => 0 <= f w) ws -> 0 <= total f ws.
Proof. induction 1; simpl; lia. Qed.

Lemma total_member (ws : list worker) (i : nat) (w : worker) :
  Forall (fun w => 0 <= f w) ws -> ws !! i = Some w -> f w <= total f ws.
Proof.
  intros Hall. revert i. induction Hall as [|x ws Hx Hall IH];
    intros [|i] H; simpl in *; try discriminate.
  - injection H as ->. pose proof (total_nonneg ws Hall). lia.
  - specialize (IH i H). lia.
Qed.

Lemma total_zero (ws : list worker) (i : nat) (w : worker) :
  Forall (fun w => 0 <= f w) ws -> total f ws = 0 ->
  ws !! i = Some w -> f w = 0.
Proof.
  intros Hall Hz Hw. pose proof (total_member ws i w Hall Hw).
  pose proof (Forall_lookup_1 _ _ _ _ Hall Hw) as Hf. simpl in Hf. lia.
Qed.

Lemma total_length (ws : list worker) :
  Forall (fun w => f w <= 1) ws -> total f ws <= Z.of_nat (length ws).
Proof. induction 1; simpl; lia. Qed.

Lemma total_positive (ws : list worker) :
  Forall (fun w => 0 <= f w) ws -> 1 <= total f ws ->
  exists i w, ws !! i = Some w /\ 1 <= f w.
Proof.
  induction 1 as [|x ws Hx Hall IH]; simpl; intros Hpos; [lia|].
  destruct (Z_lt_le_dec (f x) 1) as [Hlt|Hge].
  - destruct IH as (i & w & Hw & Hf); [lia|]. exists (S i), w. auto.
  - exists 0%nat, x. auto.
Qed.

End Totals.

Lemma total_ext (f g : Sub.worker -> Z) (ws : list Sub.worker) :
  Forall (fun w => f w = g w) ws -> SubInv.total f ws = SubInv.total g ws.
Proof. induction 1; simpl; congruence. Qed.

Lemma total_add (f g : Sub.worker -> Z) (ws : list Sub.worker) :
  SubInv.total (fun w => f w + g w) ws = SubInv.total f ws + SubInv.total g ws.
Proof. induction ws as [|x ws IH]; simpl; lia. Qed.

Lemma lookup_map {A B : Type} (f : A -> B) (l : list A) (i : nat) :
  map f l !! i = option_map f (l !! i).
Proof.
  revert i. induction l as [|x l IH]; intros [|i]; simpl; auto.
Qed.

(** ** The termination handshake *)

(** Case analysis on one step of the subscribers. *)
Ltac sub_step H :=
  unfold Sub.step in H;
  repeat (case_match; try discriminate);
  simplify_eq.

(** The worker at one index after a single worker was replaced. *)
Ltac put_lookup H i j :=
  destruct (decide (j = i)) as [->|];
  [ rewrite list_lookup_insert_eq in H by (eapply lookup_lt_Some; eassumption)
  | rewrite list_lookup_insert_ne in H by assumption ].

Section Handshake.

Import Sub SubInv.

Variable c : config.
Hypothesis Hq : isQueue c = true.

Lemma handshake_at_ext (i : nat) (w w' : worker) (h : list event) :
  at_ w' = at_ w -> sr w' = sr w ->
  handshake_at i w h -> handshake_at i w' h.
Proof. unfold handshake_at. intros -> ->. auto. Qed.

Lemma handshake_init : handshake_inv (init c).
Proof.
  intros i w Hw. simpl in Hw. apply lookup_replicate in Hw as [-> _].
  split; reflexivity.
Qed.


End Handshake.

(** ** Queue-group runs: the invariant *)

Section QueueInvariant.

Import Sub SubInv.

Variable c : config.
Hypothesis Hrun : queue_run c.

Lemma holding_range (w : worker) : 0 <= holding w <= 1.
Proof. unfold holding. repeat case_match; lia. Qed.

Lemma counting_range (w : worker) : 0 <= counting w <= 1.
Proof. unfold counting. case_match; lia. Qed.

Lemma staying_range (w : worker) : 0 <= staying w <= 1.
Proof. unfold staying. case_match; lia. Qed.

Lemma sent_sentinel_range (w : worker) : 0 <= sent_sentinel w <= 1.
Proof. unfold sent_sentinel. repeat case_match; lia. Qed.

Lemma left_last_range (w : worker) : 0 <= left_last w <= 1.
Proof. unfold left_last. repeat case_match; lia. Qed.

Lemma lost_nonneg (tr : list event) : 0 <= lost tr.
Proof. induction tr as [|[] tr IH]; simpl; try lia. case_match; lia. Qed.

Lemma total_range (f : worker -> Z) (ws : list worker) :
  (forall w, 0 <= f w <= 1) ->
  0 <= total f ws <= Z.of_nat (length ws).
Proof.
  intros Hf. split.
  - apply total_nonneg, Forall_forall. intros w _. apply Hf.
  - apply total_length, Forall_forall. intros w _. apply Hf.
Qed.

Lemma total_part (f : worker -> Z) (ws : list worker) (i : nat) (w : worker) :
  (forall w, 0 <= f w <= 1) -> ws !! i = Some w -> f w <= total f ws.
Proof.
  intros Hf. apply total_member, Forall_forall. intros x _. apply Hf.
Qed.

Lemma total_none (f : worker -> Z) (ws : list worker) (i : nat) (w : worker) :
  (forall w, 0 <= f w <= 1) -> total f ws = 0 -> ws !! i = Some w ->
  f w = 0.
Proof.
  intros Hf. apply total_zero, Forall_forall. intros x _. apply Hf.
Qed.

Lemma countdown_succ (z : Z) :
  0 <= z -> countdown (Z.to_nat (z + 1)) = (z + 1) :: countdown (Z.to_nat z).
Proof.
  intros Hz. rewrite Z2Nat.inj_add by lia.
  rewrite Nat.add_1_r. cbn [countdown]. f_equal. lia.
Qed.

Lemma queue_inv_init : queue_inv c (init c).
Proof.
  destruct Hrun as [Hq Hn Hk Hfit]. unfold Go.max_int32 in Hfit.
  assert (Hkk : Go.int32 (numSubs c) = numSubs c)
    by (apply int32_small; unfold Go.max_int32; lia).
  assert (Hnn : Z.of_nat (Z.to_nat (numMsgs c)) = numMsgs c) by lia.
  assert (Hkn : Z.of_nat (Z.to_nat (numSubs c)) = numSubs c) by lia.
  split; unfold inflight; simpl;
    rewrite ?Hq, ?Hkk, ?total_replicate, ?length_replicate, ?Hnn, ?Hkn;
    cbn; try lia; try reflexivity.
  - intros _. split; [apply Forall_replicate; reflexivity|].
    unfold holding, counting, sends. simpl. lia.
  - apply Forall_replicate. unfold member_ok, sends. simpl.
    repeat split; auto; lia.
Qed.

End QueueInvariant.

(** Turn boolean comparisons in the hypotheses into propositions. *)
Ltac zbool :=
  repeat match goal with
    | H : (_ <? _) = true |- _ => apply Z.ltb_lt in H
    | H : (_ <? _) = false |- _ => apply Z.ltb_ge in H
    | H : (_ <=? _) = true |- _ => apply Z.leb_le in H
    | H : (_ <=? _) = false |- _ => apply Z.leb_gt in H
    | H : (_ =? _) = true |- _ => apply Z.eqb_eq in H
    | H : (_ =? _) = false |- _ => apply Z.eqb_neq in H
    | H : (_ <? _)%nat = true |- _ => apply Nat.ltb_lt in H
    | H : (_ <? _)%nat = false |- _ => apply Nat.ltb_ge in H
    end.

Ltac destruct_exists :=
  repeat match goal with
    | H : exists _, _ |- _ => destruct H
    | H : _ /\ _ |- _ => destruct H
    end.

Section QueueSteps.

Import Sub SubInv.

Variable c : config.
Hypothesis Hrun : queue_run c.

(** The facts of the invariant about one worker. *)
Lemma member_at (s : state) (i : nat) (w : worker) :
  queue_inv c s -> workers s !! i = Some w -> member_ok (qSubsLeft s) w.
Proof. intros Hinv Hw. exact (Forall_lookup_1 _ _ _ _ (q_members _ _ Hinv) Hw). Qed.

Lemma member_ok_mono (q q' : Z) (w : worker) :
  q' <= q -> member_ok q w -> member_ok q' w.
Proof.
  unfold member_ok. intros Hq (H1 & H2 & H3 & H4 & H5).
  repeat split; try assumption.
  destruct (at_ w); destruct_exists; eauto 10 with lia.
Qed.

(** While a message is on its way no worker holds the completion signal,
    and after the target nobody has left as the last member. *)
Lemma inflight_no_token (s : state) :
  queue_inv c s -> 1 <= inflight s ->
  total holding (workers s) = 0 /\ lost (trace s) = 0 /\
  (numMsgs c <= qTotalRecv s -> 0 < qSubsLeft s).
Proof.
  intros Hinv Hin.
  pose proof (total_range holding (workers s) holding_range) as Hh.
  pose proof (lost_nonneg (trace s)) as Hl.
  destruct (Z_lt_le_dec (qTotalRecv s) (numMsgs c)) as [Hlt|Hge].
  - destruct (q_before _ _ Hinv Hlt) as (_ & Hz & Hlost & _).
    repeat split; lia.
  - pose proof (q_token _ _ Hinv Hge) as Ht.
    destruct (Z.ltb_spec 0 (qSubsLeft s)); lia.
Qed.

Lemma queue_inv_publish (s s' : state) :
  queue_inv c s -> step c Publish s = Some s' -> queue_inv c s'.
Proof.
  intros Hinv Hstep. destruct Hrun as [Hq Hn Hk Hfit].
  unfold step, route in Hstep. rewrite Hq in Hstep.
  repeat (case_match; try discriminate); simplify_eq.
  destruct Hinv.
  assert (Hin : inflight
            (set_backlog (backlog (set_unpublished n s) ++ [Payload])
               (set_unpublished n s)) = inflight s).
  { unfold inflight. simpl. rewrite length_app. simpl.
    match goal with H : unpublished s = _ |- _ => rewrite H end. lia. }
  split; rewrite ?Hin; simpl; auto.
Qed.

Lemma received_bound (s : state) (i : nat) (w : worker) :
  queue_inv c s -> workers s !! i = Some w ->
  received w <= qTotalRecv s + total counting (workers s).
Proof.
  intros Hinv Hw. rewrite <- (q_received _ _ Hinv).
  apply (total_member received _ i w); [|exact Hw].
  eapply Forall_impl; [exact (q_members _ _ Hinv)|].
  intros x Hx. apply Hx.
Qed.

(** Everything the invariant says around worker [i], as hypotheses. *)
Ltac around Hinv Hw s :=
  pose proof (member_at _ _ _ Hinv Hw);
  pose proof (total_part holding _ _ _ holding_range Hw);
  pose proof (total_part counting _ _ _ counting_range Hw);
  pose proof (total_part staying _ _ _ staying_range Hw);
  pose proof (received_bound _ _ _ Hinv Hw);
  pose proof (total_range holding (workers s) holding_range);
  pose proof (total_range counting (workers s) counting_range);
  pose proof (total_range sent_sentinel (workers s) sent_sentinel_range);
  pose proof (total_range staying (workers s) staying_range);
  pose proof (total_range left_last (workers s) left_last_range);
  pose proof (lost_nonneg (trace s)).

Lemma holding_eq (w : worker) :
  holding w =
  match cb w with
  | CbLast => 1
  | _ => if sends w =? 2
         then match at_ w with WClose | WDone | WFinished => 0 | _ => 1 end
         else 0
  end.
Proof. reflexivity. Qed.

Lemma counting_eq (w : worker) :
  counting w = match cb w with CbFirst | CbCheck => 1 | _ => 0 end.
Proof. reflexivity. Qed.

Lemma staying_eq (w : worker) :
  staying w =
  match at_ w with WStart | WEnd | WSample | WLeave => 1 | _ => 0 end.
Proof. reflexivity. Qed.

Lemma sent_sentinel_eq (w : worker) :
  sent_sentinel w =
  match at_ w, sr w with
  | (WClose | WDone | WFinished), Some v => if 0 <? v then 1 else 0
  | _, _ => 0
  end.
Proof. reflexivity. Qed.

Lemma left_last_eq (w : worker) :
  left_last w =
  match sr w with Some v => if 0 <? v then 0 else 1 | None => 0 end.
Proof. reflexivity. Qed.

Lemma sends_eq (w : worker) :
  sends w = Z.of_nat (length (ch w)) + consumed (at_ w).
Proof. reflexivity. Qed.

Lemma waiting_eq (w : worker) :
  waiting w = match at_ w with WStart | WEnd => true | _ => false end.
Proof. reflexivity. Qed.

Lemma before_target_waiting (s : state) (i : nat) (w : worker) :
  queue_inv c s -> workers s !! i = Some w ->
  qTotalRecv s < numMsgs c -> consumed (at_ w) <= 1.
Proof.
  intros Hinv Hw Hlt. destruct (q_before _ _ Hinv Hlt) as (Hall & _).
  pose proof (Forall_lookup_1 _ _ _ _ Hall Hw) as Hwait. simpl in Hwait.
  unfold waiting in Hwait. destruct (at_ w); simpl; try discriminate; lia.
Qed.

Ltac prelude Hinv Hw s :=
  around Hinv Hw s;
  pose proof (before_target_waiting s _ _ Hinv Hw) as Hphase;
  pose proof (inflight_no_token s Hinv) as Hnotoken;
  let Hlen := fresh "Hlen" in
  pose proof (q_length _ _ Hinv) as Hlen;
  assert (Z.of_nat (length (workers s)) = numSubs c) by lia;
  destruct Hinv as
    [_ Hleft Hrecv Hnn Hbound Hlast Hbefore Htoken Hmem Hcounts Hsent];
  unfold Go.max_int32 in *;
  unfold inflight in *.

(** Spell out the quantities of the workers named in the goal and the
    hypotheses. *)
Ltac shapes :=
  rewrite ?holding_eq, ?counting_eq, ?staying_eq, ?sent_sentinel_eq,
    ?left_last_eq, ?waiting_eq, ?sends_eq in *;
  cbn [cb at_ ch sr received subscribed inbox start end_
       set_cb set_at set_ch set_received set_inbox unsubscribe
       set_start set_end set_sr consumed] in *;
  repeat match goal with
    | E : cb _ = _ |- _ => rewrite E in *
    | E : at_ _ = _ |- _ => rewrite E in *
    | E : sr _ = _ |- _ => rewrite E in *
    | E : subscribed _ = _ |- _ => rewrite E in *
    | E : ch _ = _ |- _ => rewrite E in *
    end;
  rewrite ?length_app in *;
  cbn [consumed length] in *.

Ltac decide_all :=
  repeat (case_match; try discriminate; try lia);
  zbool; destruct_exists; simplify_eq; try lia.

(** Arithmetic on the counters stays within its width. *)
Ltac no_overflow :=
  repeat match goal with
    | |- context [Go.int ?x] =>
        let E := fresh "Hno" in
        assert (E : Go.int x = x)
          by (apply int_small; unfold Go.max_int; lia);
        rewrite E in *; clear E
    | H : context [Go.int ?x] |- _ =>
        let E := fresh "Hno" in
        assert (E : Go.int x = x)
          by (apply int_small; unfold Go.max_int; lia);
        rewrite E in *; clear E
    | |- context [Go.int32 ?x] =>
        let E := fresh "Hno" in
        assert (E : Go.int32 x = x)
          by (apply int32_small; unfold Go.max_int32; lia);
        rewrite E in *; clear E
    | H : context [Go.int32 ?x] |- _ =>
        let E := fresh "Hno" in
        assert (E : Go.int32 x = x)
          by (apply int32_small; unfold Go.max_int32; lia);
        rewrite E in *; clear E
    end.

Ltac split_ifs :=
  repeat match goal with
    | H : context [if ?b then _ else _] |- _ => destruct b eqn:?
    end; zbool.

(** One step, up to the point where each part of the invariant is a
    goal of its own. *)
Ltac open_step Hinv Hstep :=
  destruct Hrun as [Hq Hn Hk Hfit];
  unfold step, route, invoke, send in Hstep; rewrite ?Hq in Hstep;
  repeat (case_match; try discriminate); simplify_eq;
  match goal with Hw : workers ?s !! _ = Some _ |- _ =>
    prelude Hinv Hw s end;
  try match goal with Hb : backlog _ = _ |- _ => rewrite Hb in * end;
  try match goal with Hb : ch _ = _ |- _ => rewrite Hb in * end;
  simpl length in *;
  match goal with H : member_ok _ _ |- _ => unfold member_ok in H end;
  shapes;
  match goal with
  | Hw : workers _ !! _ = Some ?w |- _ =>
      destruct (at_ w) eqn:Eat; cbn [consumed] in *;
      destruct (cb w) eqn:Ecb
  end;
  destruct_exists; zbool; try discriminate;
  split_ifs; no_overflow; try (exfalso; lia).

Ltac fields :=
  split; simpl; rewrite ?length_insert;
  unfold inflight; simpl; rewrite ?length_app;
  match goal with Hw : workers _ !! _ = Some _ |- _ =>
    rewrite ?(total_insert _ _ _ _ _ Hw) end; auto;
  try (let Hlt := fresh "Hlt" in
       let Hwa := fresh "Hwa" in
       intros Hlt;
       match goal with
       | Hb : ?a < ?b -> Forall _ _ /\ _ |- _ =>
           let Hlt' := fresh "Hlt" in
           assert (Hlt' : a < b) by lia;
           destruct (Hb Hlt') as (Hwa & ?);
           split; [apply Forall_insert; [exact Hwa|]|]
       end);
  try (rewrite countdown_succ by lia; congruence);
  try (apply Forall_insert;
       [first [assumption
              | eapply Forall_impl; [eassumption|];
                intros ? ?; eapply member_ok_mono; [|eassumption]; lia]|]);
  unfold member_ok;
  shapes; try reflexivity;
  intros; repeat split; decide_all; eauto with lia.

Lemma queue_inv_deliver (i : nat) (s s' : state) :
  queue_inv c s -> step c (Deliver i) s = Some s' -> queue_inv c s'.
Proof. intros Hinv Hstep. open_step Hinv Hstep; fields. Qed.

Lemma queue_inv_first_send (i : nat) (s s' : state) :
  queue_inv c s -> step c (FirstSend i) s = Some s' -> queue_inv c s'.
Proof. intros Hinv Hstep. open_step Hinv Hstep; fields. Qed.

Lemma queue_inv_check (i : nat) (s s' : state) :
  queue_inv c s -> step c (Compare i) s = Some s' -> queue_inv c s'.
Proof. intros Hinv Hstep. open_step Hinv Hstep; fields. Qed.

Lemma queue_inv_last_send (i : nat) (s s' : state) :
  queue_inv c s -> step c (LastSend i) s = Some s' -> queue_inv c s'.
Proof. intros Hinv Hstep. open_step Hinv Hstep; fields. Qed.

Lemma queue_inv_recv_start (i : nat) (s s' : state) :
  queue_inv c s -> step c (RecvStart i) s = Some s' -> queue_inv c s'.
Proof. intros Hinv Hstep. open_step Hinv Hstep; fields. Qed.

Lemma queue_inv_recv_end (i : nat) (s s' : state) :
  queue_inv c s -> step c (RecvEnd i) s = Some s' -> queue_inv c s'.
Proof. intros Hinv Hstep. open_step Hinv Hstep; fields. Qed.

Lemma queue_inv_add_sample (i : nat) (s s' : state) :
  queue_inv c s -> step c (AddSample i) s = Some s' -> queue_inv c s'.
Proof. intros Hinv Hstep. open_step Hinv Hstep; fields. Qed.

Lemma queue_inv_leave (i : nat) (s s' : state) :
  queue_inv c s -> step c (Leave i) s = Some s' -> queue_inv c s'.
Proof. intros Hinv Hstep. open_step Hinv Hstep; fields. Qed.

Lemma queue_inv_sub_close (i : nat) (s s' : state) :
  queue_inv c s -> step c (SubClose i) s = Some s' -> queue_inv c s'.
Proof. intros Hinv Hstep. open_step Hinv Hstep; fields. Qed.

Lemma queue_inv_publish_done (i : nat) (ok : bool) (s s' : state) :
  queue_inv c s -> step c (PublishDone i ok) s = Some s' -> queue_inv c s'.
Proof. intros Hinv Hstep. open_step Hinv Hstep; fields. Qed.

Lemma queue_inv_conn_close (i : nat) (s s' : state) :
  queue_inv c s -> step c (ConnClose i) s = Some s' -> queue_inv c s'.
Proof. intros Hinv Hstep. open_step Hinv Hstep; fields. Qed.

Lemma queue_inv_done (i : nat) (s s' : state) :
  queue_inv c s -> step c (Done i) s = Some s' -> queue_inv c s'.
Proof. intros Hinv Hstep. open_step Hinv Hstep; fields. Qed.

Lemma queue_inv_step (l : label) (s s' : state) :
  queue_inv c s -> step c l s = Some s' -> queue_inv c s'.
Proof.
  intros Hinv.
  destruct l; intros Hstep;
    [ eapply queue_inv_publish | eapply queue_inv_deliver
    | eapply queue_inv_first_send | eapply queue_inv_check
    | eapply queue_inv_last_send | eapply queue_inv_recv_start
    | eapply queue_inv_recv_end | eapply queue_inv_add_sample
    | eapply queue_inv_leave | eapply queue_inv_sub_close
    | eapply queue_inv_publish_done | eapply queue_inv_conn_close
    | eapply queue_inv_done ]; eassumption.
Qed.

Lemma queue_inv_reachable (s : state) :
  reachable c s -> queue_inv c s.
Proof.
  induction 1 as [|l s s' _ IH Hstep]; [apply queue_inv_init, Hrun|].
  exact (queue_inv_step l s s' IH Hstep).
Qed.

End QueueSteps.

(** ** Termination *)

Section Termination.

Import Sub SubInv.

Variable c : config.

Lemma weights_insert (n : nat) (ws : list worker) (i : nat)
      (w w' : worker) :
  ws !! i = Some w ->
  (weights n (<[i:=w']> ws) + worker_weight n w
   = weights n ws + worker_weight n w')%nat.
Proof.
  revert i. induction ws as [|x ws IH]; intros [|i] H; simpl in *;
    try discriminate.
  - injection H as ->. lia.
  - specialize (IH i H). lia.
Qed.

Lemma weights_enqueue (n : nat) (m : message) (ws : list worker) :
  (weights n (map (enqueue m) ws) <= weights n ws + 4 * length ws)%nat.
Proof.
  induction ws as [|x ws IH]; simpl; [lia|].
  assert (worker_weight n (enqueue m x) <= worker_weight n x + 4)%nat.
  { unfold enqueue, worker_weight. destruct (subscribed x); simpl;
      rewrite ?length_app; simpl; lia. }
  lia.
Qed.

Lemma step_length (l : label) (s s' : state) :
  step c l s = Some s' -> length (workers s') = length (workers s).
Proof.
  intros Hstep. unfold step, route, send in Hstep.
  destruct l; repeat (case_match; try discriminate); simplify_eq; simpl;
    rewrite ?length_insert, ?length_map, ?length_insert; reflexivity.
Qed.

(** Every step uses up some of the measure. *)
Lemma step_decreases (l : label) (s s' : state) :
  step c l s = Some s' -> (measure s' < measure s)%nat.
Proof.
  intros Hstep. unfold step, route, send, invoke in Hstep.
  destruct l; repeat (case_match; try discriminate); simplify_eq;
    unfold measure; simpl;
    rewrite ?length_insert, ?length_map, ?length_insert, ?length_app;
    simpl.
  all: try match goal with
         | |- context [weights ?n (map (enqueue ?m) ?ws)] =>
             pose proof (weights_enqueue n m ws)
         end.
  all: rewrite ?length_insert in *.
  all: try match goal with
         | Hw : workers _ !! _ = Some ?w
           |- context [weights ?n (<[?i:=?w']> ?ws)] =>
             pose proof (weights_insert n ws i w w' Hw);
             unfold worker_weight in *; simpl in *
         end.
  all: repeat match goal with
         | E : cb _ = _ |- _ => rewrite E in *
         | E : at_ _ = _ |- _ => rewrite E in *
         | E : unpublished _ = _ |- _ => rewrite E in *
         | E : backlog _ = _ |- _ => rewrite E in *
         | E : inbox _ = _ |- _ => rewrite E in *
         end.
  all: simpl in *; try lia.
  match goal with
  | Hw : workers _ !! _ = Some ?w,
    H1 : context [weights ?n (<[?i:=?w']> ?ws)] |- _ =>
      pose proof (weights_insert n ws i w w' Hw) as Hi;
      unfold worker_weight in Hi; simpl in Hi;
      rewrite H0 in Hi; simpl in Hi
  end.
  lia.
Qed.

(** A run of [k] steps needs a measure of at least [k]. *)
Lemma exec_measure (ls : list label) (s s' : state) :
  exec c ls s = Some s' -> (length ls + measure s' <= measure s)%nat.
Proof.
  revert s. induction ls as [|l ls IH]; simpl; intros s He.
  - injection He as ->. lia.
  - destruct (step c l s) as [s1|] eqn:Hs; [|discriminate].
    pose proof (step_decreases l s s1 Hs). specialize (IH s1 He). lia.
Qed.

Lemma weights_replicate (n k : nat) (w : worker) :
  weights n (replicate k w) = (k * worker_weight n w)%nat.
Proof. induction k as [|k IH]; simpl; [reflexivity|]. rewrite IH. lia. Qed.

(** The measure of the initial state: at most
    [numMsgs * (4 * numSubs + 5) + numSubs * (4 * numSubs + 12)] steps
    make up a run. *)
Lemma measure_init :
  measure (init c)
  = (Z.to_nat (numMsgs c) * (4 * Z.to_nat (numSubs c) + 5)
     + Z.to_nat (numSubs c) * (4 * Z.to_nat (numSubs c) + 12))%nat.
Proof.
  unfold measure. simpl. rewrite length_replicate, weights_replicate.
  unfold worker_weight. simpl. lia.
Qed.

End Termination.

(** ** Queue-group runs: no member is left waiting *)

Section QueueProgress.

Import Sub SubInv.

Variable c : config.
Hypothesis Hrun : queue_run c.

(** A goroutine past its two receives can always take its next step. *)
Lemma own_step (s : state) (i : nat) (w : worker) :
  workers s !! i = Some w ->
  waiting w = false -> at_ w <> WFinished -> can_step c s.
Proof.
  intros Hw Hwait Hfin. unfold waiting in Hwait.
  destruct (isQueue c) eqn:Hq.
  all: destruct (at_ w) eqn:Eat; try discriminate; try congruence.
  all: unfold can_step.
  all: match goal with
       | E : at_ _ = WSample |- _ => exists (AddSample i)
       | E : at_ _ = WLeave |- _ => exists (Leave i)
       | E : at_ _ = WSubClose |- _ => exists (SubClose i)
       | E : at_ _ = WPublish |- _ => exists (PublishDone i true)
       | E : at_ _ = WClose |- _ => exists (ConnClose i)
       | E : at_ _ = WDone |- _ => exists (Done i)
       end.
  all: eexists; (split; [reflexivity|]);
    unfold step; rewrite Hw, Eat, ?Hq; reflexivity.
Qed.

(** A callback that has started can always go on: the channel has room
    for what it sends. *)
Lemma callback_step (s : state) (i : nat) (w : worker) (q : Z) :
  workers s !! i = Some w -> member_ok q w -> cb w <> CbIdle ->
  can_step c s.
Proof.
  intros Hw Hm Hcb. unfold member_ok, sends in Hm. unfold can_step.
  destruct (cb w) eqn:Ecb; try congruence; destruct_exists.
  - exists (FirstSend i). eexists. split; [reflexivity|].
    unfold step, send. rewrite Hw, Ecb.
    assert (Hroom : (length (ch w) <? 2)%nat = true).
    { apply Nat.ltb_lt. destruct (at_ w); simpl in *; lia. }
    rewrite Hroom. reflexivity.
  - exists (Compare i). eexists. split; [reflexivity|].
    unfold step. rewrite Hw, Ecb, (r_queue _ Hrun). reflexivity.
  - exists (LastSend i). eexists. split; [reflexivity|].
    unfold step, send. rewrite Hw, Ecb.
    assert (Hroom : (length (ch w) <? 2)%nat = true).
    { apply Nat.ltb_lt. destruct (at_ w); simpl in *; lia. }
    rewrite Hroom. reflexivity.
Qed.

(** A goroutine at a receive goes on as soon as the channel holds a
    value. *)
Lemma recv_step (s : state) (i : nat) (w : worker) :
  workers s !! i = Some w -> waiting w = true -> ch w <> [] ->
  can_step c s.
Proof.
  intros Hw Hwait Hch. unfold waiting in Hwait. unfold can_step.
  destruct (ch w) as [|v rest] eqn:Ech; [congruence|].
  destruct (at_ w) eqn:Eat; try discriminate.
  - exists (RecvStart i). eexists. split; [reflexivity|].
    unfold step. rewrite Hw, Eat, Ech. reflexivity.
  - exists (RecvEnd i). eexists. split; [reflexivity|].
    unfold step. rewrite Hw, Eat, Ech. reflexivity.
Qed.

Lemma queue_progress (s : state) (i : nat) (w : worker) :
  queue_inv c s -> lost (trace s) = 0 ->
  workers s !! i = Some w -> at_ w <> WFinished -> can_step c s.
Proof.
  intros Hinv Hlost Hw Hfin.
  destruct (waiting w) eqn:Hwait; [|eapply own_step; eassumption].
  pose proof (member_at c s i w Hinv Hw) as Hm.
  destruct (cb w) eqn:Ecb;
    try (eapply callback_step; [exact Hw|exact Hm|congruence]).
  destruct (ch w) as [|v rest] eqn:Ech;
    [|eapply recv_step; [exact Hw|exact Hwait|congruence]].
  destruct (unpublished s) as [|u] eqn:Eu.
  2:{ exists Publish. eexists. split; [reflexivity|].
      unfold step. rewrite Eu. reflexivity. }
  destruct Hrun as [Hq Hn Hk Hfit].
  assert (Hsub : subscribed w = true).
  { unfold member_ok, waiting in *. destruct (at_ w); try discriminate;
      destruct_exists; assumption. }
  destruct (backlog s) as [|m rest] eqn:Eb.
  2:{ exists (Deliver i). eexists. split; [reflexivity|].
      unfold step. rewrite Hw, Hsub, Ecb, Hq, Eb. reflexivity. }
  (* nothing is on its way to this worker: another one must move *)
  pose proof (total_range counting (workers s) counting_range) as Hc.
  destruct (Z_lt_le_dec 0 (total counting (workers s))) as [Hpos|Hzero].
  { destruct (total_positive counting (workers s)) as (j & wj & Hj & Hcj).
    - apply Forall_forall. intros x _. apply counting_range.
    - lia.
    - eapply callback_step;
        [exact Hj|exact (member_at c s j wj Hinv Hj)|].
      unfold counting in Hcj. destruct (cb wj); try discriminate; lia. }
  assert (Hin : inflight s = 0).
  { unfold inflight. rewrite Eu, Eb. simpl. lia. }
  assert (Hstay : 1 <= qSubsLeft s).
  { rewrite (q_left _ _ Hinv).
    pose proof (total_part staying _ _ _ staying_range Hw) as Hs.
    unfold staying, waiting in *. destruct (at_ w); try discriminate; lia. }
  destruct (Z_lt_le_dec (qTotalRecv s) (numMsgs c)) as [Hlt|Hge].
  { destruct (q_before _ _ Hinv Hlt) as (_ & _ & _ & Heq). lia. }
  pose proof (q_token _ _ Hinv Hge) as Ht.
  destruct (Z.ltb_spec 0 (qSubsLeft s)); [|lia].
  destruct (total_positive holding (workers s)) as (j & wj & Hj & Hhj).
  { apply Forall_forall. intros x _. apply holding_range. }
  { lia. }
  pose proof (member_at c s j wj Hinv Hj) as Hmj.
  destruct (cb wj) eqn:Ecbj;
    try (eapply callback_step; [exact Hj|exact Hmj|congruence]).
  unfold holding in Hhj. rewrite Ecbj in Hhj.
  destruct (Z.eqb_spec (sends wj) 2) as [Hs2|]; [|lia].
  destruct (waiting wj) eqn:Hwj.
  - eapply recv_step; [exact Hj|exact Hwj|].
    unfold sends, waiting in *. intros Hnil. rewrite Hnil in Hs2.
    destruct (at_ wj); simpl in *; try discriminate; lia.
  - eapply own_step; [exact Hj|exact Hwj|].
    intros Hf. rewrite Hf in Hhj. lia.
Qed.

(** A run that cannot go on has all its members done. *)
Lemma queue_stuck_finished (s : state) :
  queue_inv c s -> lost (trace s) = 0 -> stuck c s ->
  Forall finished (workers s).
Proof.
  intros Hinv Hlost Hstuck. apply Forall_lookup. intros i w Hw.
  unfold finished. destruct (at_ w) eqn:Eat; try reflexivity.
  all: destruct (queue_progress s i w Hinv Hlost Hw) as (l & s' & _ & Hs);
    [congruence|]; rewrite (Hstuck l) in Hs; discriminate.
Qed.

Lemma reachable_ok_reachable (s : state) :
  reachable_ok c s -> reachable c s.
Proof. induction 1; eauto using reach_init, reach_step. Qed.

(** Without collaborator errors no sentinel is lost. *)
Lemma reachable_ok_lost (s : state) :
  reachable_ok c s -> lost (trace s) = 0.
Proof.
  induction 1 as [|l s s' Hr IH Hl Hstep]; [reflexivity|].
  unfold step, route in Hstep.
  destruct l; repeat (case_match; try discriminate); simplify_eq;
    simpl in *; try discriminate; assumption.
Qed.

End QueueProgress.

(** ** Runs without a queue group: the invariant *)

Section PlainInvariant.

Import Sub SubInv.

Variable c : config.
Hypothesis Hrun : plain_run c.

Lemma plain_inv_init : plain_inv c (init c).
Proof.
  destruct Hrun as [Hq Hn Hfit].
  split; simpl; rewrite ?length_replicate; auto.
  apply Forall_replicate. unfold plain_ok, sent, expected_sent.
  cbn [received inbox subscribed sr start end_ ch cb at_ worker0
       olist app length].
  destruct (Z.eqb_spec 0 (numMsgs c)); [lia|].
  repeat split; auto; lia.
Qed.

Lemma plain_ok_enqueue (n : Z) (u : nat) (m : message) (w : worker) :
  plain_ok n (S u) w -> plain_ok n u (enqueue m w).
Proof.
  unfold plain_ok, enqueue. intros (H1 & H2 & H3 & H4 & H5 & H6 & H7).
  destruct (subscribed w) eqn:Hs; simpl;
    rewrite ?length_app; simpl; rewrite ?Hs.
  - specialize (H3 eq_refl). repeat split; auto; lia.
  - repeat split; auto; try lia.
Qed.

Lemma plain_inv_publish (s s' : state) :
  plain_inv c s -> step c Publish s = Some s' -> plain_inv c s'.
Proof.
  intros [Hlen Hws Hb Htr] Hstep. destruct Hrun as [Hq Hn Hfit].
  unfold step, route in Hstep. rewrite Hq in Hstep.
  destruct (unpublished s) as [|u] eqn:Eu; [discriminate|].
  injection Hstep as <-. split; simpl; rewrite ?length_map; auto.
  apply Forall_forall. intros w' Hin.
  apply list_elem_of_In, in_map_iff in Hin. destruct Hin as (w & <- & Hin).
  apply plain_ok_enqueue. rewrite List.Forall_forall in Hws. auto.
Qed.

Lemma sent_eq (w : worker) :
  sent w = olist (start w) ++ olist (end_ w) ++ ch w.
Proof. reflexivity. Qed.

Lemma expected_sent_eq (n : Z) (w : worker) :
  expected_sent n w =
  (if (1 <=? received w) &&
      negb (match cb w with CbFirst => true | _ => false end)
   then [1] else []) ++
  (if (received w =? n) &&
      (match cb w with CbIdle => true | _ => false end)
   then [n] else []).
Proof. reflexivity. Qed.

Ltac shapes :=
  rewrite ?sent_eq, ?expected_sent_eq, ?waiting_eq in *;
  cbn [cb at_ ch sr received subscribed inbox start end_
       set_cb set_at set_ch set_received set_inbox unsubscribe
       set_start set_end set_sr consumed] in *;
  repeat match goal with
    | E : cb _ = _ |- _ => rewrite E in *
    | E : at_ _ = _ |- _ => rewrite E in *
    | E : sr _ = _ |- _ => rewrite E in *
    | E : subscribed _ = _ |- _ => rewrite E in *
    | E : ch _ = _ |- _ => rewrite E in *
    | E : inbox _ = _ |- _ => rewrite E in *
    | E : start _ = _ |- _ => rewrite E in *
    | E : end_ _ = _ |- _ => rewrite E in *
    end;
  rewrite ?length_app in *;
  cbn [length olist app negb andb] in *.

Ltac no_overflow :=
  repeat match goal with
    | |- context [Go.int ?x] =>
        let E := fresh "Hno" in
        assert (E : Go.int x = x)
          by (apply int_small; unfold Go.max_int; lia);
        rewrite E in *; clear E
    | H : context [Go.int ?x] |- _ =>
        let E := fresh "Hno" in
        assert (E : Go.int x = x)
          by (apply int_small; unfold Go.max_int; lia);
        rewrite E in *; clear E
    end.

Ltac split_ifs :=
  repeat match goal with
    | H : context [if ?b then _ else _] |- _ => destruct b eqn:?
    | |- context [if ?b then _ else _] => destruct b eqn:?
    end; zbool.

Lemma plain_inv_worker (l : label) (s s' : state) :
  l <> Publish ->
  plain_inv c s -> step c l s = Some s' -> plain_inv c s'.
Proof.
  intros Hl [Hlen Hws Hb Htr] Hstep. destruct Hrun as [Hq Hn Hfit].
  unfold step, route, invoke, send in Hstep. rewrite ?Hq in Hstep.
  destruct l; try congruence;
    repeat (case_match; try discriminate); simplify_eq.
  all: match goal with Hw : workers _ !! _ = Some _ |- _ =>
         pose proof (Forall_lookup_1 _ _ _ _ Hws Hw) as Hm end.
  all: unfold plain_ok in Hm; unfold Go.max_int in *; shapes.
  all: match goal with
       | Hw : workers _ !! _ = Some ?w |- _ =>
           destruct (at_ w) eqn:Eat; destruct (cb w) eqn:Ecb
       end.
  all: destruct_exists; zbool; try discriminate; try contradiction.
  all: shapes; no_overflow.
  all: try (exfalso; lia).
  all: split; simpl; rewrite ?length_insert; auto.
  all: apply Forall_insert; [assumption|]; unfold plain_ok; shapes.
  all: rewrite ?andb_true_r, ?andb_false_r in *.
  all: split_ifs; cbn [app] in *; simplify_eq; try (exfalso; lia).
  all: repeat split; eauto; try lia; try congruence.
  all: repeat match goal with E : ch _ = _ |- _ => rewrite E end;
    simpl; congruence.
Qed.

Lemma plain_inv_step (l : label) (s s' : state) :
  plain_inv c s -> step c l s = Some s' -> plain_inv c s'.
Proof.
  intros Hinv Hstep.
  destruct l; [eapply plain_inv_publish; eassumption|..];
    (eapply plain_inv_worker; [|eassumption|eassumption]; discriminate).
Qed.

Lemma plain_inv_reachable (s : state) : reachable c s -> plain_inv c s.
Proof.
  induction 1 as [|l s s' _ IH Hstep]; [apply plain_inv_init|].
  exact (plain_inv_step l s s' IH Hstep).
Qed.

End PlainInvariant.

(** ** Runs without a queue group: every subscriber is signalled *)

Section PlainProgress.

Import Sub SubInv.

Variable c : config.
Hypothesis Hrun : plain_run c.

(** The values sent are as many as [sends] counts. *)
Lemma plain_sends (n : Z) (u : nat) (w : worker) :
  plain_ok n u w -> sends w = Z.of_nat (length (expected_sent n w)).
Proof.
  unfold plain_ok, sends. intros (_ & _ & _ & _ & Hs & _ & Hp).
  rewrite <- Hs. unfold sent. rewrite !length_app.
  destruct (at_ w); destruct_exists; try contradiction;
    repeat match goal with E : _ = _ |- _ => rewrite E end;
    simpl; lia.
Qed.

Lemma plain_quiet (s : state) (i : nat) (w : worker) :
  plain_inv c s -> workers s !! i = Some w -> quiet c s w.
Proof.
  intros Hinv Hw. destruct Hrun as [Hq Hn Hfit].
  pose proof (Forall_lookup_1 _ _ _ _ (n_workers _ _ Hinv) Hw) as Hm.
  pose proof (plain_sends _ _ _ Hm) as Hs.
  unfold quiet, available. rewrite Hq, Hs.
  unfold plain_ok in Hm. destruct Hm as (H1 & H2 & H3 & H4 & H5 & H6 & H7).
  unfold expected_sent in *.
  split; [|split; [|split]].
  - repeat case_match; simpl; lia.
  - intros E. rewrite E in *. simpl negb.
    rewrite !andb_false_r. reflexivity.
  - intros E. rewrite E in *. destruct H6 as [-> Hwt]. split; [|exact Hwt].
    destruct (Z.leb_spec 1 (numMsgs c)); [|lia].
    simpl negb. rewrite !andb_false_r. reflexivity.
  - intros Hsub Hcb Hav. rewrite Hcb in *.
    assert (Hlt : received w < numMsgs c).
    { destruct (inbox w); [congruence|]. simpl in H2. lia. }
    destruct (Z.eqb_spec (received w) (numMsgs c)); [lia|].
    simpl in *. rewrite app_nil_r in *.
    assert (Hle : Z.of_nat
              (length (if (1 <=? received w) && true then [1] else []))
              <= 1) by (case_match; simpl; lia).
    split; [|split; [exact Hle|lia]].
    unfold waiting, sends in *.
    destruct (at_ w); destruct_exists; try contradiction; try reflexivity;
      simpl in *; lia.
Qed.

Lemma plain_callback_step (s : state) (i : nat) (w : worker) :
  plain_inv c s -> workers s !! i = Some w -> cb w <> CbIdle ->
  can_step c s.
Proof.
  intros Hinv Hw Hcb. destruct Hrun as [Hq Hn Hfit].
  destruct (plain_quiet s i w Hinv Hw) as (Hs & Hf & Hl & _).
  unfold sends, can_step in *.
  destruct (cb w) eqn:Ecb; try congruence.
  - exists (FirstSend i). eexists. split; [reflexivity|].
    unfold step, send. rewrite Hw, Ecb.
    assert (Hroom : (length (ch w) <? 2)%nat = true).
    { apply Nat.ltb_lt. specialize (Hf eq_refl).
      destruct (at_ w); simpl in *; lia. }
    rewrite Hroom. reflexivity.
  - exists (Compare i). eexists. split; [reflexivity|].
    unfold step. rewrite Hw, Ecb, Hq. reflexivity.
  - exists (LastSend i). eexists. split; [reflexivity|].
    unfold step, send. rewrite Hw, Ecb.
    assert (Hroom : (length (ch w) <? 2)%nat = true).
    { apply Nat.ltb_lt. destruct (Hl eq_refl) as [Hl1 _].
      destruct (at_ w); simpl in *; lia. }
    rewrite Hroom. reflexivity.
Qed.

Lemma plain_progress (s : state) (i : nat) (w : worker) :
  plain_inv c s -> workers s !! i = Some w -> at_ w <> WFinished ->
  can_step c s.
Proof.
  intros Hinv Hw Hfin.
  destruct (waiting w) eqn:Hwait; [|eapply own_step; eassumption].
  destruct (cb w) eqn:Ecb;
    try (eapply plain_callback_step; [exact Hinv|exact Hw|congruence]).
  destruct (ch w) as [|v rest] eqn:Ech;
    [|eapply recv_step; [exact Hw|exact Hwait|congruence]].
  destruct Hrun as [Hq Hn Hfit].
  pose proof (Forall_lookup_1 _ _ _ _ (n_workers _ _ Hinv) Hw) as Hm.
  pose proof (plain_sends _ _ _ Hm) as Hs.
  unfold plain_ok in Hm. destruct Hm as (H1 & H2 & H3 & H4 & H5 & H6 & H7).
  assert (Hsub : subscribed w = true).
  { unfold waiting in Hwait. destruct (at_ w); try discriminate;
      destruct_exists; assumption. }
  destruct (inbox w) as [|m rest] eqn:Ei.
  2:{ exists (Deliver i). eexists. split; [reflexivity|].
      unfold step. rewrite Hw, Hsub, Ecb, Hq, Ei. reflexivity. }
  destruct (unpublished s) as [|u] eqn:Eu.
  2:{ exists Publish. eexists. split; [reflexivity|].
      unfold step. rewrite Eu. reflexivity. }
  exfalso. specialize (H3 Hsub). simpl in H3.
  unfold sends, expected_sent, waiting in *. rewrite Ech, Ecb in Hs.
  destruct (Z.leb_spec 1 (received w)); [|lia].
  destruct (Z.eqb_spec (received w) (numMsgs c)); [|lia].
  simpl in Hs. destruct (at_ w); simpl in *; try discriminate; lia.
Qed.

Lemma plain_stuck_finished (s : state) :
  plain_inv c s -> stuck c s -> Forall finished (workers s).
Proof.
  intros Hinv Hstuck. apply Forall_lookup. intros i w Hw.
  unfold finished. destruct (at_ w) eqn:Eat; try reflexivity.
  all: destruct (plain_progress s i w Hinv Hw) as (l & s' & _ & Hs);
    [congruence|]; rewrite (Hstuck l) in Hs; discriminate.
Qed.


(** All that [mcb] ever sends is the start, from the first delivery, and
    then the completion, from delivery number [numMsgs]. *)
Lemma plain_sent_prefix (s : state) (i : nat) (w : worker) :
  plain_inv c s -> workers s !! i = Some w ->
  sent w = [] \/ sent w = [1] \/ sent w = [1; numMsgs c].
Proof.
  intros Hinv Hw. destruct Hrun as [Hq Hn Hfit].
  pose proof (Forall_lookup_1 _ _ _ _ (n_workers _ _ Hinv) Hw) as Hm.
  unfold plain_ok in Hm. destruct Hm as (H1 & H2 & H3 & H4 & H5 & H6 & H7).
  rewrite H5. unfold expected_sent.
  destruct (Z.leb_spec 1 (received w)), (Z.eqb_spec (received w) (numMsgs c)),
    (cb w); simpl; auto; lia.
Qed.

(** Before delivery number [numMsgs] no completion is sent. *)
Lemma plain_not_early (s : state) (i : nat) (w : worker) :
  plain_inv c s -> workers s !! i = Some w ->
  received w < numMsgs c -> sent w = [] \/ sent w = [1].
Proof.
  intros Hinv Hw Hlt.
  pose proof (Forall_lookup_1 _ _ _ _ (n_workers _ _ Hinv) Hw) as Hm.
  unfold plain_ok in Hm. destruct Hm as (H1 & H2 & H3 & H4 & H5 & H6 & H7).
  rewrite H5. unfold expected_sent.
  destruct (Z.eqb_spec (received w) (numMsgs c)); [lia|].
  simpl. rewrite app_nil_r. destruct (_ && _); auto.
Qed.

End PlainProgress.

(** ** Samples *)

Section Samples.

Import Sub SubInv.

Variable c : config.

Lemma queue_quiet (s : state) (i : nat) (w : worker) :
  queue_run c -> queue_inv c s -> workers s !! i = Some w -> quiet c s w.
Proof.
  intros Hrun Hinv Hw. pose proof (member_at c s i w Hinv Hw) as Hm.
  destruct Hrun as [Hq Hn Hk Hfit].
  unfold quiet, available. rewrite Hq.
  unfold member_ok in Hm. destruct Hm as (H1 & H2 & H3 & H4 & H5).
  split; [exact H2|]. split; [|split].
  - intros E. rewrite E in H4. apply H4.
  - intros E. rewrite E in H4. split; apply H4.
  - intros Hsub Hcb Hav.
    assert (Hin : 1 <= inflight s).
    { unfold inflight.
      pose proof (total_range counting (workers s) counting_range).
      destruct (backlog s); [congruence|]. simpl length. lia. }
    assert (Hrun : queue_run c) by (split; assumption).
    assert (Hbig : 0 <= received w < Go.max_int).
    { pose proof (received_bound c s i w Hinv Hw) as Hr.
      pose proof (q_bound _ _ Hinv) as Hb.
      pose proof (total_range sent_sentinel (workers s)
                    sent_sentinel_range) as Hss.
      pose proof (q_length _ _ Hinv) as Hlen.
      unfold inflight, Go.max_int32, Go.max_int in *. lia. }
    destruct (inflight_no_token c s Hinv Hin) as (Hz & _ & Hpos).
    pose proof (total_none holding _ _ _ holding_range Hz Hw) as Hh.
    pose proof (before_target_waiting c s i w Hinv Hw) as Hbefore.
    assert (Hwait : waiting w = true /\ sends w <= 1); [|tauto].
    unfold holding, waiting, sends in *. rewrite Hcb in *.
    destruct (at_ w); simpl in *; destruct_exists;
      try discriminate; try congruence;
      destruct (Z.eqb_spec (Z.of_nat (length (ch w)) + 0) 2);
      destruct (Z.eqb_spec (Z.of_nat (length (ch w)) + 1) 2);
      destruct (Z.eqb_spec (Z.of_nat (length (ch w)) + 2) 2);
      try (split; [reflexivity|lia]); try lia;
      destruct (Z_lt_le_dec (qTotalRecv s) (numMsgs c)); try lia;
      match goal with H : subscribed w = true -> _ |- _ =>
        specialize (H Hsub) end; lia.
Qed.

Lemma sample_ok_ext (i : nat) (tr : list event) (w w' : worker) :
  received w' = received w -> ch w' = ch w -> at_ w' = at_ w ->
  start w' = start w -> end_ w' = end_ w ->
  sample_ok c i tr w -> sample_ok c i tr w'.
Proof.
  unfold sample_ok, stamp_ok, sends. intros -> -> -> -> ->. auto.
Qed.

Lemma sample_inv_init : sample_inv c (init c).
Proof.
  intros i w Hw. simpl in Hw. apply lookup_replicate in Hw as [-> _].
  unfold sample_ok, stamp_ok, sends. simpl. repeat split; auto. lia.
Qed.

Lemma sample_inv_enqueue (m : message) (s : state) :
  sample_inv c s ->
  sample_inv c (set_workers (map (enqueue m) (workers s)) s).
Proof.
  intros Hinv i w' Hw'. simpl in *. rewrite lookup_map in Hw'.
  destruct (workers s !! i) as [w|] eqn:Hw; [|discriminate].
  injection Hw' as <-. specialize (Hinv i w Hw).
  eapply sample_ok_ext; [..|exact Hinv];
    unfold enqueue; destruct (subscribed w); reflexivity.
Qed.

Lemma sample_inv_route (m : message) (s : state) :
  sample_inv c s -> sample_inv c (route c m s).
Proof.
  intros Hinv. unfold route. destruct (isQueue c).
  - exact Hinv.
  - apply sample_inv_enqueue, Hinv.
Qed.

(** One worker changes and the trace grows by events that are neither
    deliveries nor samples of another worker. *)
Lemma sample_inv_put (s : state) (j : nat) (w w' : worker)
      (evs : list event) :
  sample_inv c s -> workers s !! j = Some w ->
  (forall i, i <> j ->
     delivered Payload i (evs ++ trace s) = delivered Payload i (trace s) /\
     delivered Sentinel i (evs ++ trace s) = delivered Sentinel i (trace s)
     /\ samples i (evs ++ trace s) = samples i (trace s)) ->
  sample_ok c j (evs ++ trace s) w' ->
  forall i x, <[j:=w']> (workers s) !! i = Some x ->
              sample_ok c i (evs ++ trace s) x.
Proof.
  intros Hinv Hw Hother Hnew i x Hx.
  destruct (decide (j = i)) as [->|Hne].
  - rewrite list_lookup_insert_eq in Hx
      by (eapply lookup_lt_Some; eassumption).
    injection Hx as <-. exact Hnew.
  - rewrite list_lookup_insert_ne in Hx by assumption.
    specialize (Hinv i x Hx).
    destruct (Hother i ltac:(congruence)) as (Hp & Hs & Hsm).
    unfold sample_ok in *. rewrite Hp, Hs, Hsm. exact Hinv.
Qed.

Lemma sample_inv_sentinel (j : nat) (ok : bool) (s : state) :
  sample_inv c s -> sample_inv c (emit (EvSentinel j ok) s).
Proof. intros Hinv i w Hw. exact (Hinv i w Hw). Qed.

(** Use what [quiet] says under its premises. *)
Ltac premises :=
  repeat match goal with
    | H : ?a = ?a -> _ |- _ => specialize (H eq_refl)
    | H : _ :: _ <> [] -> _ |- _ => specialize (H ltac:(discriminate))
    | H : ?a = ?b -> _ |- _ =>
        assert_fails (unify a b); clear H
    end.

Lemma sample_inv_step (l : label) (s s' : state) :
  (forall i w, workers s !! i = Some w -> quiet c s w) ->
  sample_inv c s -> step c l s = Some s' -> sample_inv c s'.
Proof.
  intros Hquiet Hinv Hstep. unfold step, invoke, send in Hstep.
  destruct l as [|j|j|j|j|j|j|j|j|j|j ok|j|j].
  { (* Publish *)
    destruct (unpublished s); [discriminate|]. injection Hstep as <-.
    apply (sample_inv_route Payload (set_unpublished n s)). exact Hinv. }
  all: destruct (workers s !! j) as [w|] eqn:Hw; [|discriminate].
  all: pose proof (Hquiet j w Hw) as (Hq2 & Hqf & Hql & Hqa).
  all: pose proof (Hinv j w Hw) as Hok.
  all: unfold available in Hqa.
  all: repeat (case_match; try discriminate); simplify_eq.
  all: try match goal with
         | |- sample_inv _ (emit ?e (route _ _ _)) => idtac
         | |- sample_inv _ (emit ?e (put ?j ?w' ?s0)) =>
             intros i x Hx;
             refine (sample_inv_put s0 j w w' [e] _ Hw _ _ i x Hx);
             [exact Hinv| |]
         | |- sample_inv _ (put ?j ?w' ?s0) =>
             intros i x Hx;
             refine (sample_inv_put s0 j w w' [] _ Hw _ _ i x Hx);
             [exact Hinv| |]
         end.
  all: try (intros k Hk; apply Nat.eqb_neq in Hk; simpl; rewrite ?Hk;
            repeat case_match; auto; fail).
  all: try (apply sample_inv_sentinel, sample_inv_route;
            intros i x Hx;
            refine (sample_inv_put s j w _ [] Hinv Hw _ _ i x Hx);
            [intros k Hk; simpl; auto|]).
  all: unfold sample_ok, stamp_ok, sends, waiting in *.
  all: cbn [cb at_ ch sr received subscribed inbox start end_
            set_cb set_at set_ch set_received set_inbox unsubscribe
            set_start set_end set_sr app delivered samples trace
            set_backlog set_qTotalRecv set_qSubsLeft] in *;
    rewrite ?Nat.eqb_refl.
  all: premises; destruct_exists.
  all: try rewrite int_small in * by (unfold Go.max_int in *; lia).
  all: destruct (at_ w) eqn:Eat; cbn [consumed] in *;
    try discriminate.
  all: try match goal with m : message |- _ => destruct m end.
  all: repeat match goal with E : ch _ = _ |- _ => rewrite E in * end.
  all: try match goal with
         | l : list Z |- _ => destruct l as [|b1 [|b2 t]]
         end.
  all: try match goal with
         | H : context [ch ?w] |- _ =>
             destruct (ch w) as [|a1 [|a2 [|a3 t]]]
         end.
  all: rewrite ?length_app in *; cbn [length app] in *.
  all: repeat match goal with
         | H : ?a -> _ |- _ =>
             let Ha := fresh in
             assert (Ha : a) by lia; specialize (H Ha); clear Ha
         end.
  all: destruct_exists; simplify_eq.
  all: try (exfalso; lia).
  all: repeat split; intros; try lia; eauto; try congruence.
  all: match goal with
       | He : end_ _ = _, Hs : samples _ _ = [] |- _ => rewrite He, Hs
       end; reflexivity.
Qed.

(** In both kinds of run the samples are as [sample_ok] says. *)
Lemma sample_inv_queue (s : state) :
  queue_run c -> reachable c s -> sample_inv c s.
Proof.
  intros Hrun. induction 1 as [|l s s' Hr IH Hstep];
    [apply sample_inv_init|].
  eapply sample_inv_step; [|exact IH|exact Hstep].
  intros i w Hw. apply (queue_quiet s i w Hrun); [|exact Hw].
  apply queue_inv_reachable; assumption.
Qed.

Lemma sample_inv_plain (s : state) :
  plain_run c -> reachable c s -> sample_inv c s.
Proof.
  intros Hrun. induction 1 as [|l s s' Hr IH Hstep];
    [apply sample_inv_init|].
  eapply sample_inv_step; [|exact IH|exact Hstep].
  intros i w Hw. apply (plain_quiet c Hrun s i w); [|exact Hw].
  apply plain_inv_reachable; assumption.
Qed.

End Samples.

(** ** Runs and reachable states *)

Section Runs.

Import Sub SubInv.

Variable c : config.

Lemma run_reachable (ls : list label) (s s' : state) :
  reachable c s -> exec c ls s = Some s' -> reachable c s'.
Proof.
  revert s. induction ls as [|l ls IH]; simpl; intros s Hr He.
  - congruence.
  - destruct (step c l s) as [s1|] eqn:Hs; [|discriminate].
    eapply IH; [|eassumption]. eapply reach_step; eassumption.
Qed.

Lemma run_reachable_ok (ls : list label) (s s' : state) :
  forallb faultless ls = true ->
  reachable_ok c s -> exec c ls s = Some s' -> reachable_ok c s'.
Proof.
  revert s. induction ls as [|l ls IH]; simpl; intros s Hf Hr He.
  - congruence.
  - apply andb_prop in Hf as [Hl Hf].
    destruct (step c l s) as [s1|] eqn:Hs; [|discriminate].
    eapply IH; [exact Hf| |eassumption]. eapply ok_step; eassumption.
Qed.

(** With no message to come nothing ever happens. *)
Lemma init_stuck : numMsgs c <= 0 -> stuck c (init c).
Proof.
  intros Hn l. unfold step. simpl.
  assert (Hu : Z.to_nat (numMsgs c) = 0%nat) by lia. rewrite Hu.
  destruct l as [|i|i|i|i|i|i|i|i|i|i ok|i|i]; try reflexivity.
  all: destruct (replicate (Z.to_nat (numSubs c)) worker0 !! i)
    as [w|] eqn:Hw; [|reflexivity].
  all: apply lookup_replicate in Hw as [-> _]; simpl.
  all: destruct (isQueue c); reflexivity.
Qed.


Lemma measure_reachable (s : state) :
  reachable c s -> (measure s <= measure (init c))%nat.
Proof.
  induction 1 as [|l s s' _ IH Hstep]; [lia|].
  pose proof (step_decreases c l s s' Hstep). lia.
Qed.

Lemma count_countdown (n : nat) (x : Z) :
  count_occ Z.eq_dec (countdown n) x
  = if (1 <=? x) && (x <=? Z.of_nat n) then 1%nat else 0%nat.
Proof.
  induction n as [|n IH]; cbn [countdown count_occ].
  - destruct (Z.leb_spec 1 x), (Z.leb_spec x (Z.of_nat 0)); simpl;
      try reflexivity; lia.
  - rewrite IH.
    destruct (Z.eq_dec (Z.of_nat (S n)) x) as [He|Hne];
      destruct (Z.leb_spec 1 x), (Z.leb_spec x (Z.of_nat n)),
        (Z.leb_spec x (Z.of_nat (S n))); simpl; try reflexivity; lia.
Qed.

Lemma rev_countdown (n : nat) :
  rev (countdown n) = map Z.of_nat (seq 1 n).
Proof.
  induction n as [|n IH]; [reflexivity|].
  cbn [countdown rev]. rewrite IH, seq_S, map_app. reflexivity.
Qed.

End Runs.

(** ** Runs on any subject: the queue group *)

Lemma pending_app (m : Sub.message) (l k : list Sub.message) :
  SubProps.pending m (l ++ k) = SubProps.pending m l + SubProps.pending m k.
Proof.
  induction l as [|x l IH]; simpl; [reflexivity|]. rewrite IH. lia.
Qed.

Lemma pending_nonneg (m : Sub.message) (l : list Sub.message) :
  0 <= SubProps.pending m l.
Proof. induction l as [|x l IH]; simpl; [lia|]. destruct (_ : bool); lia. Qed.

Lemma handed_nonneg (m : Sub.message) (tr : list Sub.event) :
  0 <= SubProps.handed m tr.
Proof.
  induction tr as [|e tr IH]; simpl; [lia|].
  destruct e; try exact IH. destruct (_ : bool); lia.
Qed.

Lemma total_const (f : Sub.worker -> Z) (k : Z) (ws : list Sub.worker) :
  Forall (fun w => f w = k) ws ->
  SubInv.total f ws = Z.of_nat (length ws) * k.
Proof.
  induction 1 as [|w ws Hw _ IH]; [reflexivity|].
  cbn [SubInv.total fold_right length] in *. fold (SubInv.total f ws).
  rewrite Hw, IH. lia.
Qed.

(** The totals after one worker was replaced. *)
Ltac totals :=
  repeat match goal with
    | Hw : ?ws !! ?i = Some ?w
      |- context [SubInv.total ?f (<[?i:=?w']> ?ws)] =>
        rewrite (total_insert f ws i w w' Hw)
    end.

(** The fields of a worker that a step has set. *)
Ltac fields_of_worker :=
  cbn [Sub.cb Sub.at_ Sub.ch Sub.sr Sub.received Sub.subscribed Sub.inbox
       Sub.start Sub.end_
       Sub.set_cb Sub.set_at Sub.set_ch Sub.set_received Sub.set_inbox
       Sub.unsubscribe Sub.set_start Sub.set_end Sub.set_sr] in *.

Section GeneralGroup.

Import Sub SubInv SubProps Env General.

Variable c : config.
Variable m : nat.

Lemma reachable_arrives (s : state) :
  reachable c s -> arrives c (Z.to_nat (numMsgs c)) s.
Proof.
  induction 1 as [|l s s' _ IH Hstep].
  - apply arr_initial.
  - eapply arr_step; eassumption.
Qed.

Lemma member_pc_account (w : worker) :
  member_pc w -> sent_sentinel w + left_last w + staying w <= 1.
Proof.
  unfold member_pc, sent_sentinel, left_last, staying.
  intros (_ & Hp).
  destruct (at_ w); destruct_and?; destruct_exists;
    repeat match goal with E : sr w = _ |- _ => rewrite E end;
    repeat case_match; lia.
Qed.

Hypothesis Hq : isQueue c = true.

Lemma members_arrive (s : state) :
  arrives c m s -> Forall member_pc (workers s).
Proof.
  induction 1 as [|l s s' Hr IH Hstep].
  - simpl. apply Forall_replicate. repeat split.
  - unfold step, route, send, invoke in Hstep. rewrite ?Hq in Hstep.
    destruct l; repeat (case_match; try discriminate); simplify_eq;
      simpl; try exact IH.
    all: apply Forall_insert; [exact IH|].
    all: match goal with
         | Hw : workers _ !! _ = Some _ |- _ =>
             pose proof (Forall_lookup_1 _ _ _ _ IH Hw) as Hm
         end.
    all: unfold member_pc in *; fields_of_worker.
    all: repeat match goal with
           | E : at_ _ = _ |- _ => rewrite E in *
           | E : inbox _ = _ |- _ => rewrite E in *
           | E : (_ <? _) = true |- _ => apply Z.ltb_lt in E
           | E : (_ <? _) = false |- _ => apply Z.ltb_ge in E
           end.
    all: destruct_and?; destruct_exists; try discriminate.
    all: try (split; [assumption|]).
    all: eauto 8.
    all: eexists; split; [eassumption|]; intros; congruence.
Qed.



Hypothesis Hk : 0 <= numSubs c.
Hypothesis Hfit : Z.of_nat m + numSubs c <= Go.max_int32.

Lemma group_inv_initial : group_inv c m (initial c m).
Proof.
  split; simpl; rewrite ?Hq.
  - apply length_replicate.
  - rewrite total_replicate. change (staying worker0) with 1.
    rewrite int32_small by (unfold Go.max_int32 in *; lia). lia.
  - unfold one_last. simpl. rewrite total_replicate, Hq.
    change (left_last worker0) with 0.
    rewrite int32_small by (unfold Go.max_int32 in *; lia).
    destruct (Z.leb_spec (numSubs c) 0), (Z.leb_spec 1 (numSubs c));
      simpl; lia.
  - lia.
  - unfold counted. simpl. rewrite total_replicate.
    change (counting worker0) with 0. lia.
  - lia.
  - lia.
  - rewrite total_replicate. change (sent_sentinel worker0) with 0. lia.
  - apply Forall_replicate. repeat split.
Qed.

(** What the invariant gives at a worker: bounds on the counters. *)
Lemma group_bounds (s : state) :
  group_inv c m s ->
  0 <= qSubsLeft s <= numSubs c /\
  qTotalRecv s + total counting (workers s)
  <= Z.of_nat m + sentinels (trace s) /\
  sentinels (trace s) <= numSubs c.
Proof.
  intros Hinv.
  pose proof (total_range staying (workers s) staying_range).
  pose proof (total_range sent_sentinel (workers s) sent_sentinel_range).
  pose proof (g_length _ _ _ Hinv). pose proof (g_left _ _ _ Hinv).
  pose proof (g_counted _ _ _ Hinv) as Hc. unfold counted in Hc.
  pose proof (g_payloads _ _ _ Hinv). pose proof (g_sentinels _ _ _ Hinv).
  pose proof (g_sent _ _ _ Hinv).
  pose proof (pending_nonneg Payload (backlog s)).
  pose proof (pending_nonneg Sentinel (backlog s)).
  pose proof (lost_nonneg (trace s)).
  lia.
Qed.

(** Case analysis on a step of a queue-group run. *)
Ltac gcases Hstep :=
  unfold step, route, send, invoke in Hstep; rewrite ?Hq in Hstep;
  match type of Hstep with
  | context [match ?l with Publish => _ | _ => _ end] => destruct l
  end;
  repeat (case_match; try discriminate); simplify_eq; simpl.

(** The worker of the step, and what the invariant says of it. *)
Ltac at_worker Hinv :=
  match goal with
  | Hw : workers ?s0 !! _ = Some ?w |- _ =>
      pose proof (Forall_lookup_1 _ _ _ _ (g_members _ _ _ Hinv) Hw)
        as (_ & Hpc);
      pose proof (total_part staying _ _ _ staying_range Hw) as Hst;
      pose proof (total_part counting _ _ _ counting_range Hw) as Hcn;
      rewrite staying_eq in Hst; rewrite counting_eq in Hcn
  end;
  repeat match goal with
    | E : at_ _ = _ |- _ => rewrite E in *
    | E : cb _ = _ |- _ => rewrite E in *
    | E : (_ <? _) = true |- _ => apply Z.ltb_lt in E
    | E : (_ <? _) = false |- _ => apply Z.ltb_ge in E
    end;
  destruct_and?; destruct_exists;
  repeat match goal with
    | E : sr _ = _ |- _ => rewrite E in *
    end.

Lemma group_left_step (l : label) (s s' : state) :
  group_inv c m s -> step c l s = Some s' ->
  qSubsLeft s' = total staying (workers s').
Proof.
  intros Hinv Hstep. destruct (group_bounds s Hinv) as (Hb1 & Hb2 & Hb3).
  pose proof (g_left _ _ _ Hinv) as Hl.
  gcases Hstep; totals; rewrite ?staying_eq; fields_of_worker;
    try exact Hl.
  all: at_worker Hinv.
  all: rewrite ?int32_small by (unfold Go.max_int32 in *; lia); lia.
Qed.

Lemma group_last_step (l : label) (s s' : state) :
  group_inv c m s -> step c l s = Some s' -> one_last c s'.
Proof.
  intros Hinv Hstep. destruct (group_bounds s Hinv) as (Hb1 & Hb2 & Hb3).
  pose proof (g_last _ _ _ Hinv) as Hl.
  pose proof (g_left _ _ _ Hinv) as Hleft.
  gcases Hstep; unfold one_last in *; simpl; totals;
    rewrite ?left_last_eq; fields_of_worker; try exact Hl; try lia.
  all: at_worker Hinv.
  all: rewrite int32_small in * by (unfold Go.max_int32 in *; lia).
  all: repeat match goal with
         | |- context [?a <=? ?b] => destruct (Z.leb_spec a b)
         | |- context [?a <? ?b] => destruct (Z.ltb_spec a b)
         | H : context [?a <=? ?b] |- _ => destruct (Z.leb_spec a b)
         end; simpl in *; lia.
Qed.

Lemma group_counted_step (l : label) (s s' : state) :
  group_inv c m s -> step c l s = Some s' ->
  counted s' /\ 0 <= qTotalRecv s'.
Proof.
  intros Hinv Hstep. destruct (group_bounds s Hinv) as (Hb1 & Hb2 & Hb3).
  pose proof (g_counted _ _ _ Hinv) as Hc.
  pose proof (g_nonneg _ _ _ Hinv) as Hn. unfold counted in *.
  gcases Hstep; totals; rewrite ?counting_eq; fields_of_worker;
    try (split; [exact Hc|exact Hn]).
  all: at_worker Hinv.
  all: try (destruct m0; simpl; lia).
  all: try lia.
  all: rewrite int32_small by (unfold Go.max_int32 in *; lia); lia.
Qed.

Lemma group_messages_step (l : label) (s s' : state) :
  group_inv c m s -> step c l s = Some s' ->
  handed Payload (trace s') + pending Payload (backlog s')
  + Z.of_nat (unpublished s') = Z.of_nat m /\
  handed Sentinel (trace s') + pending Sentinel (backlog s')
  + lost (trace s') = sentinels (trace s').
Proof.
  intros Hinv Hstep.
  pose proof (g_payloads _ _ _ Hinv) as Hp.
  pose proof (g_sentinels _ _ _ Hinv) as Hs.
  gcases Hstep; rewrite ?pending_app; simpl;
    repeat match goal with
      | E : unpublished _ = _ |- _ => rewrite E in *
      | E : backlog _ = _ |- _ => rewrite E in *
      end; simpl in *; split; lia.
Qed.

Lemma group_sent_step (l : label) (s s' : state) :
  group_inv c m s -> step c l s = Some s' ->
  sentinels (trace s') = total sent_sentinel (workers s').
Proof.
  intros Hinv Hstep. pose proof (g_sent _ _ _ Hinv) as Hs.
  gcases Hstep; totals; rewrite ?sent_sentinel_eq; fields_of_worker;
    try exact Hs; try lia.
  all: at_worker Hinv.
  all: repeat match goal with
         | |- context [?a <? ?b] => destruct (Z.ltb_spec a b)
         end; simpl in *; try lia.
Qed.

Lemma group_inv_arrives (s : state) : arrives c m s -> group_inv c m s.
Proof.
  induction 1 as [|l s s' Hr IH Hstep].
  - apply group_inv_initial.
  - destruct (group_counted_step l s s' IH Hstep) as [Hc Hn].
    destruct (group_messages_step l s s' IH Hstep) as [Hp Hs].
    split.
    + rewrite (step_length c l s s' Hstep). apply (g_length _ _ _ IH).
    + eapply group_left_step; eassumption.
    + eapply group_last_step; eassumption.
    + exact Hn.
    + exact Hc.
    + exact Hp.
    + exact Hs.
    + eapply group_sent_step; eassumption.
    + apply members_arrive. eapply arr_step; eassumption.
Qed.

(** At most one sentinel less than there are members is published. *)
Lemma group_sentinels (s : state) :
  group_inv c m s -> sentinels (trace s) <= Z.max 0 (numSubs c - 1).
Proof.
  intros Hinv. rewrite (g_sent _ _ _ Hinv).
  pose proof (total_range sent_sentinel (workers s) sent_sentinel_range).
  pose proof (total_range left_last (workers s) left_last_range).
  pose proof (total_range staying (workers s) staying_range).
  assert (Hsum : total (fun w => sent_sentinel w + left_last w + staying w)
                   (workers s) <= Z.of_nat (length (workers s))).
  { apply total_length. eapply Forall_impl; [exact (g_members _ _ _ Hinv)|].
    intros w Hw. apply member_pc_account, Hw. }
  rewrite (total_add (fun w => sent_sentinel w + left_last w)), total_add
    in Hsum.
  pose proof (g_length _ _ _ Hinv) as Hlen.
  pose proof (g_left _ _ _ Hinv) as Hleft.
  pose proof (g_last _ _ _ Hinv) as Hlast. unfold one_last in Hlast.
  destruct (Z.leb_spec (qSubsLeft s) 0), (Z.leb_spec 1 (numSubs c));
    simpl in Hlast; lia.
Qed.

(** No step increases [qSubsLeft] or decreases [qTotalRecv]. *)
Lemma group_monotone (l : label) (s s' : state) :
  group_inv c m s -> step c l s = Some s' ->
  qSubsLeft s' <= qSubsLeft s /\ qTotalRecv s <= qTotalRecv s'.
Proof.
  intros Hinv Hstep. destruct (group_bounds s Hinv) as (Hb1 & Hb2 & Hb3).
  pose proof (g_nonneg _ _ _ Hinv) as Hn.
  pose proof (g_left _ _ _ Hinv) as Hleft.
  gcases Hstep; try lia.
  all: at_worker Hinv.
  all: rewrite int32_small by (unfold Go.max_int32 in *; lia); lia.
Qed.

End GeneralGroup.

(** ** Runs on any subject: subscribers without a queue group *)

Section GeneralPlain.

Import Sub SubInv SubProps Env General.

Variable c : config.
Variable m : nat.
Hypothesis Hq : isQueue c = false.

Lemma stamps_snoc (n : Z) (j : nat) :
  stamps n (S (S j)) = stamps n (S j) ++ [n + Z.of_nat j].
Proof.
  unfold stamps. rewrite seq_S, map_app. reflexivity.
Qed.


Hypothesis Hn : 1 <= numMsgs c.
Hypothesis Hfit : Z.of_nat m <= Go.max_int.

Lemma plain_gen_enqueue (u : nat) (k : message) (w : worker) :
  plain_gen (numMsgs c) m (S u) w -> plain_gen (numMsgs c) m u (enqueue k w).
Proof.
  unfold plain_gen, enqueue.
  intros (H1 & H2 & H3 & H4 & H5 & H6).
  destruct (subscribed w) eqn:Es; unfold sent, nsent in *; simpl;
    rewrite ?length_app, ?Es; simpl; repeat split; auto; try lia;
    try discriminate.
Qed.

Lemma plain_gen_step (l : label) (s s' : state) :
  Forall (plain_gen (numMsgs c) m (unpublished s)) (workers s) ->
  step c l s = Some s' ->
  Forall (plain_gen (numMsgs c) m (unpublished s')) (workers s').
Proof.
  intros IH Hstep.
  unfold step, route, send, invoke in Hstep. rewrite ?Hq in Hstep.
  destruct l; repeat (case_match; try discriminate); simplify_eq; simpl.
  { apply List.Forall_map. eapply Forall_impl; [exact IH|].
    intros w. apply plain_gen_enqueue. }
  all: match goal with
       | Hw : workers _ !! _ = Some _ |- _ =>
           pose proof (Forall_lookup_1 _ _ _ _ IH Hw)
             as (Hg1 & Hg2 & Hg3 & Hg4 & Hg5 & Hg6)
       end.
  all: try (match goal with E : at_ _ = _ |- _ => rewrite E in Hg6 end;
            contradiction).
  all: apply Forall_insert; [exact IH|].
  all: unfold plain_gen, nsent in *; rewrite ?sent_eq in *;
    fields_of_worker.
  all: repeat match goal with
         | E : cb _ = _ |- _ => rewrite E in *
         | E : at_ _ = _ |- _ => rewrite E in *
         | E : inbox _ = _ |- _ => rewrite E in *
         | E : ch _ = _ |- _ => rewrite E in *
         | E : (_ <? _)%nat = true |- _ => apply Nat.ltb_lt in E
         | E : (_ =? _) = true |- _ => apply Z.eqb_eq in E
         | E : (_ =? _) = false |- _ => apply Z.eqb_neq in E
         | E : (_ <=? _) = true |- _ => apply Z.leb_le in E
         | E : (_ <=? _) = false |- _ => apply Z.leb_gt in E
         end.
  all: simpl in Hg2, Hg3; destruct_and?; destruct_exists;
    try contradiction.
  all: repeat match goal with
         | E : start _ = _ |- _ => rewrite E in *
         | E : end_ _ = _ |- _ => rewrite E in *
         end.
  all: rewrite ?int_small in * by (unfold Go.max_int in *; lia).
  all: cbn [olist app] in *.
  all: match goal with
       | |- _ /\ _ /\ _ /\ ?S /\ _ =>
           assert (Hst : S);
           [|repeat split; try exact Hst; try assumption; try lia;
             try (intros; lia); eauto]
       end.
  all: try (rewrite Hg4; f_equal;
            repeat match goal with
              | |- context [?a =? ?b] => destruct (Z.eqb_spec a b)
              end; lia).
  all: try (intros Hsub;
            repeat match goal with
              | H : subscribed _ = true -> _ |- _ => specialize (H Hsub)
              end;
            repeat match goal with
              | E : inbox _ = _ |- _ => rewrite E in *; clear E
              end;
            simpl in *; lia).
  all: rewrite !app_assoc in *; rewrite Hg4.
  - rewrite Hg5. replace (Z.to_nat (1 - numMsgs c)) with 0%nat by lia.
    reflexivity.
  - destruct (Z.eqb_spec (received w) 0); [lia|].
    replace (1 + Z.to_nat (received w - numMsgs c + 1))%nat
      with (S (S (Z.to_nat (received w - numMsgs c)))) by lia.
    change (1 + Z.to_nat (received w - numMsgs c))%nat
      with (S (Z.to_nat (received w - numMsgs c))).
    rewrite stamps_snoc. do 2 f_equal. lia.
Qed.

Lemma plain_gen_arrives (s : state) :
  arrives c m s ->
  Forall (plain_gen (numMsgs c) m (unpublished s)) (workers s).
Proof.
  induction 1 as [|l s s' _ IH Hstep].
  - simpl. apply Forall_replicate. unfold plain_gen, sent, nsent. simpl.
    repeat split; auto; lia.
  - eapply plain_gen_step; eassumption.
Qed.

(** The goroutine's [end] was sent by delivery number [numMsgs], its
    [start] by the first, whatever came after. *)
Lemma plain_end_general (s : state) (i : nat) (w : worker) (d : Z) :
  arrives c m s -> workers s !! i = Some w -> end_ w = Some d ->
  d = numMsgs c /\ start w = Some 1 /\ numMsgs c <= received w.
Proof.
  intros Hr Hw Hd.
  pose proof (Forall_lookup_1 _ _ _ _ (plain_gen_arrives s Hr) Hw)
    as (Hg1 & Hg2 & Hg3 & Hg4 & Hg5 & Hg6).
  assert (Ha : exists a, start w = Some a).
  { destruct (at_ w); destruct_and?; try contradiction; try congruence;
      assumption. }
  destruct Ha as [a Ha]. unfold sent, nsent in Hg4.
  rewrite Ha, Hd in Hg4. cbn [olist app] in Hg4.
  destruct (cb w); try discriminate;
    try (destruct (Z.eqb_spec (received w) 0); [discriminate|]).
  all: match type of Hg4 with
       | _ = stamps _ (1 + Z.to_nat ?e)%nat =>
           destruct (Z.to_nat e) as [|j] eqn:Ej; [discriminate|]
       end.
  all: simpl in Hg4; injection Hg4 as Ea Ed _; subst a d.
  all: repeat split; try lia; exact Ha.
Qed.

(** Before delivery number [numMsgs] no completion is sent. *)
Lemma plain_not_early_general (s : state) (i : nat) (w : worker) :
  arrives c m s -> workers s !! i = Some w ->
  received w < numMsgs c -> sent w = [] \/ sent w = [1].
Proof.
  intros Hr Hw Hlt.
  pose proof (Forall_lookup_1 _ _ _ _ (plain_gen_arrives s Hr) Hw)
    as (Hg1 & Hg2 & Hg3 & Hg4 & Hg5 & Hg6).
  rewrite Hg4. unfold nsent.
  destruct (cb w); try (destruct (Z.eqb_spec (received w) 0)); auto.
  all: match goal with
       | |- context [stamps _ (1 + Z.to_nat ?e)%nat] =>
           replace (Z.to_nat e) with 0%nat by lia
       end; auto.
Qed.

(** When no more than [numMsgs] messages reach the subject the callback
    sends one start and at most one completion. *)
Lemma plain_sent_exact (s : state) (i : nat) (w : worker) :
  arrives c m s -> workers s !! i = Some w ->
  Z.of_nat m <= numMsgs c ->
  sent w = [] \/ sent w = [1] \/ sent w = [1; numMsgs c].
Proof.
  intros Hr Hw Hle.
  pose proof (Forall_lookup_1 _ _ _ _ (plain_gen_arrives s Hr) Hw)
    as (Hg1 & Hg2 & Hg3 & Hg4 & Hg5 & Hg6).
  rewrite Hg4. unfold nsent.
  destruct (cb w); try (destruct (Z.eqb_spec (received w) 0)); auto.
  all: match goal with
       | |- context [stamps _ (1 + Z.to_nat ?e)%nat] =>
           destruct (Z.to_nat e) as [|[|j]] eqn:Ej; [| |lia]
       end; simpl; rewrite ?Z.add_0_r; auto.
Qed.

(** With fewer messages than the target the goroutine never gets its
    completion signal. *)
Lemma plain_short (s : state) (i : nat) (w : worker) :
  arrives c m s -> workers s !! i = Some w ->
  Z.of_nat m < numMsgs c -> end_ w = None /\ at_ w <> WFinished.
Proof.
  intros Hr Hw Hlt.
  pose proof (Forall_lookup_1 _ _ _ _ (plain_gen_arrives s Hr) Hw)
    as (Hg1 & Hg2 & _).
  assert (He : end_ w = None).
  { destruct (end_ w) as [d|] eqn:Hd; [|reflexivity].
    destruct (plain_end_general s i w d Hr Hw Hd) as (_ & _ & ?). lia. }
  split; [exact He|]. intros Hf.
  pose proof (Forall_lookup_1 _ _ _ _ (plain_gen_arrives s Hr) Hw)
    as (_ & _ & _ & _ & _ & Hg6).
  rewrite Hf in Hg6. destruct Hg6 as (_ & (b & Hb) & _). congruence.
Qed.

(** When at least [numMsgs] messages reach the subject, a subscriber
    that has not finished can go on, or the server or a publisher
    can. *)
Lemma plain_progress_general (s : state) (i : nat) (w : worker) :
  arrives c m s -> workers s !! i = Some w ->
  numMsgs c <= Z.of_nat m -> at_ w <> WFinished -> can_step c s.
Proof.
  intros Hr Hw Hle Hfin.
  destruct (waiting w) eqn:Hwait; [|eapply own_step; eassumption].
  destruct (ch w) as [|v rest] eqn:Ech;
    [|eapply recv_step; [exact Hw|exact Hwait|congruence]].
  pose proof (Forall_lookup_1 _ _ _ _ (plain_gen_arrives s Hr) Hw)
    as (Hg1 & Hg2 & Hg3 & Hg4 & Hg5 & Hg6).
  assert (Hsub : subscribed w = true).
  { unfold waiting in Hwait. destruct (at_ w); try discriminate;
      destruct_and?; assumption. }
  specialize (Hg3 Hsub). unfold can_step.
  destruct (cb w) eqn:Ecb.
  - destruct (inbox w) as [|k rest] eqn:Ei.
    2:{ exists (Deliver i). eexists. split; [reflexivity|].
        unfold step. rewrite Hw, Hsub, Ecb, Hq, Ei. reflexivity. }
    destruct (unpublished s) as [|u] eqn:Eu.
    2:{ exists Publish. eexists. split; [reflexivity|].
        unfold step. rewrite Eu. reflexivity. }
    exfalso. simpl in Hg3. unfold sent, nsent, waiting in *.
    rewrite Ech, Ecb in Hg4.
    destruct (Z.eqb_spec (received w) 0); [lia|].
    destruct (Z.to_nat (received w - numMsgs c + 1)) as [|j] eqn:Ej;
      [lia|].
    destruct (at_ w); try discriminate; destruct_and?; destruct_exists;
      repeat match goal with
        | E : start _ = _ |- _ => rewrite E in Hg4
        | E : end_ _ = _ |- _ => rewrite E in Hg4
        end; discriminate.
  - exists (FirstSend i). eexists. split; [reflexivity|].
    unfold step, send. rewrite Hw, Ecb, Ech. reflexivity.
  - exists (Compare i). eexists. split; [reflexivity|].
    unfold step. rewrite Hw, Ecb, Hq. reflexivity.
  - exists (LastSend i). eexists. split; [reflexivity|].
    unfold step, send. rewrite Hw, Ecb, Ech. reflexivity.
Qed.

Lemma plain_stuck_general (s : state) (i : nat) (w : worker) :
  arrives c m s -> workers s !! i = Some w ->
  numMsgs c <= Z.of_nat m -> stuck c s ->
  finished w /\ end_ w = Some (numMsgs c).
Proof.
  intros Hr Hw Hle Hstuck.
  assert (Hf : at_ w = WFinished).
  { destruct (at_ w) eqn:Eat; try reflexivity.
    all: destruct (plain_progress_general s i w Hr Hw Hle)
           as (l & s' & _ & Hs);
      [congruence|]; rewrite (Hstuck l) in Hs; discriminate. }
  split; [exact Hf|].
  pose proof (Forall_lookup_1 _ _ _ _ (plain_gen_arrives s Hr) Hw)
    as (_ & _ & _ & _ & _ & Hg6).
  rewrite Hf in Hg6. destruct Hg6 as (_ & (b & Hb) & _).
  destruct (plain_end_general s i w b Hr Hw Hb) as (-> & _). exact Hb.
Qed.

(** Line 259 runs once: the goroutine takes the completion signal only
    when it holds none, and what it takes is the signal of delivery
    number [numMsgs]. *)
Lemma plain_takes_once (s s' : state) (i : nat) (w : worker) :
  arrives c m s -> workers s !! i = Some w ->
  step c (RecvEnd i) s = Some s' ->
  end_ w = None /\
  exists w', workers s' !! i = Some w' /\ end_ w' = Some (numMsgs c) /\
             at_ w' = WSample.
Proof.
  intros Hr Hw Hstep.
  assert (Hr' : arrives c m s') by (eapply arr_step; eassumption).
  pose proof (Forall_lookup_1 _ _ _ _ (plain_gen_arrives s Hr) Hw)
    as (_ & _ & _ & _ & _ & Hg6).
  unfold step in Hstep. rewrite Hw in Hstep.
  destruct (at_ w) eqn:Eat; try discriminate.
  destruct (ch w) as [|v rest] eqn:Ech; try discriminate.
  injection Hstep as <-. split; [apply Hg6|].
  eexists. split; [apply list_lookup_insert_eq; eapply lookup_lt_Some, Hw|].
  assert (Hw' : workers (put i (set_at WSample (set_end v (set_ch rest w))) s)
                !! i = Some (set_at WSample (set_end v (set_ch rest w)))).
  { apply list_lookup_insert_eq. eapply lookup_lt_Some, Hw. }
  destruct (plain_end_general _ i _ v Hr' Hw' eq_refl) as (-> & _).
  split; reflexivity.
Qed.

End GeneralPlain.

(** ** Runs on any subject: what a sample records *)

Section GeneralSamples.

Import Sub SubInv SubProps Env General.

Variable c : config.
Variable m : nat.






Lemma length_route (k : message) (s : state) :
  length (workers (route c k s)) = length (workers s).
Proof.
  unfold route. destruct (isQueue c); simpl; [reflexivity|].
  apply length_map.
Qed.














(** *** No delivery overflows [received] *)





End GeneralSamples.

(** ** The claims about the subscribers *)

Section SubscriberClaims.

Import Sub SubInv.

Variable c : config.


(** What a member has done adds up: it stays, or it has left as the
    last one, or it has left and may have sent its sentinel. *)
Lemma member_account (q : Z) (w : worker) :
  member_ok q w -> sent_sentinel w + left_last w + staying w <= 1.
Proof.
  unfold member_ok, sent_sentinel, left_last, staying.
  intros (_ & _ & _ & _ & Hp).
  destruct (at_ w); destruct_exists;
    repeat match goal with E : sr w = _ |- _ => rewrite E end;
    repeat case_match; lia.
Qed.

Lemma sentinels_bound (s : state) :
  queue_run c -> queue_inv c s ->
  sentinels (trace s) <= Z.max 0 (numSubs c - 1).
Proof.
  intros Hrun Hinv. destruct Hrun as [Hq Hn Hk Hfit].
  rewrite (q_sentinels _ _ Hinv).
  pose proof (total_range sent_sentinel (workers s) sent_sentinel_range).
  pose proof (total_range left_last (workers s) left_last_range).
  pose proof (total_range staying (workers s) staying_range).
  assert (Hsum : total (fun w => sent_sentinel w + left_last w + staying w)
                   (workers s) <= Z.of_nat (length (workers s))).
  { apply total_length. eapply Forall_impl; [exact (q_members _ _ Hinv)|].
    intros w Hw. eapply member_account, Hw. }
  rewrite (total_add (fun w => sent_sentinel w + left_last w)), total_add
    in Hsum.
  pose proof (q_length _ _ Hinv) as Hlen.
  pose proof (q_left _ _ Hinv) as Hleft.
  pose proof (q_last _ _ Hinv) as Hlast.
  lia.
Qed.

(** C3, amended. In a queue-group run on a subject that [m] messages
    reach, retained before the run or published during it, with counters
    that fit 32 bits, whether or not a sentinel publish fails:
    [qSubsLeft] starts at the number of subscribers, stays between 0 and
    that number, and no step increases it; no step decreases
    [qTotalRecv], which never exceeds [m] plus the number of sentinels
    published so far; and at most one sentinel less than there are
    subscribers is ever published.  When the subject starts empty and
    the run publishes its [numMsgs] messages, [m] is [numMsgs]. *)
Theorem queue_counters (m : nat) (s : state) :
  isQueue c = true -> 0 <= numSubs c ->
  Z.of_nat m + numSubs c <= Go.max_int32 ->
  Env.arrives c m s ->
  qSubsLeft (Env.initial c m) = numSubs c /\
  0 <= qSubsLeft s <= numSubs c /\
  0 <= qTotalRecv s <= Z.of_nat m + sentinels (trace s) /\
  sentinels (trace s) <= Z.max 0 (numSubs c - 1) /\
  (forall l s', step c l s = Some s' ->
     qSubsLeft s' <= qSubsLeft s /\ qTotalRecv s <= qTotalRecv s').
Proof.
  intros Hq Hk Hfit Hr.
  pose proof (group_inv_arrives c m Hq Hk Hfit s Hr) as Hinv.
  edestruct (group_bounds c m) as (Hb1 & Hb2 & _); [eassumption..|].
  pose proof (General.g_nonneg _ _ _ Hinv) as Hnn.
  pose proof (total_range counting (workers s) counting_range) as Hc.
  split; [|split; [exact Hb1|split; [lia|split]]].
  - simpl. rewrite Hq. apply int32_small.
    unfold Go.max_int32 in *. lia.
  - eapply group_sentinels; eassumption.
  - intros l s' Hstep. eapply group_monotone; eassumption.
Qed.

(** C4, amended. In a queue-group run with at least one message, in
    which all publishes succeed: the increments of [qTotalRecv] have
    returned 1, 2, ... up to its current value, each once and in this
    order, so the target is returned once as soon as it is reached and
    never again; at most one sentinel less than there are members is
    published; a run has no more steps than the measure of its first
    state; as long as a member has not finished a step is possible, so a
    run that cannot go on has every member finished, and has reached the
    target if it has a member at all. *)
Theorem queue_group_completes (s : state) :
  queue_run c -> reachable_ok c s ->
  rev (counts (trace s)) = map Z.of_nat (seq 1 (Z.to_nat (qTotalRecv s))) /\
  count_occ Z.eq_dec (counts (trace s)) (numMsgs c)
  = (if numMsgs c <=? qTotalRecv s then 1%nat else 0%nat) /\
  sentinels (trace s) <= Z.max 0 (numSubs c - 1) /\
  (measure s <= measure (init c))%nat /\
  (forall ls s', exec c ls s = Some s' -> (length ls <= measure s)%nat) /\
  (forall i w, workers s !! i = Some w -> at_ w <> WFinished ->
               can_step c s) /\
  (stuck c s ->
   Forall finished (workers s) /\
   (1 <= numSubs c -> numMsgs c <= qTotalRecv s)).
Proof.
  intros Hrun Hok. pose proof (reachable_ok_reachable c s Hok) as Hr.
  pose proof (reachable_ok_lost c s Hok) as Hlost.
  pose proof (queue_inv_reachable c Hrun s Hr) as Hinv.
  pose proof (q_nonneg _ _ Hinv) as Hnn.
  split; [|split; [|split; [|split; [|split; [|split]]]]].
  - rewrite (q_counts _ _ Hinv). apply rev_countdown.
  - rewrite (q_counts _ _ Hinv), count_countdown.
    rewrite Z2Nat.id by exact Hnn.
    destruct (Z.leb_spec 1 (numMsgs c)) as [_|Hlt];
      [reflexivity|destruct Hrun; lia].
  - apply sentinels_bound; assumption.
  - apply measure_reachable, Hr.
  - intros ls s' He. pose proof (exec_measure c ls s s' He). lia.
  - intros i w Hw Hfin. eapply queue_progress; eassumption.
  - intros Hstuck.
    pose proof (queue_stuck_finished c Hrun s Hinv Hlost Hstuck) as Hall.
    split; [exact Hall|]. intros Hk.
    destruct (Z_lt_le_dec (qTotalRecv s) (numMsgs c)) as [Hlt|]; [|lia].
    exfalso. destruct (q_before _ _ Hinv Hlt) as (Hwait & _).
    pose proof (q_length _ _ Hinv) as Hlen.
    destruct (workers s) as [|w ws] eqn:Ews; [simpl in Hlen; lia|].
    apply Forall_cons in Hall as [Hf _]. apply Forall_cons in Hwait as [Hw _].
    unfold finished in Hf. unfold waiting in Hw. rewrite Hf in Hw.
    discriminate.
Qed.

(** C5, amended. A subscriber without a queue group, with a target of
    at least one, on a subject that [m] messages reach.  Its callback
    puts on the channel the start signal, from the first delivery, then
    a signal from delivery number [numMsgs] and from every delivery
    after it, and nothing before that delivery.  The goroutine takes a
    completion signal once, at line 259, and what it takes is the signal
    of delivery number [numMsgs], not of an earlier or a later one.  With
    at least [numMsgs] messages a subscriber that has not finished can
    always go on, so that a run that cannot go on has every subscriber
    finished with that signal; with fewer it never takes one; with
    exactly [numMsgs] the callback sends one completion and no more. *)
Theorem plain_completion_signal (m : nat) (s : state) (i : nat)
        (w : worker) :
  isQueue c = false -> 1 <= numMsgs c -> Z.of_nat m <= Go.max_int ->
  Env.arrives c m s -> workers s !! i = Some w ->
  sent w = General.stamps (numMsgs c) (General.nsent (numMsgs c) w) /\
  (received w < numMsgs c -> sent w = [] \/ sent w = [1]) /\
  (forall d, end_ w = Some d ->
             d = numMsgs c /\ start w = Some 1 /\
             numMsgs c <= received w) /\
  (forall s', step c (RecvEnd i) s = Some s' ->
     end_ w = None /\
     exists w', workers s' !! i = Some w' /\
                end_ w' = Some (numMsgs c) /\ at_ w' = WSample) /\
  (numMsgs c <= Z.of_nat m -> at_ w <> WFinished -> can_step c s) /\
  (numMsgs c <= Z.of_nat m -> stuck c s ->
   finished w /\ end_ w = Some (numMsgs c)) /\
  (Z.of_nat m < numMsgs c -> end_ w = None /\ at_ w <> WFinished) /\
  (Z.of_nat m <= numMsgs c ->
   sent w = [] \/ sent w = [1] \/ sent w = [1; numMsgs c]).
Proof.
  intros Hq Hn Hfit Hr Hw.
  pose proof (Forall_lookup_1 _ _ _ _
                (plain_gen_arrives c m Hq Hn Hfit s Hr) Hw)
    as (_ & _ & _ & Hs & _).
  split; [exact Hs|].
  split; [eapply plain_not_early_general; eassumption|].
  split; [intros d Hd; eapply plain_end_general; eassumption|].
  split; [intros s' Hstep; eapply plain_takes_once; eassumption|].
  split; [intros Hle Hf; eapply plain_progress_general; eassumption|].
  split; [intros Hle Hst; eapply plain_stuck_general; eassumption|].
  split; [intros Hlt; eapply plain_short; eassumption|].
  intros Hle. eapply plain_sent_exact; eassumption.
Qed.



End SubscriberClaims.

(** ** The example runs *)

Lemma cascade_reachable :
  Sub.reachable_ok Examples.two_members Examples.cascade_end.
Proof.
  apply (run_reachable_ok Examples.two_members Examples.cascade
           (Sub.init Examples.two_members));
    [reflexivity|apply Sub.ok_init|reflexivity].
Qed.

Lemma lost_sentinel_reachable :
  Sub.reachable Examples.two_members Examples.lost_sentinel_end.
Proof.
  apply (run_reachable Examples.two_members Examples.lost_sentinel
           (Sub.init Examples.two_members));
    [apply Sub.reach_init|reflexivity].
Qed.

Lemma both_messages_reachable :
  Sub.reachable Examples.one_plain Examples.both_messages_end.
Proof.
  apply (run_reachable Examples.one_plain Examples.both_messages
           (Sub.init Examples.one_plain));
    [apply Sub.reach_init|reflexivity].
Qed.

Lemma one_sided_reachable :
  Sub.reachable_ok Examples.two_messages Examples.one_sided_end.
Proof.
  apply (run_reachable_ok Examples.two_messages Examples.one_sided
           (Sub.init Examples.two_messages));
    [reflexivity|apply Sub.ok_init|reflexivity].
Qed.

Lemma run_arrives (c : Sub.config) (m : nat) (ls : list Sub.label)
      (s s' : Sub.state) :
  Env.arrives c m s -> Sub.exec c ls s = Some s' -> Env.arrives c m s'.
Proof.
  revert s. induction ls as [|l ls IH]; intros s Hr He; simpl in He.
  - injection He as <-. exact Hr.
  - destruct (Sub.step c l s) as [s1|] eqn:Hs; [|discriminate].
    apply (IH s1); [|exact He]. eapply Env.arr_step; eassumption.
Qed.

Lemma late_delivery_arrives :
  Env.arrives Examples.one_plain 3 Surplus.late_delivery_end.
Proof.
  apply (run_arrives Examples.one_plain 3 Surplus.late_delivery
           (Env.initial Examples.one_plain 3));
    [apply Env.arr_initial|reflexivity].
Qed.

Lemma crowded_arrives :
  Env.arrives Examples.two_members 3 Surplus.crowded_end.
Proof.
  apply (run_arrives Examples.two_members 3 Surplus.crowded
           (Env.initial Examples.two_members 3));
    [apply Env.arr_initial|reflexivity].
Qed.


(** With a third message on the subject the sample counts three
    deliveries, although the completion signal came from the second. *)
Example late_delivery_sample :
  SubInv.samples 0 (Sub.trace Surplus.late_delivery_end)
  = [Bench.NewSample 3 128 1 2] /\
  Sub.numMsgs Examples.one_plain = 2.
Proof. split; reflexivity. Qed.

Lemma two_members_queue_run : SubInv.queue_run Examples.two_members.
Proof. split; [reflexivity|unfold Go.max_int32; simpl; lia..]. Qed.

Lemma one_plain_run : SubInv.plain_run Examples.one_plain.
Proof. split; [reflexivity|simpl; lia|simpl; unfold Go.max_int; lia]. Qed.

(** A state in which every worker index is out of steps. *)
Ltac no_step :=
  let l := fresh "l" in
  intros l;
  destruct l as [|[|[|i]]|[|[|i]]|[|[|i]]|[|[|i]]|[|[|i]]|[|[|i]]
                |[|[|i]]|[|[|i]]|[|[|i]]|[|[|i]] ok|[|[|i]]|[|[|i]]];
  reflexivity.

(** ** Witnesses and counterexamples *)

Lemma MsgsPerClient_even_split_witness :
  0 <= 10 /\ 0 < 4 /\
  sumZ (Bench.MsgsPerClient 10 4) = 10 /\
  maxZ (Bench.MsgsPerClient 10 4) - minZ (Bench.MsgsPerClient 10 4) <= 1.
Proof.
  assert (H0 : 0 <= 10) by lia. assert (H1 : 0 < 4) by lia.
  destruct (MsgsPerClient_even_split 10 4 H0 H1) as (_ & Hs & Hm & _).
  auto.
Defined.

(** C9, as stated, fails: a TLS URL with a credentials file and no
    certificate material is turned away, although the stated rule lets it
    pass. *)
Lemma tls_with_creds_only_rejected :
  ~ (Args.setup (fun _ => []) Examples.tls_with_creds = Args.Usage <->
     Args.spec_rejects Examples.tls_with_creds).
Proof.
  intros [Hrej _]. specialize (Hrej eq_refl).
  unfold Args.spec_rejects in Hrej. simpl in Hrej.
  destruct Hrej as [H|(_ & H & _)]; [lia|discriminate].
Qed.

Lemma async_empty_share_never_completes_witness :
  Pub.sync (Examples.no_message false) = false /\
  Pub.numMsgs (Examples.no_message false) <= 0 /\
  exists s,
    Pub.exec (Examples.no_message false)
      [Pub.NatsConnect true; Pub.StanConnect true; Pub.StartDone;
       Pub.Prepare; Pub.LoopExit] Pub.init = Some s /\
    Pub.at_ s = Pub.PWait /\ ~ Pub.completed s /\
    Pub.stuck (Examples.no_message false) s.
Proof.
  split; [reflexivity|]. split; [simpl; lia|].
  destruct (Pub.exec (Examples.no_message false)
              [Pub.NatsConnect true; Pub.StanConnect true; Pub.StartDone;
               Pub.Prepare; Pub.LoopExit] Pub.init) as [s|] eqn:E;
    [|discriminate E].
  exists s. split; [reflexivity|].
  assert (Hw : Pub.at_ s = Pub.PWait) by (injection E as <-; reflexivity).
  assert (Hr : Pub.reachable (Examples.no_message false) s)
    by (eapply exec_reachable; [apply Pub.reach_init|exact E]).
  destruct (async_empty_share_never_completes (Examples.no_message false) s
              eq_refl ltac:(simpl; lia) Hr) as (Hc & _ & Hst).
  auto.
Defined.

(** The synchronous loop has no such gap: with a share of zero it goes
    straight to its sample. *)
Example sync_empty_share_completes :
  exists s,
    Pub.exec (Examples.no_message true)
      [Pub.NatsConnect true; Pub.StanConnect true; Pub.StartDone;
       Pub.Prepare; Pub.LoopExit; Pub.AddSample; Pub.Close; Pub.Done]
      Pub.init = Some s /\
    Pub.completed s /\ length (Pub.samples (Pub.events s)) = 1%nat.
Proof. eexists. split; [reflexivity|]. split; reflexivity. Qed.

(** C8, as stated, fails: with the default size of 128 bytes the one
    message of this run is 1912 bytes long. *)
Lemma payload_size_not_configured :
  ~ PubInv.payload_as_configured (Examples.one_message true).
Proof.
  intros Hclaim.
  destruct (Pub.exec (Examples.one_message true)
              [Pub.NatsConnect true; Pub.StanConnect true; Pub.StartDone;
               Pub.Prepare; Pub.Call true] Pub.init) as [s|] eqn:E;
    [|discriminate E].
  assert (Hr : Pub.reachable (Examples.one_message true) s)
    by (eapply exec_reachable; [apply Pub.reach_init|exact E]).
  specialize (Hclaim s Payload.literal Hr).
  injection E as <-. simpl in Hclaim.
  specialize (Hclaim (or_introl eq_refl)). discriminate Hclaim.
Qed.

Lemma published_payload_fixed_witness :
  0 < Pub.msgSize (Examples.one_message false) /\
  exists s,
    Pub.exec (Examples.one_message false)
      [Pub.NatsConnect true; Pub.StanConnect true; Pub.StartDone;
       Pub.Prepare; Pub.Call true] Pub.init = Some s /\
    Pub.payloads (Pub.events s) = [Payload.literal] /\
    length Payload.literal = 1912%nat.
Proof.
  split; [reflexivity|].
  destruct (Pub.exec (Examples.one_message false)
              [Pub.NatsConnect true; Pub.StanConnect true; Pub.StartDone;
               Pub.Prepare; Pub.Call true] Pub.init) as [s|] eqn:E;
    [|discriminate E].
  exists s. split; [reflexivity|].
  assert (Hr : Pub.reachable (Examples.one_message false) s)
    by (eapply exec_reachable; [apply Pub.reach_init|exact E]).
  assert (Hp : Pub.payloads (Pub.events s) = [Payload.literal])
    by (injection E as <-; reflexivity).
  split; [exact Hp|].
  refine (proj2 (published_payload_fixed (Examples.one_message false) s
                   Payload.literal _ Hr _)).
  - reflexivity.
  - rewrite Hp. left. reflexivity.
Defined.


(** C3, as stated, fails: the sentinel that wakes the second member is
    counted like any message, which takes [qTotalRecv] to 2 in a run of
    one message. *)
Lemma delivered_exceeds_total :
  ~ SubInv.delivered_within_total Examples.two_members.
Proof.
  intros Hclaim. specialize (Hclaim _ cascade_reachable).
  simpl in Hclaim. lia.
Qed.

Lemma queue_counters_witness :
  Sub.isQueue Examples.two_members = true /\
  0 <= Sub.numSubs Examples.two_members /\
  Sub.numMsgs Examples.two_members = 1 /\
  Sub.qTotalRecv Surplus.crowded_end = 2 /\
  Sub.sentinels (Sub.trace Surplus.crowded_end) = 0 /\
  Sub.qTotalRecv Surplus.crowded_end
  <= 3 + Sub.sentinels (Sub.trace Surplus.crowded_end).
Proof.
  split; [reflexivity|]. split; [simpl; lia|]. split; [reflexivity|].
  split; [reflexivity|]. split; [reflexivity|].
  refine (proj2 (proj1 (proj2 (proj2
            (queue_counters Examples.two_members 3
               Surplus.crowded_end _ _ _ _))))).
  - reflexivity.
  - simpl. lia.
  - simpl. unfold Go.max_int32. lia.
  - exact crowded_arrives.
Defined.

(** C4, as stated, fails: with a target of zero no message is ever
    delivered and the member waits for its start signal for good. *)
Lemma idle_group_blocks : ~ SubInv.all_members_complete Examples.idle_group.
Proof.
  intros Hclaim.
  specialize (Hclaim (Sub.init Examples.idle_group)
                (Sub.ok_init Examples.idle_group)
                (init_stuck Examples.idle_group ltac:(simpl; lia))).
  apply Forall_cons in Hclaim as [Hf _]. discriminate Hf.
Qed.

Lemma queue_group_completes_witness :
  SubInv.queue_run Examples.two_members /\
  Sub.stuck Examples.two_members Examples.cascade_end /\
  Forall Sub.finished (Sub.workers Examples.cascade_end) /\
  count_occ Z.eq_dec (Sub.counts (Sub.trace Examples.cascade_end)) 1
  = 1%nat.
Proof.
  assert (Hst : Sub.stuck Examples.two_members Examples.cascade_end)
    by no_step.
  split; [exact two_members_queue_run|]. split; [exact Hst|].
  destruct (queue_group_completes Examples.two_members Examples.cascade_end
              two_members_queue_run cascade_reachable)
    as (_ & Hc & _ & _ & _ & _ & Hs).
  split; [exact (proj1 (Hs Hst))|exact Hc].
Defined.

(** C5, as stated, fails: with a target of zero the subscriber never
    receives a completion signal. *)
Lemma idle_subscriber_blocks :
  ~ SubInv.signalled_at_target Examples.idle_plain.
Proof.
  intros Hclaim.
  specialize (Hclaim (Sub.init Examples.idle_plain)
                (Sub.ok_init Examples.idle_plain)
                (init_stuck Examples.idle_plain ltac:(simpl; lia))).
  apply Forall_cons in Hclaim as [Hf _]. discriminate Hf.
Qed.

Lemma plain_completion_signal_witness :
  Sub.isQueue Examples.one_plain = false /\
  1 <= Sub.numMsgs Examples.one_plain /\
  exists w,
    Sub.workers Surplus.late_delivery_end !! 0%nat = Some w /\
    Sub.received w = 3 /\ SubInv.sent w = [1; 2; 3] /\
    Sub.end_ w = Some 2 /\ 2 = Sub.numMsgs Examples.one_plain.
Proof.
  split; [reflexivity|]. split; [simpl; lia|].
  eexists. split; [reflexivity|]. split; [reflexivity|].
  split; [reflexivity|]. split; [reflexivity|].
  refine (proj1 (proj1 (proj2 (proj2
            (plain_completion_signal Examples.one_plain 3
               Surplus.late_delivery_end 0 _ _ _ _ _ _))) 2 _)).
  - reflexivity.
  - simpl. lia.
  - unfold Go.max_int. simpl. lia.
  - exact late_delivery_arrives.
  - reflexivity.
  - reflexivity.
Defined.

(** C7, at the sentinel. In a run of two members and one message the
    publish of the first member's sentinel fails.  The member goes on to
    close its connections and to call [donewg.Done()], its sample stays
    with the benchmark, and nothing ends the process; the other member has
    had no message and no step is possible any more: it waits for good. *)
Theorem sentinel_publish_error_dropped :
  Sub.exec Examples.two_members Examples.lost_sentinel
    (Sub.init Examples.two_members) = Some Examples.lost_sentinel_end /\
  In (Sub.EvSentinel 0 false) (Sub.trace Examples.lost_sentinel_end) /\
  (exists w0 w1,
     Sub.workers Examples.lost_sentinel_end = [w0; w1] /\
     Sub.finished w0 /\ Sub.at_ w1 = Sub.WStart /\ Sub.received w1 = 0) /\
  length (SubInv.samples 0 (Sub.trace Examples.lost_sentinel_end)) = 1%nat /\
  Sub.stuck Examples.two_members Examples.lost_sentinel_end.
Proof.
  split; [reflexivity|]. split; [simpl; tauto|].
  split; [do 2 eexists; repeat split; reflexivity|].
  split; [reflexivity|]. no_step.
Qed.



(** ** Connect options *)

Section ConnectOptions.

Import Args.

Variable glob : string -> list string.

Lemma prefix_spec (p s : string) :
  String.prefix p s = true <-> exists post, s = String.append p post.
Proof.
  revert s. induction p as [|a p IH]; intros s.
  - split; [intros _; exists s; reflexivity|].
    intros _. destruct s; reflexivity.
  - destruct s as [|b s]; simpl.
    + split; [discriminate|]. intros [post H]. discriminate.
    + destruct (Ascii.ascii_dec a b) as [->|Hne].
      * rewrite IH. split; intros [post H]; exists post; congruence.
      * split; [discriminate|]. intros [post H]. congruence.
Qed.

(** [strings.Contains] finds exactly the strings that have [sub]
    somewhere inside. *)
Lemma Contains_spec (s sub : string) :
  Go.Contains s sub = true <->
  exists pre post, s = String.append pre (String.append sub post).
Proof.
  induction s as [|a s IH]; cbn [Go.Contains].
  - rewrite orb_false_r, prefix_spec. split.
    + intros [post H]. exists EmptyString, post. exact H.
    + intros (pre & post & H). destruct pre; [exists post; exact H|].
      discriminate.
  - rewrite orb_true_iff, prefix_spec, IH. split.
    + intros [[post H]|(pre & post & H)].
      * exists EmptyString, post. exact H.
      * exists (String a pre), post. simpl. congruence.
    + intros (pre & post & H). destruct pre as [|b pre].
      * left. exists post. exact H.
      * right. exists pre, post. simpl in H. congruence.
Qed.

(** X1. The certificate check of [main] is made on every value of [-s]
    that has [tls://] anywhere inside, be it in the second URL of a list
    or in the middle of a host name, and on no other. *)
Theorem tls_anywhere_in_urls (f : flags) :
  length (args f) = 1%nat ->
  (setup glob f = Usage <->
   (exists pre post,
      urls f = String.append pre (String.append "tls://" post)) /\
   certDir f = EmptyString /\
   (certFile f = EmptyString \/ certKey f = EmptyString)).
Proof.
  intros Hlen. rewrite <- Contains_spec. unfold setup.
  rewrite Hlen. simpl.
  destruct (Go.Contains (urls f) "tls://") eqn:Htls.
  - rewrite tls_branch. intuition congruence.
  - split; [discriminate|]. intros [? _]. congruence.
Qed.

Lemma nonempty_true (s : string) :
  Go.nonempty s = true <-> s <> EmptyString.
Proof. destruct s; simpl; split; congruence. Qed.

(** The tests of lines 83-108 that a call of [setup] went through, as
    propositions about the flags. *)
Ltac decide_flags H :=
  unfold setup in H;
  repeat (case_match; try discriminate); simplify_eq;
  repeat match goal with
    | E : negb _ = true |- _ => apply negb_true_iff in E
    | E : negb _ = false |- _ => apply negb_false_iff in E
    | E : _ && _ = true |- _ => apply andb_true_iff in E as [? ?]
    | E : _ && _ = false |- _ => apply andb_false_iff in E as [?|?]
    | E : String.eqb _ _ = true |- _ => apply String.eqb_eq in E
    | E : String.eqb _ _ = false |- _ => apply String.eqb_neq in E
    | E : Go.nonempty _ = true |- _ => apply nonempty_true in E
    | E : Go.nonempty _ = false |- _ => apply nonempty_spec in E
    end.

(** X2. The options [main] hands to its workers start with the
    connection name.  The credentials file is among them exactly when
    [-creds] is not empty; user and password exactly when both [-u] and
    [-pw] are not empty, so a user name without a password is left out
    without a word. *)
Theorem auth_options (f : flags) (opts : list option_) :
  setup glob f = Proceed opts ->
  hd_error opts = Some (Name "NATS Streaming Benchmark") /\
  (forall file, In (UserCredentials file) opts <->
                file = userCreds f /\ file <> EmptyString) /\
  (forall u pw, In (UserInfo u pw) opts <->
                u = user f /\ pw = pswd f /\
                u <> EmptyString /\ pw <> EmptyString).
Proof.
  intros H. decide_flags H.
  all: split; [reflexivity|]; split; intros; simpl;
    intuition (subst; simplify_eq; try congruence; auto).
Qed.

(** X3. Certificates are used for TLS URLs only, and the directory of
    [-cd] takes precedence: the root certificates are the [*.pem] files
    of that directory whenever it is given, and the client certificate of
    [-cf] and [-ck] is used only when no directory is given.  Without
    [tls://] in [-s] the three flags are ignored. *)
Theorem tls_options (f : flags) (opts : list option_) :
  setup glob f = Proceed opts ->
  (forall files, In (RootCAs files) opts <->
     Go.Contains (urls f) "tls://" = true /\ certDir f <> EmptyString /\
     files = glob (certDir f)) /\
  (forall cert key, In (ClientCert cert key) opts <->
     Go.Contains (urls f) "tls://" = true /\ certDir f = EmptyString /\
     cert = certFile f /\ key = certKey f).
Proof.
  intros H. decide_flags H.
  all: split; intros; simpl;
    intuition (subst; simplify_eq; try congruence; auto).
Qed.

End ConnectOptions.

(** ** Client IDs *)

Section ClientIDs.

Import Main.

Variable clientID : string.

Lemma append_cancel (s a b : string) :
  String.append s a = String.append s b -> a = b.
Proof. induction s as [|c s IH]; simpl; [auto|]. intros H. apply IH. congruence. Qed.

Lemma decimal_inj (i j : nat) : decimal i = decimal j -> i = j.
Proof.
  unfold decimal. intros H. apply DecimalNat.Unsigned.to_uint_inj.
  apply (f_equal NilEmpty.uint_of_string) in H.
  rewrite !NilEmpty.usu in H. congruence.
Qed.

Lemma subID_inj (i j : nat) : subID clientID i = subID clientID j -> i = j.
Proof.
  unfold subID. intros H. apply append_cancel in H.
  apply (append_cancel "-sub-") in H. apply decimal_inj, H.
Qed.

Lemma pubID_inj (i j : nat) : pubID clientID i = pubID clientID j -> i = j.
Proof.
  unfold pubID. intros H. apply append_cancel in H.
  apply (append_cancel "-pub-") in H. apply decimal_inj, H.
Qed.

Lemma subID_not_pubID (i j : nat) : subID clientID i <> pubID clientID j.
Proof.
  unfold subID, pubID. intros H. apply append_cancel in H. discriminate H.
Qed.

(** X4. The client IDs [main] gives to the subscribers and publishers it
    starts are pairwise different, whatever the base ID of [-id] and
    however many workers there are. *)
Theorem worker_ids_distinct (numSubs numPubs : Z) :
  List.NoDup (workerIDs clientID numSubs numPubs) /\
  length (workerIDs clientID numSubs numPubs)
  = (Z.to_nat numSubs + Z.to_nat numPubs)%nat.
Proof.
  unfold workerIDs. split.
  - apply NoDup_ListNoDup, NoDup_app. split; [|split].
    + apply (NoDup_fmap_2_strong (subID clientID)); [|apply NoDup_seq].
      intros i j _ _. apply subID_inj.
    + intros x Hs Hp.
      apply (list_elem_of_fmap_1 (subID clientID)) in Hs as (i & -> & _).
      apply (list_elem_of_fmap_1 (pubID clientID)) in Hp as (j & Hp & _).
      exact (subID_not_pubID i j Hp).
    + apply (NoDup_fmap_2_strong (pubID clientID)); [|apply NoDup_seq].
      intros i j _ _. apply pubID_inj.
  - rewrite length_app, !length_map, !length_seq. reflexivity.
Qed.

End ClientIDs.

(** ** The publisher: errors, samples, the two loops *)

Section PublisherProps.

Import Pub PubInv PubProps.

Variable p : params.

(** X5. A step of the publisher on which the collaborator reported an
    error (a failed connect, a publish call that returned an error, or
    an acknowledgment with an error) ends in [log.Fatal].  After it
    nothing happens any more: no sample, no [donewg.Done()]. *)
Theorem error_is_fatal (l : label) (s s' : state) :
  step p l s = Some s' -> failing l = true ->
  at_ s' = PFatal /\ events s' = EvFatal :: events s /\ stuck p s'.
Proof.
  intros Hstep Hfail. unfold step, running in Hstep.
  destruct l as [[]|[]| | |[]| |[]| | | |]; try discriminate Hfail;
    destruct (at_ s) eqn:Eat;
    try discriminate; repeat (case_match; try discriminate);
    simplify_eq; simpl; rewrite ?Eat.
  all: split; [reflexivity|].
  all: split; [reflexivity|apply fatal_stuck; reflexivity].
Qed.

Lemma sample_shape_reachable (s : state) :
  reachable p s -> sample_shape p s.
Proof.
  induction 1 as [|l s s' Hr IH Hstep].
  - unfold sample_shape. simpl. split; [lia|exact I].
  - unfold step, running in Hstep.
    destruct l; destruct (at_ s) eqn:Eat; try discriminate;
      repeat (case_match; try discriminate); simplify_eq.
    all: unfold sample_shape in *; rewrite Eat in IH;
      cbn [at_ published unacked acb_sending events start msg now
           goto fatal set_msg set_counters samples app] in *.
    all: destruct (samples (events s)) as [|x [|y k]];
      cbn [Bench.JobMsgCnt Bench.MsgSize Bench.Start Bench.End];
      destruct_and?; try contradiction; rewrite ?Eat;
      repeat split; try assumption; try reflexivity; try lia.
Qed.

(** X6. A publisher hands in at most one sample.  It records the share
    [numMsgs] and the size of [-ms] that [runPublisher] was called with,
    not the length of what was sent, and its end is not before its
    start. *)
Theorem publisher_sample (s : state) (x : Bench.Sample) :
  reachable p s -> In x (samples (events s)) ->
  samples (events s) = [x] /\
  Bench.JobMsgCnt x = numMsgs p /\ Bench.MsgSize x = msgSize p /\
  Bench.Start x <= Bench.End x.
Proof.
  intros Hr Hin. destruct (sample_shape_reachable s Hr) as (_ & Hs).
  destruct (samples (events s)) as [|y [|z l]]; try contradiction.
  destruct Hin as [->|[]]. tauto.
Qed.

(** X7. When the size of [-ms] is zero or negative, every message is
    published with an empty payload. *)
Theorem nonpositive_size_empty_payload (s : state) (m : list Z) :
  msgSize p <= 0 -> reachable p s -> In m (payloads (events s)) ->
  m = [].
Proof.
  intros HS Hr Hin. destruct (payload_inv_reachable p s Hr) as [Hall _].
  rewrite List.Forall_forall in Hall. rewrite (Hall m Hin).
  unfold Payload.msg. destruct (Z.gtb_spec (msgSize p) 0); [lia|].
  reflexivity.
Qed.

(** Boolean tests among the hypotheses, as propositions. *)
Ltac tests :=
  repeat match goal with
    | H : _ && _ = true |- _ => apply andb_true_iff in H as [? ?]
    | H : negb _ = true |- _ => apply negb_true_iff in H
    | H : (_ <? _) = true |- _ => apply Z.ltb_lt in H
    | H : (_ <? _) = false |- _ => apply Z.ltb_ge in H
    | H : (_ <=? _) = true |- _ => apply Z.leb_le in H
    | H : (_ <=? _) = false |- _ => apply Z.leb_gt in H
    end.

Lemma sync_inv_reachable (s : state) :
  sync p = true -> 0 <= numMsgs p <= Go.max_int ->
  reachable p s -> sync_inv p s.
Proof.
  intros Hsync [Hlo Hhi]. induction 1 as [|l s s' Hr IH Hstep].
  - unfold sync_inv. simpl. repeat split; lia.
  - unfold step, running in Hstep. rewrite ?Hsync in Hstep.
    destruct l; destruct (at_ s) eqn:Eat; try discriminate;
      repeat (case_match; try discriminate); simplify_eq.
    all: unfold sync_inv in *; rewrite Eat in IH;
      cbn [at_ published unacked acb_sending events start msg now
           goto fatal set_msg set_counters samples payloads app length]
        in *.
    all: destruct_and?; tests; try contradiction; try lia.
    all: rewrite ?int_small by (unfold Go.max_int in *; lia).
    all: rewrite ?Eat; repeat split; try assumption; try reflexivity;
      try discriminate; try lia.
Qed.

(** X8. A synchronous publisher with a share of [numMsgs] messages:
    [published] is the number of messages it has published, never more
    than the share; its sample comes only after the last of them; it
    never waits for a notification; and as long as it has neither
    finished nor failed it can go on, so it never blocks. *)
Theorem sync_publishes_share (s : state) :
  sync p = true -> 0 <= numMsgs p <= Go.max_int -> reachable p s ->
  Z.of_nat (length (payloads (events s))) = published s /\
  0 <= published s <= numMsgs p /\
  at_ s <> PWait /\
  (samples (events s) <> [] -> published s = numMsgs p) /\
  (completed s -> published s = numMsgs p /\ samples (events s) <> []) /\
  (running s = true -> ~ completed s -> can_step p s).
Proof.
  intros Hsync Hfit Hr.
  destruct (sync_inv_reachable s Hsync Hfit Hr) as (Hu & Ha & Hp & Hinv).
  unfold completed, running, can_step.
  split; [exact Hp|].
  destruct (at_ s) eqn:Eat; destruct_and?;
    (split; [lia|]); (split; [congruence|]);
    (split; [intros; try lia; try congruence|]);
    (split; [intros; try discriminate; auto|]);
    intros Hrun Hfin; try discriminate; try congruence.
  - exists (NatsConnect true). eexists. unfold step. rewrite Eat. eauto.
  - exists (StanConnect true). eexists. unfold step. rewrite Eat. eauto.
  - exists StartDone. eexists. unfold step. rewrite Eat. eauto.
  - exists Prepare. eexists. unfold step. rewrite Eat. eauto.
  - destruct (Z.ltb_spec i (numMsgs p)) as [Hlt|Hge].
    + exists (Call true). eexists. unfold step. rewrite Eat, Hsync.
      apply Z.ltb_lt in Hlt. rewrite Hlt. eauto.
    + exists LoopExit. eexists. unfold step. rewrite Eat.
      apply Z.ltb_ge in Hge. rewrite Hge. eauto.
  - contradiction.
  - exists AddSample. eexists. unfold step. rewrite Eat. eauto.
  - exists Close. eexists. unfold step. rewrite Eat. eauto.
  - exists Done. eexists. unfold step. rewrite Eat. eauto.
Qed.

Lemma async_calls (s : state) :
  sync p = false -> 1 <= numMsgs p -> numMsgs p <= Go.max_int ->
  reachable p s ->
  Z.of_nat (length (payloads (events s))) = published s + unacked s.
Proof.
  intros Hasync Hlo Hhi. induction 1 as [|l s s' Hr IH Hstep].
  - reflexivity.
  - pose proof (async_inv_reachable p Hasync Hlo Hhi s Hr)
      as (Hp & Hu & Hinv).
    unfold step, running in Hstep. rewrite ?Hasync in Hstep.
    destruct l; destruct (at_ s) eqn:Eat; try discriminate;
      repeat (case_match; try discriminate); simplify_eq.
    all: cbn [at_ published unacked acb_sending events start msg now
              goto fatal set_msg set_counters payloads app length] in *.
    all: destruct_and?; tests; try lia.
    all: rewrite ?int_small by (unfold Go.max_int in *; lia); lia.
Qed.

(** X9. An asynchronous publisher with a share of at least one message
    and room for at least one unacknowledged message: it has called
    [PublishAsync] once for every message acknowledged or outstanding,
    never more often than its share; and as long as it has neither
    finished nor failed, it or the collaborator can go on, so it never
    blocks for good. *)
Theorem async_never_blocks (s : state) :
  sync p = false -> 1 <= numMsgs p <= Go.max_int ->
  1 <= maxPubAcksInflight p -> reachable p s ->
  Z.of_nat (length (payloads (events s))) = published s + unacked s /\
  (running s = true ->
   published s + unacked s <= numMsgs p /\
   (~ completed s -> can_step p s)).
Proof.
  intros Hasync [Hlo Hhi] Hmpa Hr.
  pose proof (async_calls s Hasync Hlo Hhi Hr) as Hcalls.
  pose proof (async_inv_reachable p Hasync Hlo Hhi s Hr)
    as (Hp & Hu & Hinv).
  unfold completed, running, can_step.
  split; [exact Hcalls|].
  destruct (at_ s) eqn:Eat; destruct_and?; intros Hrun;
    try discriminate; (split; [lia|]); intros Hfin; try congruence.
  - exists (NatsConnect true). eexists. unfold step. rewrite Eat. eauto.
  - exists (StanConnect true). eexists. unfold step. rewrite Eat. eauto.
  - exists StartDone. eexists. unfold step. rewrite Eat. eauto.
  - exists Prepare. eexists. unfold step. rewrite Eat. eauto.
  - destruct (Z.ltb_spec i (numMsgs p)) as [Hlt|Hge].
    + assert (Hns : acb_sending s = false).
      { destruct (Z.leb_spec (numMsgs p) (published s)); [lia|congruence]. }
      destruct (Z.ltb_spec (unacked s) (maxPubAcksInflight p)) as [Hroom|Hfull].
      * exists (Call true). eexists. unfold step. rewrite Eat, Hasync.
        apply Z.ltb_lt in Hlt, Hroom. rewrite Hlt, Hroom. eauto.
      * exists (Ack true). eexists. unfold step, running.
        rewrite Eat, Hns.
        assert (Hpos : (0 <? unacked s) = true) by (apply Z.ltb_lt; lia).
        rewrite Hpos. simpl. eauto.
    + exists LoopExit. eexists. unfold step. rewrite Eat.
      apply Z.ltb_ge in Hge. rewrite Hge. eauto.
  - destruct (acb_sending s) eqn:Hs.
    + exists Notify. eexists. unfold step. rewrite Eat, Hs. eauto.
    + exists (Ack true). eexists. unfold step, running. rewrite Eat, Hs.
      assert (Hpos : (0 <? unacked s) = true).
      { apply Z.ltb_lt.
        destruct (Z.leb_spec (numMsgs p) (published s)); [congruence|lia]. }
      rewrite Hpos. simpl. eauto.
  - exists AddSample. eexists. unfold step. rewrite Eat. eauto.
  - exists Close. eexists. unfold step. rewrite Eat. eauto.
  - exists Done. eexists. unfold step. rewrite Eat. eauto.
Qed.

End PublisherProps.

(** ** The subscribers: what every run does *)

Section SubscriberProps.

Import Sub SubInv SubProps.

Variable c : config.

(** X10. Without a queue group the two package counters are never
    touched, the handshake of the queue members is never entered, and no
    sentinel is ever published. *)
Theorem plain_run_leaves_counters (s : state) :
  isQueue c = false -> reachable c s ->
  qTotalRecv s = 0 /\ qSubsLeft s = 0 /\ backlog s = [] /\
  counts (trace s) = [] /\ sentinels (trace s) = 0 /\
  leaves (trace s) = [] /\
  Forall (fun w => sr w = None /\ at_ w <> WSubClose /\ at_ w <> WPublish)
         (workers s).
Proof.
  intros Hq. induction 1 as [|l s s' Hr IH Hstep].
  - simpl. rewrite Hq. repeat split.
    apply Forall_replicate. repeat split; discriminate.
  - destruct IH as (H1 & H2 & H3 & H4 & H5 & H6 & H7).
    unfold step, route, send in Hstep. rewrite ?Hq in Hstep.
    destruct l; repeat (case_match; try discriminate); simplify_eq; simpl.
    all: repeat split; try assumption.
    all: try (apply Forall_insert; [assumption|]).
    all: try match goal with
           | Hw : workers _ !! _ = Some _ |- _ =>
               pose proof (Forall_lookup_1 _ _ _ _ H7 Hw) as (? & ? & ?)
           end.
    all: try (repeat split; simpl; try assumption; try discriminate;
              congruence).
    apply List.Forall_map. eapply Forall_impl; [exact H7|].
    intros w Hw. unfold enqueue. destruct (subscribed w); exact Hw.
Qed.

(** X11. Every run of the subscribers is finite, with or without queue
    group and whether or not a sentinel publish fails: a run of
    [numSubs] subscribers and [numMsgs] messages has at most
    [numMsgs * (4 * numSubs + 5) + numSubs * (4 * numSubs + 12)] steps.
    In particular sentinels are not passed around for ever. *)
Theorem runs_are_finite (ls : list label) (s' : state) :
  exec c ls (init c) = Some s' ->
  (length ls
   <= Z.to_nat (numMsgs c) * (4 * Z.to_nat (numSubs c) + 5)
      + Z.to_nat (numSubs c) * (4 * Z.to_nat (numSubs c) + 12))%nat.
Proof.
  intros He. pose proof (exec_measure c ls _ _ He) as Hm.
  rewrite measure_init in Hm. lia.
Qed.

Lemma quiet_reachable (s : state) (i : nat) (w : worker) :
  fits c -> 1 <= numMsgs c -> reachable c s ->
  workers s !! i = Some w -> quiet c s w.
Proof.
  intros Hfits Hn Hr Hw. unfold fits in Hfits.
  destruct (isQueue c) eqn:Hq.
  - destruct Hfits as [Hk Hfit].
    assert (Hrun : queue_run c) by (split; assumption).
    eapply queue_quiet; [exact Hrun| |exact Hw].
    apply queue_inv_reachable; assumption.
  - assert (Hrun : plain_run c) by (split; assumption).
    eapply (plain_quiet c Hrun); [|exact Hw].
    apply plain_inv_reachable; assumption.
Qed.

(** X13. On a subject that holds nothing before the run and on which
    exactly [numMsgs] messages are published, at least one, the channel
    of two places is enough: it never holds more than two values, and
    whenever the callback is at one of its sends there is room, so [mcb]
    never blocks.  ([reachable] is a run from [init], which is this
    subject.) *)
Theorem callback_never_blocks (s : state) (i : nat) (w : worker) :
  fits c -> 1 <= numMsgs c -> reachable c s ->
  workers s !! i = Some w ->
  (length (ch w) <= 2)%nat /\
  (cb w = CbFirst \/ cb w = CbLast ->
   send w = Some (set_ch (ch w ++ [received w]) w)).
Proof.
  intros Hfits Hn Hr Hw.
  destruct (quiet_reachable s i w Hfits Hn Hr Hw) as (Hs & Hf & Hl & _).
  unfold sends in *.
  assert (Hc : 0 <= consumed (at_ w)) by (destruct (at_ w); simpl; lia).
  split; [lia|]. intros Hcb. unfold send.
  assert (Hroom : (length (ch w) <? 2)%nat = true).
  { apply Nat.ltb_lt. destruct Hcb as [E|E].
    - specialize (Hf E). lia.
    - destruct (Hl E) as [Hl1 _]. lia. }
  rewrite Hroom. reflexivity.
Qed.

(** X14. In a queue-group run on a subject that holds nothing before
    the run and on which exactly [numMsgs] messages are published, at
    least one, with counters that fit 32 bits: once the publish of a
    sentinel has failed the run cannot complete.  All messages have been
    consumed, no further sentinel publish can fail, [qSubsLeft] is still
    positive, and in every later state some member has not finished. *)
Theorem lost_sentinel_blocks (s : state) :
  queue_run c -> reachable c s -> 1 <= lost (trace s) ->
  lost (trace s) = 1 /\ 0 < qSubsLeft s /\
  unpublished s = 0%nat /\ backlog s = [] /\
  exists i w, workers s !! i = Some w /\ staying w = 1 /\ ~ finished w.
Proof.
  intros Hrun Hr Hlost.
  pose proof (queue_inv_reachable c Hrun s Hr) as Hinv.
  destruct (Z_lt_le_dec (qTotalRecv s) (numMsgs c)) as [Hlt|Hge].
  { destruct (q_before _ _ Hinv Hlt) as (_ & _ & H0 & _). lia. }
  pose proof (q_token _ _ Hinv Hge) as Htok.
  pose proof (total_range holding (workers s) holding_range) as Hh.
  pose proof (total_range counting (workers s) counting_range) as Hc.
  pose proof (total_range staying (workers s) staying_range) as Hs.
  unfold inflight in Htok.
  destruct (Z.ltb_spec 0 (qSubsLeft s)) as [Hpos|Hnon]; [|lia].
  split; [lia|]. split; [exact Hpos|]. split; [lia|].
  split; [destruct (backlog s); [reflexivity|simpl in Htok; lia]|].
  rewrite (q_left _ _ Hinv) in Hpos.
  destruct (total_positive staying (workers s)) as (i & w & Hw & Hst).
  { apply List.Forall_forall. intros x _. apply staying_range. }
  { lia. }
  exists i, w. split; [exact Hw|].
  pose proof (staying_range w). split; [lia|].
  unfold finished, staying in *. intros Hf. rewrite Hf in Hst. lia.
Qed.

Lemma leaves_reachable (s : state) :
  queue_run c -> reachable c s ->
  leaves (trace s) = seqZ (qSubsLeft s) (numSubs c - qSubsLeft s).
Proof.
  intros Hrun. pose proof Hrun as [Hq Hn Hk Hfit].
  induction 1 as [|l s s' Hr IH Hstep].
  - simpl. rewrite Hq, int32_small by (unfold Go.max_int32 in *; lia).
    rewrite Z.sub_diag. reflexivity.
  - pose proof (queue_inv_reachable c Hrun s Hr) as Hinv.
    unfold step, route in Hstep. rewrite ?Hq in Hstep.
    destruct l; repeat (case_match; try discriminate); simplify_eq;
      simpl; try exact IH.
    all: match goal with
         | Hw : workers _ !! _ = Some ?w |- _ =>
             pose proof (total_part staying _ _ _ staying_range Hw) as Hst;
             unfold staying at 1 in Hst
         end.
    all: repeat match goal with
           | E : at_ _ = _ |- _ => rewrite E in *
           end.
    all: pose proof (total_range staying (workers s) staying_range) as Hs';
      pose proof (q_left _ _ Hinv) as Hl;
      pose proof (q_length _ _ Hinv) as Hlen.
    all: rewrite int32_small by (unfold Go.max_int32 in *; lia).
    all: rewrite IH.
    all: rewrite (seqZ_cons (qSubsLeft s - 1)) by lia.
    all: f_equal; f_equal; lia.
Qed.

(** X15. In a queue-group run of [numSubs] members the atomic decrement
    of [qSubsLeft] returns [numSubs - 1], [numSubs - 2], ... down to the
    current value, in this order: no two members read the same value, no
    value is negative, and so at most one member reads zero and leaves
    without a sentinel. *)
Theorem leave_values (s : state) :
  queue_run c -> reachable c s ->
  leaves (trace s) = seqZ (qSubsLeft s) (numSubs c - qSubsLeft s) /\
  List.NoDup (leaves (trace s)) /\
  (forall v, In v (leaves (trace s)) -> 0 <= v < numSubs c) /\
  (count_occ Z.eq_dec (leaves (trace s)) 0%Z <= 1)%nat.
Proof.
  intros Hrun Hr. pose proof (leaves_reachable s Hrun Hr) as Hl.
  pose proof (queue_inv_reachable c Hrun s Hr) as Hinv.
  pose proof (total_range staying (workers s) staying_range) as Hs.
  pose proof (q_left _ _ Hinv) as Hleft.
  assert (Hnd : List.NoDup (leaves (trace s)))
    by (rewrite Hl; apply NoDup_ListNoDup, NoDup_seqZ).
  split; [exact Hl|]. split; [exact Hnd|]. split.
  - intros v Hv. rewrite Hl in Hv. apply list_elem_of_In in Hv.
    apply elem_of_seqZ in Hv. lia.
  - apply (proj1 (List.NoDup_count_occ Z.eq_dec _) Hnd).
Qed.

Lemma pending_nil (m : message) (l : list message) :
  l = [] -> pending m l = 0.
Proof. intros ->. reflexivity. Qed.

Lemma accounted_reachable (s : state) :
  isQueue c = true -> reachable c s -> accounted c s.
Proof.
  intros Hq. induction 1 as [|l s s' Hr [IHp IHs] Hstep].
  - split; simpl; lia.
  - unfold step, route in Hstep. rewrite ?Hq in Hstep. unfold accounted.
    destruct l; repeat (case_match; try discriminate); simplify_eq;
      simpl; rewrite ?pending_app; simpl;
      repeat match goal with
        | E : unpublished _ = _ |- _ => rewrite E in *
        | E : backlog _ = _ |- _ => rewrite E in *
        end; simpl in *; split; lia.
Qed.

Lemma counted_reachable (s : state) :
  queue_run c -> reachable c s -> counted s.
Proof.
  intros Hrun. pose proof Hrun as [Hq Hn Hk Hfit].
  induction 1 as [|l s s' Hr IH Hstep].
  - unfold counted. simpl. rewrite total_replicate.
    change (counting worker0) with 0. lia.
  - pose proof (queue_inv_reachable c Hrun s Hr) as Hinv.
    unfold step, route, send, invoke in Hstep. rewrite ?Hq in Hstep.
    unfold counted in *.
    destruct l; repeat (case_match; try discriminate); simplify_eq;
      simpl; totals; rewrite ?counting_eq;
      cbn [cb at_ ch sr received subscribed inbox start end_
           set_cb set_at set_ch set_received set_inbox unsubscribe
           set_start set_end set_sr].
    all: repeat match goal with
           | E : cb _ = _ |- _ => rewrite E in *
           end.
    all: try lia.
    all: try (destruct m; simpl; lia).
    all: match goal with
         | Hw : workers _ !! _ = Some ?w |- _ =>
             pose proof (total_part counting _ _ _ counting_range Hw) as Hc;
             rewrite counting_eq in Hc
         end.
    all: repeat match goal with
           | E : cb _ = _ |- _ => rewrite E in *
           end.
    all: pose proof (q_nonneg _ _ Hinv); pose proof (q_bound _ _ Hinv);
      pose proof (q_length _ _ Hinv);
      pose proof (total_range sent_sentinel (workers s)
                    sent_sentinel_range);
      unfold inflight in *.
    all: rewrite int32_small by (unfold Go.max_int32 in *; lia); lia.
Qed.

Lemma one_last_reachable (s : state) :
  queue_run c -> reachable c s -> one_last c s.
Proof.
  intros Hrun. pose proof Hrun as [Hq Hn Hk Hfit].
  induction 1 as [|l s s' Hr IH Hstep].
  - unfold one_last. simpl. rewrite total_replicate, Hq.
    change (left_last worker0) with 0.
    rewrite int32_small by (unfold Go.max_int32 in *; lia).
    destruct (Z.leb_spec (numSubs c) 0), (Z.leb_spec 1 (numSubs c));
      simpl; lia.
  - pose proof (queue_inv_reachable c Hrun s Hr) as Hinv.
    unfold step, route, send, invoke in Hstep. rewrite ?Hq in Hstep.
    destruct l; repeat (case_match; try discriminate); simplify_eq;
      unfold one_last in *; simpl; totals; rewrite ?left_last_eq;
      cbn [cb at_ ch sr received subscribed inbox start end_
           set_cb set_at set_ch set_received set_inbox unsubscribe
           set_start set_end set_sr];
      try exact IH; try lia.
    all: match goal with
         | Hw : workers _ !! _ = Some ?w |- _ =>
             pose proof (total_part staying _ _ _ staying_range Hw) as Hst;
             rewrite staying_eq in Hst;
             pose proof (member_at c s _ _ Hinv Hw) as (_ & _ & _ & _ & Hm)
         end.
    all: repeat match goal with
           | E : at_ _ = _ |- _ => rewrite E in *
           end.
    all: destruct Hm as [_ Hsr]; rewrite Hsr.
    all: pose proof (total_range staying (workers s) staying_range) as Hs';
      pose proof (q_left _ _ Hinv) as Hl;
      pose proof (q_length _ _ Hinv) as Hlen.
    all: rewrite int32_small in * by (unfold Go.max_int32 in *; lia).
    all: repeat match goal with
           | E : (_ <? _) = true |- _ => apply Z.ltb_lt in E
           | E : (_ <? _) = false |- _ => apply Z.ltb_ge in E
           end.
    all: repeat match goal with
           | |- context [?a <=? ?b] => destruct (Z.leb_spec a b)
           | |- context [?a <? ?b] => destruct (Z.ltb_spec a b)
           | H : context [?a <=? ?b] |- _ => destruct (Z.leb_spec a b)
           end; simpl in *; lia.
Qed.

Lemma finished_account (q : Z) (w : worker) :
  member_ok q w -> finished w -> sent_sentinel w + left_last w = 1.
Proof.
  unfold member_ok, finished, sent_sentinel, left_last.
  intros (_ & _ & _ & _ & Hm) Hf. rewrite Hf in *.
  destruct Hm as (_ & v & -> & _). destruct (0 <? v); reflexivity.
Qed.

(** X16. A queue-group run of at least one member and at least one
    message, with counters that fit 32 bits, on a subject that holds
    nothing before the run and on which exactly [numMsgs] messages are
    published, and in which no publish fails; once it cannot go on:
    every one of the [numMsgs] messages has been handed to a callback,
    and so has every sentinel; exactly [numSubs - 1] sentinels were
    published; the server holds nothing more; and the counters stand at
    [numMsgs + numSubs - 1] and 0. *)
Theorem complete_run_accounts (s : state) :
  queue_run c -> 1 <= numSubs c -> reachable_ok c s -> stuck c s ->
  qSubsLeft s = 0 /\ qTotalRecv s = numMsgs c + numSubs c - 1 /\
  sentinels (trace s) = numSubs c - 1 /\
  handed Payload (trace s) = numMsgs c /\
  handed Sentinel (trace s) = numSubs c - 1 /\
  backlog s = [] /\ unpublished s = 0%nat.
Proof.
  intros Hrun Hk1 Hok Hstuck. pose proof Hrun as [Hq Hn Hk Hfit].
  pose proof (reachable_ok_reachable c s Hok) as Hr.
  pose proof (reachable_ok_lost c s Hok) as Hlost.
  pose proof (queue_inv_reachable c Hrun s Hr) as Hinv.
  pose proof (queue_stuck_finished c Hrun s Hinv Hlost Hstuck) as Hall.
  pose proof (q_length _ _ Hinv) as Hlen.
  assert (Hstay : total staying (workers s) = 0).
  { rewrite (total_const staying 0); [lia|].
    eapply Forall_impl; [exact Hall|]. intros w Hf.
    unfold finished, staying in *. rewrite Hf. reflexivity. }
  assert (Hq0 : qSubsLeft s = 0) by (rewrite (q_left _ _ Hinv); exact Hstay).
  assert (Hge : numMsgs c <= qTotalRecv s).
  { destruct (Z_lt_le_dec (qTotalRecv s) (numMsgs c)) as [Hlt|]; [|lia].
    exfalso. destruct (q_before _ _ Hinv Hlt) as (Hwait & _).
    destruct (workers s) as [|w ws] eqn:Ews; [simpl in Hlen; lia|].
    apply Forall_cons in Hall as [Hf _].
    apply Forall_cons in Hwait as [Hw _].
    unfold finished in Hf. unfold waiting in Hw. rewrite Hf in Hw.
    discriminate. }
  pose proof (q_token _ _ Hinv Hge) as Htok. rewrite Hq0 in Htok.
  pose proof (total_range holding (workers s) holding_range) as Hh.
  pose proof (total_range counting (workers s) counting_range) as Hc.
  unfold inflight in Htok. simpl in Htok.
  assert (Hb : backlog s = [])
    by (destruct (backlog s); [reflexivity|simpl in Htok; lia]).
  assert (Hu : unpublished s = 0%nat) by lia.
  destruct (accounted_reachable s Hq Hr) as [Hpay Hsen].
  rewrite Hb, Hu in Hpay. rewrite Hb, Hlost in Hsen. simpl in Hpay, Hsen.
  pose proof (counted_reachable s Hrun Hr) as Hcnt. unfold counted in Hcnt.
  assert (Hsum : total (fun w => sent_sentinel w + left_last w) (workers s)
                 = Z.of_nat (length (workers s)) * 1).
  { apply total_const. apply Forall_lookup. intros i w Hw.
    eapply finished_account.
    - eapply member_at; eassumption.
    - eapply Forall_lookup_1; eassumption. }
  rewrite total_add in Hsum.
  pose proof (one_last_reachable s Hrun Hr) as Hone. unfold one_last in Hone.
  rewrite Hq0 in Hone.
  destruct (Z.leb_spec 1 (numSubs c)); [|lia]. simpl in Hone.
  pose proof (q_sentinels _ _ Hinv) as Hs.
  repeat split; try assumption; lia.
Qed.

Lemma first_callback (s : state) (i : nat) (w : worker) :
  fits c -> 1 <= numMsgs c -> reachable c s ->
  workers s !! i = Some w -> cb w = CbFirst -> received w = 1.
Proof.
  intros Hfits Hn Hr Hw Hcb. unfold fits in Hfits.
  destruct (isQueue c) eqn:Hq.
  - destruct Hfits as [Hk Hfit].
    assert (Hrun : queue_run c) by (split; assumption).
    pose proof (member_at c s i w (queue_inv_reachable c Hrun s Hr) Hw)
      as (_ & _ & _ & Hm & _).
    rewrite Hcb in Hm. tauto.
  - assert (Hrun : plain_run c) by (split; assumption).
    pose proof (plain_inv_reachable c Hrun s Hr) as Hinv.
    pose proof (Forall_lookup_1 _ _ _ _ (n_workers _ _ Hinv) Hw) as Hm.
    unfold plain_ok in Hm. destruct Hm as (_ & _ & _ & _ & _ & Hm & _).
    rewrite Hcb in Hm. tauto.
Qed.

Lemma first_stamp_map (m : message) (ws : list worker) :
  (forall j y, ws !! j = Some y -> first_stamp y) ->
  forall j x, map (enqueue m) ws !! j = Some x -> first_stamp x.
Proof.
  intros Hall j x Hx. rewrite lookup_map in Hx.
  destruct (ws !! j) as [y|] eqn:Hy; [|discriminate].
  injection Hx as <-. specialize (Hall j y Hy).
  unfold enqueue. destruct (subscribed y); exact Hall.
Qed.

Lemma first_stamp_reachable (s : state) :
  fits c -> 1 <= numMsgs c -> reachable c s ->
  forall i w, workers s !! i = Some w -> first_stamp w.
Proof.
  intros Hfits Hn. induction 1 as [|l s s' Hr IH Hstep]; intros j x Hx.
  - simpl in Hx. apply lookup_replicate in Hx as [-> _].
    unfold first_stamp. simpl. discriminate.
  - unfold step, route, send, invoke in Hstep.
    destruct l; repeat (case_match; try discriminate); simplify_eq;
      cbn [workers put emit set_workers set_backlog set_unpublished
           set_qTotalRecv set_qSubsLeft] in Hx.
    all: try (eapply IH; eassumption).
    all: try (revert j x Hx; apply first_stamp_map; intros j x Hx).
    all: try (eapply IH; eassumption).
    all: match goal with
         | Hw : workers _ !! ?i = Some ?w |- _ =>
             destruct (decide (j = i)) as [->|Hne];
             [ rewrite list_lookup_insert_eq in Hx
                 by (eapply lookup_lt_Some; eassumption);
               injection Hx as <-;
               pose proof (IH _ _ Hw) as Hf;
               pose proof (quiet_reachable s _ _ Hfits Hn Hr Hw)
                 as (Hq1 & Hq2 & Hq3 & _);
               pose proof (first_callback s _ _ Hfits Hn Hr Hw) as Hq0
             | rewrite list_lookup_insert_ne in Hx by congruence;
               eapply IH; eassumption ]
         end.
    all: unfold first_stamp, sends in *;
      cbn [cb at_ ch sr received subscribed inbox start end_
           set_cb set_at set_ch set_received set_inbox unsubscribe
           set_start set_end set_sr] in *.
    all: repeat match goal with
           | E : cb _ = _ |- _ => rewrite E in *
           | E : at_ _ = _ |- _ => rewrite E in *
           | E : ch _ = _ |- _ => rewrite E in *
           end.
    all: try exact Hf.
    + destruct (at_ w) eqn:Eat; try exact Hf.
      specialize (Hq2 eq_refl). simpl in Hq2.
      destruct (ch w); [|simpl in Hq2; lia].
      simpl. intros v [= <-]. apply Hq0. reflexivity.
    + destruct (at_ w) eqn:Eat; try exact Hf.
      destruct (Hq3 eq_refl) as [Hone _]. simpl in Hone.
      destruct (ch w) as [|a k]; [simpl in Hone; lia|]. exact Hf.
    + f_equal. apply Hf. reflexivity.
Qed.

(** X17. On a subject that holds nothing before the run and on which
    exactly [numMsgs] messages are published, at least one, with flags
    that fit their integers: the start of a subscriber's sample is the
    stamp of the first delivery to that worker, not of its subscription;
    the end is the stamp of the delivery that completed it, which is the
    last delivery the sample counts; so a worker whose sample counts one
    delivery, such as a queue member that was handed nothing but a
    sentinel, has both stamps from one callback. *)
Theorem sample_spans_deliveries (s : state) (i : nat) (w : worker)
        (x : Bench.Sample) :
  fits c -> 1 <= numMsgs c -> reachable c s ->
  workers s !! i = Some w -> In x (samples i (trace s)) ->
  start w = Some 1 /\ Bench.Start x = 1 /\
  Bench.End x = Bench.JobMsgCnt x /\
  (Bench.JobMsgCnt x = 1 -> Bench.Start x = Bench.End x).
Proof.
  intros Hfits Hn Hr Hw Hin.
  pose proof (first_stamp_reachable s Hfits Hn Hr i w Hw) as Hf.
  assert (Hs : sample_ok c i (trace s) w).
  { unfold fits in Hfits. destruct (isQueue c) eqn:Hq.
    - destruct Hfits as [Hk Hfit].
      apply sample_inv_queue; [split; assumption|assumption|assumption].
    - apply sample_inv_plain; [split; assumption|assumption|assumption]. }
  destruct Hs as (_ & _ & Hs). unfold first_stamp in Hf.
  destruct (at_ w); rewrite Hs in Hin; simpl in Hin; try contradiction;
    destruct Hin as [<-|[]]; rewrite Hf; simpl; repeat split; congruence.
Qed.

End SubscriberProps.

(** ** The further properties on example inputs *)

Lemma tls_anywhere_in_urls_witness :
  length (Args.args Cases.tls_second_bare) = 1%nat /\
  Args.setup Cases.pem_files Cases.tls_second_bare = Args.Usage.
Proof.
  split; [reflexivity|].
  apply (tls_anywhere_in_urls Cases.pem_files Cases.tls_second_bare eq_refl).
  split; [|split; [reflexivity|left; reflexivity]].
  exists "nats://a:4222,"%string, "b:4222"%string. reflexivity.
Defined.

Lemma auth_options_witness :
  Args.setup Cases.pem_files Cases.user_only
  = Args.Proceed [Args.Name "NATS Streaming Benchmark"] /\
  ~ In (Args.UserInfo "alice" EmptyString)
       [Args.Name "NATS Streaming Benchmark"].
Proof.
  split; [reflexivity|]. intros Hin.
  destruct (auth_options Cases.pem_files Cases.user_only _ eq_refl)
    as (_ & _ & Hu).
  apply Hu in Hin. destruct Hin as (_ & _ & _ & Hpw). apply Hpw. reflexivity.
Defined.

Lemma tls_options_witness :
  Args.setup Cases.pem_files Cases.tls_second
  = Args.Proceed [Args.Name "NATS Streaming Benchmark";
                  Args.RootCAs ["certs/ca.pem"%string]] /\
  ~ In (Args.ClientCert "client.pem" "client.key")
       [Args.Name "NATS Streaming Benchmark";
        Args.RootCAs ["certs/ca.pem"%string]].
Proof.
  split; [reflexivity|]. intros Hin.
  destruct (tls_options Cases.pem_files Cases.tls_second _ eq_refl)
    as (_ & Hc).
  apply Hc in Hin. destruct Hin as (_ & Hdir & _). discriminate Hdir.
Defined.

Lemma error_is_fatal_witness :
  exists s',
    Pub.step (Examples.one_message true) (Pub.NatsConnect false) Pub.init
    = Some s' /\
    PubProps.failing (Pub.NatsConnect false) = true /\
    Pub.at_ s' = Pub.PFatal /\
    Pub.stuck (Examples.one_message true) s'.
Proof.
  eexists. split; [reflexivity|]. split; [reflexivity|].
  destruct (error_is_fatal (Examples.one_message true)
              (Pub.NatsConnect false) Pub.init _ eq_refl eq_refl)
    as (Hat & _ & Hst).
  split; [exact Hat|exact Hst].
Defined.

(** A run of the publisher from its first state. *)
Ltac pub_run p ls s E Hr :=
  destruct (Pub.exec p ls Pub.init) as [s|] eqn:E; [|discriminate E];
  assert (Hr : Pub.reachable p s)
    by (eapply exec_reachable; [apply Pub.reach_init|exact E]);
  vm_compute in E.

Lemma publisher_sample_witness :
  exists s x,
    Pub.exec (Cases.empty_message true) Cases.sync_steps Pub.init = Some s /\
    Pub.samples (Pub.events s) = [x] /\
    Bench.JobMsgCnt x = 1 /\ Bench.MsgSize x = 0.
Proof.
  pub_run (Cases.empty_message true) Cases.sync_steps s E Hr.
  assert (Hs : exists x, Pub.samples (Pub.events s) = [x])
    by (injection E as <-; eexists; reflexivity).
  destruct Hs as [x Hs]. exists s, x. split; [reflexivity|].
  destruct (publisher_sample (Cases.empty_message true) s x Hr)
    as (H1 & H2 & H3 & _); [rewrite Hs; left; reflexivity|].
  auto.
Defined.

Lemma nonpositive_size_empty_payload_witness :
  Pub.msgSize (Cases.empty_message true) <= 0 /\
  exists s,
    Pub.exec (Cases.empty_message true) Cases.sync_steps Pub.init = Some s /\
    Pub.payloads (Pub.events s) = [[]].
Proof.
  split; [simpl; lia|].
  pub_run (Cases.empty_message true) Cases.sync_steps s E Hr.
  exists s. split; [reflexivity|].
  assert (Hp : exists m, Pub.payloads (Pub.events s) = [m])
    by (injection E as <-; eexists; reflexivity).
  destruct Hp as [m Hp]. rewrite Hp. do 2 f_equal.
  apply (nonpositive_size_empty_payload (Cases.empty_message true) s m);
    [simpl; lia|exact Hr|rewrite Hp; left; reflexivity].
Defined.

Lemma sync_publishes_share_witness :
  Pub.sync (Cases.empty_message true) = true /\
  exists s,
    Pub.exec (Cases.empty_message true) Cases.sync_steps Pub.init = Some s /\
    Pub.published s = 1 /\
    length (Pub.payloads (Pub.events s)) = 1%nat /\
    PubProps.can_step (Cases.empty_message true) s.
Proof.
  split; [reflexivity|].
  pub_run (Cases.empty_message true) Cases.sync_steps s E Hr.
  exists s. split; [reflexivity|].
  destruct (sync_publishes_share (Cases.empty_message true) s eq_refl
              ltac:(simpl; unfold Go.max_int; lia) Hr)
    as (Hn & _ & _ & Hs & _ & Hgo).
  assert (Hp : Pub.published s = 1).
  { apply Hs. injection E as <-. discriminate. }
  split; [exact Hp|]. split; [lia|].
  apply Hgo; injection E as <-; [reflexivity|discriminate].
Defined.

Lemma async_never_blocks_witness :
  Pub.sync (Cases.empty_message false) = false /\
  exists s,
    Pub.exec (Cases.empty_message false) Cases.async_steps Pub.init
    = Some s /\
    Pub.at_ s = Pub.PWait /\
    length (Pub.payloads (Pub.events s)) = 1%nat /\
    PubProps.can_step (Cases.empty_message false) s.
Proof.
  split; [reflexivity|].
  pub_run (Cases.empty_message false) Cases.async_steps s E Hr.
  exists s. split; [reflexivity|].
  destruct (async_never_blocks (Cases.empty_message false) s eq_refl
              ltac:(simpl; unfold Go.max_int; lia) ltac:(simpl; lia) Hr)
    as (Hn & Hgo).
  assert (Hat : Pub.at_ s = Pub.PWait) by (injection E as <-; reflexivity).
  split; [exact Hat|].
  assert (Hc : Pub.published s + Pub.unacked s = 1)
    by (injection E as <-; reflexivity).
  split; [lia|].
  apply Hgo; [unfold Pub.running; rewrite Hat; reflexivity|].
  unfold Pub.completed. rewrite Hat. discriminate.
Defined.

Lemma async_notified_at_share_witness :
  exists s,
    Pub.exec (Cases.empty_message false) Cases.async_steps Pub.init
    = Some s /\
    Pub.acb_sending s = true /\ Pub.published s = 1 /\
    PubInv.notified (Pub.events s) = 0%nat.
Proof.
  pub_run (Cases.empty_message false) Cases.async_steps s E Hr.
  exists s. split; [reflexivity|].
  assert (Ha : Pub.acb_sending s = true) by (injection E as <-; reflexivity).
  assert (Hrun : Pub.running s = true) by (injection E as <-; reflexivity).
  destruct (async_notified_at_share (Cases.empty_message false) eq_refl
              ltac:(simpl; lia) ltac:(simpl; unfold Go.max_int; lia)
              s Hr Hrun) as (Hs & _ & Hiff & _).
  split; [exact Ha|]. split; [exact (proj1 (Hs Ha))|].
  injection E as <-. reflexivity.
Defined.

Lemma async_completes_after_acks_witness :
  exists s s',
    Pub.exec (Cases.empty_message false) Cases.async_steps Pub.init
    = Some s /\
    Pub.exec (Cases.empty_message false) (PubInv.wind_up s) s = Some s' /\
    Pub.completed s'.
Proof.
  pub_run (Cases.empty_message false) Cases.async_steps s E Hr.
  assert (Hrun : Pub.running s = true) by (injection E as <-; reflexivity).
  assert (Hp : Pub.published s = 1) by (injection E as <-; reflexivity).
  destruct (async_completes_after_acks (Cases.empty_message false) eq_refl
              ltac:(simpl; lia) ltac:(simpl; unfold Go.max_int; lia)
              s Hr Hrun Hp) as (s' & He & Hc & _).
  exists s, s'. split; [reflexivity|]. split; [exact He|exact Hc].
Defined.

Lemma plain_run_leaves_counters_witness :
  Sub.isQueue Examples.one_plain = false /\
  Sub.qTotalRecv Examples.both_messages_end = 0 /\
  Sub.sentinels (Sub.trace Examples.both_messages_end) = 0.
Proof.
  split; [reflexivity|].
  destruct (plain_run_leaves_counters Examples.one_plain
              Examples.both_messages_end eq_refl both_messages_reachable)
    as (H1 & _ & _ & _ & H5 & _).
  split; assumption.
Defined.

Lemma runs_are_finite_witness :
  Sub.exec Examples.two_members Examples.cascade
    (Sub.init Examples.two_members) = Some Examples.cascade_end /\
  (length Examples.cascade <= 1 * (4 * 2 + 5) + 2 * (4 * 2 + 12))%nat.
Proof.
  split; [reflexivity|].
  exact (runs_are_finite Examples.two_members Examples.cascade
           Examples.cascade_end eq_refl).
Defined.

Lemma first_delivery_reachable :
  Sub.reachable Examples.two_members Cases.first_delivery_end.
Proof.
  apply (run_reachable Examples.two_members Cases.first_delivery
           (Sub.init Examples.two_members));
    [apply Sub.reach_init|reflexivity].
Qed.

Lemma two_members_fits : SubInv.fits Examples.two_members.
Proof. unfold SubInv.fits, Go.max_int32. simpl. lia. Qed.

Lemma two_messages_queue_run : SubInv.queue_run Examples.two_messages.
Proof. split; [reflexivity|unfold Go.max_int32; simpl; lia..]. Qed.

Lemma two_messages_fits : SubInv.fits Examples.two_messages.
Proof. unfold SubInv.fits, Go.max_int32. simpl. lia. Qed.

Lemma callback_never_blocks_witness :
  SubInv.fits Examples.two_members /\
  exists w,
    Sub.workers Cases.first_delivery_end !! 0%nat = Some w /\
    Sub.cb w = Sub.CbFirst /\
    Sub.send w = Some (Sub.set_ch [1] w).
Proof.
  split; [exact two_members_fits|].
  eexists. split; [reflexivity|]. split; [reflexivity|].
  refine (proj2 (callback_never_blocks Examples.two_members
                   Cases.first_delivery_end 0 _ two_members_fits
                   ltac:(simpl; lia) first_delivery_reachable eq_refl)
            (or_introl eq_refl)).
Defined.

Lemma lost_sentinel_blocks_witness :
  SubInv.queue_run Examples.two_members /\
  SubInv.lost (Sub.trace Examples.lost_sentinel_end) = 1 /\
  0 < Sub.qSubsLeft Examples.lost_sentinel_end /\
  exists i w,
    Sub.workers Examples.lost_sentinel_end !! i = Some w /\
    SubInv.staying w = 1 /\ ~ Sub.finished w.
Proof.
  split; [exact two_members_queue_run|].
  destruct (lost_sentinel_blocks Examples.two_members
              Examples.lost_sentinel_end two_members_queue_run
              lost_sentinel_reachable ltac:(simpl; lia))
    as (H1 & H2 & _ & _ & H5).
  split; [exact H1|]. split; [exact H2|exact H5].
Defined.

Lemma leave_values_witness :
  SubInv.queue_run Examples.two_members /\
  SubProps.leaves (Sub.trace Examples.cascade_end) = [0; 1] /\
  List.NoDup (SubProps.leaves (Sub.trace Examples.cascade_end)).
Proof.
  split; [exact two_members_queue_run|]. split; [reflexivity|].
  exact (proj1 (proj2 (leave_values Examples.two_members
                         Examples.cascade_end two_members_queue_run
                         (reachable_ok_reachable _ _ cascade_reachable)))).
Defined.

Lemma complete_run_accounts_witness :
  SubInv.queue_run Examples.two_messages /\
  Sub.stuck Examples.two_messages Examples.one_sided_end /\
  Sub.qTotalRecv Examples.one_sided_end = 2 + 2 - 1 /\
  Sub.sentinels (Sub.trace Examples.one_sided_end) = 2 - 1 /\
  SubProps.handed Sub.Payload (Sub.trace Examples.one_sided_end) = 2.
Proof.
  assert (Hst : Sub.stuck Examples.two_messages Examples.one_sided_end)
    by no_step.
  split; [exact two_messages_queue_run|]. split; [exact Hst|].
  destruct (complete_run_accounts Examples.two_messages
              Examples.one_sided_end two_messages_queue_run
              ltac:(simpl; lia) one_sided_reachable Hst)
    as (_ & H2 & H3 & H4 & _).
  split; [exact H2|]. split; [exact H3|exact H4].
Defined.

Lemma sample_spans_deliveries_witness :
  SubInv.fits Examples.two_messages /\
  SubInv.samples 1 (Sub.trace Examples.one_sided_end)
  = [Bench.NewSample 1 128 1 1] /\
  Bench.Start (Bench.NewSample 1 128 1 1)
  = Bench.End (Bench.NewSample 1 128 1 1).
Proof.
  split; [exact two_messages_fits|]. split; [reflexivity|].
  refine (proj2 (proj2 (proj2
            (sample_spans_deliveries Examples.two_messages
               Examples.one_sided_end 1 _ (Bench.NewSample 1 128 1 1)
               two_messages_fits ltac:(simpl; lia)
               (reachable_ok_reachable _ _ one_sided_reachable)
               eq_refl (or_introl eq_refl)))) eq_refl).
Defined.
